(** * Hierarchical configuration proposal (common/configtx/config.go)

    A shallow embedding of [configResult], its [preCommit], [commit] and
    [rollback] cascades, [proposeGroup] and [processConfig].

    The value and policy handlers are external collaborators.  They are
    modelled as handles (the identity of the Go interface value) whose
    methods are given by a record of functions over an abstract [World]:
    every call may read and change the world.  Every call made by the code is
    also recorded, in program order, in a trace of [Event]s, so that
    statements such as "CommitProposals was never invoked" are statements
    about that trace. *)

From Stdlib Require Import List String Arith Bool Lia Permutation DecimalString.
Import ListNotations.

Set Implicit Arguments.
Set Warnings "-register-all".

(** Go's [len] on slices. *)
Abbreviation len := List.length.

(** ** Data model *)

(** Go's [error]: what the code can observe of it is its message. *)
Definition error := string.

(** A Go [(T, error)] return pair; the code only ever returns [(v, nil)] or
    [(nil, err)]. *)
Inductive res (A : Type) : Type :=
| Ok (a : A)
| Err (e : error).
Arguments Ok {A} a.
Arguments Err {A} e.

Definition errOf {A : Type} (r : res A) : option error :=
  match r with Ok _ => None | Err e => Some e end.

Definition bytes := list Byte.byte.

(** [cb.ConfigValue] and [cb.ConfigPolicy]: only the payload is looked at. *)
Record ConfigValue := { Value : bytes }.
Record ConfigPolicy := { Policy : bytes }.

(** [cb.ConfigGroup].  The three Go maps are listed in the order in which
    [range] enumerates them in the run under consideration; keys of a Go map
    are distinct. *)
Inductive ConfigGroup : Type := mkConfigGroup {
  Groups : list (string * ConfigGroup);
  Values : list (string * ConfigValue);
  Policies : list (string * ConfigPolicy)
}.

(** [cb.NewConfigGroup()] *)
Definition NewConfigGroup : ConfigGroup :=
  {| Groups := []; Values := []; Policies := [] |}.

(** The transaction context [tx interface{}]: the only caller of
    [proposeGroup] passes the channel group itself. *)
Definition Tx := ConfigGroup.

(** Handles of the collaborators' objects. *)
Definition ValueProposer := nat.
Definition PolicyProposer := nat.
Definition ValueDeserializer := nat.

(** [api.Transactional]: a value handler or a policy handler seen through
    its [PreCommit]/[CommitProposals]/[RollbackProposals] methods. *)
Inductive Transactional : Type :=
| ValueHandler (h : ValueProposer)
| PolicyHandler (p : PolicyProposer).

Definition Transactional_eqb (a b : Transactional) : bool :=
  match a, b with
  | ValueHandler h, ValueHandler h' => Nat.eqb h h'
  | PolicyHandler p, PolicyHandler p' => Nat.eqb p p'
  | _, _ => false
  end.

(** One call into a collaborator; fallible calls carry the error returned
    ([None] for [nil]). *)
Inductive Event : Type :=
| EvBeginValueProposals (h : ValueProposer) (tx : Tx) (groups : list string) (err : option error)
| EvBeginPolicyProposals (p : PolicyProposer) (tx : Tx) (groups : list string) (err : option error)
| EvDeserialize (d : ValueDeserializer) (key : string) (value : bytes) (err : option error)
| EvProposePolicy (p : PolicyProposer) (tx : Tx) (key : string) (policy : ConfigPolicy) (err : option error)
| EvPreCommit (t : Transactional) (tx : Tx) (err : option error)
| EvCommitProposals (t : Transactional) (tx : Tx)
| EvRollbackProposals (t : Transactional) (tx : Tx).

(** [configResult] *)
Inductive configResult : Type := mkConfigResult {
  tx : Tx;
  handler : Transactional;
  policyHandler : Transactional;
  subResults : list configResult
}.

(** [configManager]: the initializer's two top-level proposers and the
    channel id (used for logging only). *)
Record configManager := {
  channelID : string;
  initializer_ValueProposer : ValueProposer;
  initializer_PolicyProposer : PolicyProposer
}.

(** ** The calls of the cascades, as functions of the result tree *)

(** Post-order listing of a result tree: the sub-results in their stored
    order first, then the node's own calls. *)
Fixpoint postOrder (own : configResult -> list Event) (cr : configResult) : list Event :=
  flat_map (postOrder own) (subResults cr) ++ own cr.

Definition ownCommitCalls (cr : configResult) : list Event :=
  [EvCommitProposals (handler cr) (tx cr); EvCommitProposals (policyHandler cr) (tx cr)].

Definition ownRollbackCalls (cr : configResult) : list Event :=
  [EvRollbackProposals (handler cr) (tx cr); EvRollbackProposals (policyHandler cr) (tx cr)].

Definition ownPreCommitCall (cr : configResult) : list Event :=
  [EvPreCommit (handler cr) (tx cr) None].

Definition commitCalls : configResult -> list Event := postOrder ownCommitCalls.
Definition rollbackCalls : configResult -> list Event := postOrder ownRollbackCalls.
Definition preCommitCalls : configResult -> list Event := postOrder ownPreCommitCall.

(** The successful calls made for a node's own values and policies. *)
Definition valueCalls (d : ValueDeserializer) (values : list (string * ConfigValue)) : list Event :=
  map (fun kv => EvDeserialize d (fst kv) (Value (snd kv)) None) values.

Definition policyCalls (p : PolicyProposer) (x : Tx) (policies : list (string * ConfigPolicy))
  : list Event :=
  map (fun kp => EvProposePolicy p x (fst kp) (snd kp) None) policies.

(** ** Classes of events *)

Definition isCommit (e : Event) : bool :=
  match e with EvCommitProposals _ _ => true | _ => false end.

Definition isRollback (e : Event) : bool :=
  match e with EvRollbackProposals _ _ => true | _ => false end.

(** Calls that validate: value deserialization, policy proposal, PreCommit. *)
Definition isValidation (e : Event) : bool :=
  match e with
  | EvDeserialize _ _ _ _ | EvProposePolicy _ _ _ _ _ | EvPreCommit _ _ _ => true
  | _ => false
  end.

(** The context a call was given ([Deserialize] takes none). *)
Definition eventTx (e : Event) : option Tx :=
  match e with
  | EvBeginValueProposals _ x _ _ | EvBeginPolicyProposals _ x _ _
  | EvProposePolicy _ x _ _ _ | EvPreCommit _ x _
  | EvCommitProposals _ x | EvRollbackProposals _ x => Some x
  | EvDeserialize _ _ _ _ => None
  end.

Definition givenTx (x : Tx) (e : Event) : Prop :=
  match eventTx e with Some x' => x' = x | None => True end.

(** The error a call returned. *)
Definition eventError (e : Event) : option error :=
  match e with
  | EvBeginValueProposals _ _ _ err | EvBeginPolicyProposals _ _ _ err
  | EvDeserialize _ _ _ err | EvProposePolicy _ _ _ _ err | EvPreCommit _ _ err => err
  | EvCommitProposals _ _ | EvRollbackProposals _ _ => None
  end.

(** Every node of a result tree carries the context [x]. *)
Inductive allTx (x : Tx) : configResult -> Prop :=
| allTx_node h p subs :
    Forall (allTx x) subs -> allTx x (mkConfigResult x h p subs).

(** [result] after [rs] have been appended to its sub-results. *)
Definition withSubResults (result : configResult) (rs : list configResult) : configResult :=
  {| tx := tx result; handler := handler result; policyHandler := policyHandler result;
     subResults := subResults result ++ rs |}.

(** Some call of [t] returned the error [e]. *)
Definition raisedIn (e : error) (t : list Event) : Prop :=
  exists ev, In ev t /\ eventError ev = Some e.

(** ** Shapes and counts *)

(** The nesting of a tree, forgetting names, payloads and handlers. *)
Inductive shape : Type := Node (children : list shape).

Fixpoint shapeNodes (s : shape) : nat :=
  match s with Node children => S (list_sum (map shapeNodes children)) end.

Fixpoint groupShape (g : ConfigGroup) : shape :=
  Node (map (fun ng => groupShape (snd ng)) (Groups g)).

Fixpoint resultShape (cr : configResult) : shape :=
  Node (map resultShape (subResults cr)).

Definition isPreCommitOn (t : Transactional) (ev : Event) : bool :=
  match ev with
  | EvPreCommit t' _ _ => Transactional_eqb t' t
  | _ => false
  end.

(** Number of PreCommit calls made on [t] in a trace. *)
Definition preCommitsOn (t : Transactional) (tr : list Event) : nat :=
  len (filter (isPreCommitOn t) tr).

(** Number of nodes of a result tree whose value handler is [t]. *)
Fixpoint nodesWith (t : Transactional) (cr : configResult) : nat :=
  (if Transactional_eqb (handler cr) t then 1 else 0)
  + list_sum (map (nodesWith t) (subResults cr)).

(** One plus its depth, summed over the nodes whose value handler is [t];
    [depth] is the depth of the root of [cr]. *)
Fixpoint depthsPlusOne (depth : nat) (t : Transactional) (cr : configResult) : nat :=
  (if Transactional_eqb (handler cr) t then S depth else 0)
  + list_sum (map (depthsPlusOne (S depth) t) (subResults cr)).

(** ** Enumeration order *)

(** The same configuration tree with the sub-groups of some nodes listed in
    another order: the lists of sub-groups are permuted, at any depth. *)
Inductive sameTree : ConfigGroup -> ConfigGroup -> Prop :=
| sameTree_perm gs gs' vs ps :
    Permutation gs gs' -> sameTree (mkConfigGroup gs vs ps) (mkConfigGroup gs' vs ps)
| sameTree_child pre n c c' post vs ps :
    sameTree c c' ->
    sameTree (mkConfigGroup (pre ++ (n, c) :: post) vs ps)
             (mkConfigGroup (pre ++ (n, c') :: post) vs ps)
| sameTree_trans g1 g2 g3 :
    sameTree g1 g2 -> sameTree g2 g3 -> sameTree g1 g3.

(** Sub-group names are distinct at every node, as the keys of a Go map
    are. *)
Inductive distinctNames : ConfigGroup -> Prop :=
| distinctNames_node gs vs ps :
    NoDup (map fst gs) -> Forall (fun ng => distinctNames (snd ng)) gs ->
    distinctNames (mkConfigGroup gs vs ps).

(** The same result tree with the sub-results of some nodes listed in
    another order. *)
Inductive sameResult : configResult -> configResult -> Prop :=
| sameResult_perm x h p subs subs' :
    Permutation subs subs' -> sameResult (mkConfigResult x h p subs) (mkConfigResult x h p subs')
| sameResult_child x h p pre r r' post :
    sameResult r r' ->
    sameResult (mkConfigResult x h p (pre ++ r :: post)) (mkConfigResult x h p (pre ++ r' :: post))
| sameResult_trans r1 r2 r3 :
    sameResult r1 r2 -> sameResult r2 r3 -> sameResult r1 r3.

(** The handlers of a result tree. *)
Fixpoint handlersOf (cr : configResult) : list Transactional :=
  flat_map handlersOf (subResults cr) ++ [handler cr; policyHandler cr].

(** Places in the tree are paths of sub-group names; [within rho pi]: the
    place [pi] is [rho] or lies below it. *)
Definition within (rho pi : list string) : Prop := exists l, pi = rho ++ l.

(** The calls that propose a leaf: a value or a policy. *)
Definition isLeafCall (ev : Event) : bool :=
  match ev with
  | EvDeserialize _ _ _ _ | EvProposePolicy _ _ _ _ _ => true
  | _ => false
  end.

Definition leafCalls (t : list Event) : list Event := filter isLeafCall t.

Definition accepted (A : Type) (r : res A) : bool :=
  match r with Ok _ => true | Err _ => false end.

(** ** Further vocabulary for traces *)

(** The calls [made] are those of [listing] up to a PreCommit call, which
    returned [e] instead of succeeding; nothing of [listing] after that call
    was made. *)
Definition stoppedAt (listing made : list Event) (e : error) : Prop :=
  exists before t x rest,
    listing = before ++ EvPreCommit t x None :: rest /\
    made = before ++ [EvPreCommit t x (Some e)].

(** A call that went well: not a rollback, not a commit, no error returned. *)
Definition wentWell (ev : Event) : Prop :=
  isRollback ev = false /\ isCommit ev = false /\ eventError ev = None.

(** The method called. *)
Inductive Method : Type :=
| MBeginValueProposals | MBeginPolicyProposals | MDeserialize | MProposePolicy
| MPreCommit | MCommitProposals | MRollbackProposals.

Definition methodOf (ev : Event) : Method :=
  match ev with
  | EvBeginValueProposals _ _ _ _ => MBeginValueProposals
  | EvBeginPolicyProposals _ _ _ _ => MBeginPolicyProposals
  | EvDeserialize _ _ _ _ => MDeserialize
  | EvProposePolicy _ _ _ _ _ => MProposePolicy
  | EvPreCommit _ _ _ => MPreCommit
  | EvCommitProposals _ _ => MCommitProposals
  | EvRollbackProposals _ _ => MRollbackProposals
  end.

Definition Method_eqb (a b : Method) : bool :=
  match a, b with
  | MBeginValueProposals, MBeginValueProposals
  | MBeginPolicyProposals, MBeginPolicyProposals
  | MDeserialize, MDeserialize
  | MProposePolicy, MProposePolicy
  | MPreCommit, MPreCommit
  | MCommitProposals, MCommitProposals
  | MRollbackProposals, MRollbackProposals => true
  | _, _ => false
  end.

(** Number of calls of method [m] in a trace. *)
Definition callsOf (m : Method) (t : list Event) : nat :=
  len (filter (fun ev => Method_eqb (methodOf ev) m) t).

(** Sum of [own] over the nodes of a configuration tree. *)
Fixpoint overGroups (own : ConfigGroup -> nat) (g : ConfigGroup) : nat :=
  own g + list_sum (map (fun ng => overGroups own (snd ng)) (Groups g)).

(** The handler and context a CommitProposals or RollbackProposals call was
    made on. *)
Definition callTarget (ev : Event) : option (Transactional * Tx) :=
  match ev with
  | EvCommitProposals t x | EvRollbackProposals t x => Some (t, x)
  | _ => None
  end.

(** A call that is not PreCommit on a policy handler. *)
Definition notPolicyPreCommit (ev : Event) : Prop :=
  match ev with
  | EvPreCommit (PolicyHandler _) _ _ => False
  | _ => True
  end.

(** Every node of a result tree has a value handler in its [handler]
    field. *)
Inductive valueHandled : configResult -> Prop :=
| valueHandled_node x h p subs :
    Forall valueHandled subs -> valueHandled (mkConfigResult x (ValueHandler h) p subs).

(** The calls of method [m] that one node makes for itself in a successful
    proposal, PreCommit apart: one of each Begin call, one Deserialize per
    value, one ProposePolicy per policy, no commit and no rollback. *)
Definition ownCalls (m : Method) (g : ConfigGroup) : nat :=
  match m with
  | MBeginValueProposals | MBeginPolicyProposals => 1
  | MDeserialize => len (Values g)
  | MProposePolicy => len (Policies g)
  | MPreCommit | MCommitProposals | MRollbackProposals => 0
  end.

(** ** The proposals made *)

(** A proposal call as the configuration tree and the result determine it:
    the handler it is made on and its arguments.  The deserializer of a
    value is left out (the result does not record it), and so is the error
    returned. *)
Inductive Proposal : Type :=
| BeginValuesOn (h : Transactional) (x : Tx) (names : list string)
| BeginPoliciesOn (p : Transactional) (x : Tx) (names : list string)
| ValueOf (key : string) (value : bytes)
| PolicyOn (p : Transactional) (x : Tx) (key : string) (policy : ConfigPolicy).

Definition proposalOf (ev : Event) : list Proposal :=
  match ev with
  | EvBeginValueProposals h x names _ => [BeginValuesOn (ValueHandler h) x names]
  | EvBeginPolicyProposals p x names _ => [BeginPoliciesOn (PolicyHandler p) x names]
  | EvDeserialize _ key v _ => [ValueOf key v]
  | EvProposePolicy p x key pol _ => [PolicyOn (PolicyHandler p) x key pol]
  | EvPreCommit _ _ _ | EvCommitProposals _ _ | EvRollbackProposals _ _ => []
  end.

(** The proposal calls of a trace, in order. *)
Definition proposalsOf (t : list Event) : list Proposal := flat_map proposalOf t.

Section OverSubGroups.
Variable each : ConfigGroup -> configResult -> list Proposal.

(** The sub-groups, each with the sub-result at the same position. *)
Fixpoint overSubGroups (gs : list (string * ConfigGroup)) (rs : list configResult)
  : list Proposal :=
  match gs, rs with
  | (_, child) :: gs', r :: rs' => each child r ++ overSubGroups gs' rs'
  | _, _ => []
  end.
End OverSubGroups.

(** The proposals of a tree whose nodes have the handlers and the context
    recorded in the result [cr]: for each node its two Begin calls with the
    names of its sub-groups, then the proposals of its sub-groups, then one
    entry per value and one per policy of the node. *)
Fixpoint proposals (g : ConfigGroup) (cr : configResult) {struct g} : list Proposal :=
  [BeginValuesOn (handler cr) (tx cr) (map fst (Groups g));
   BeginPoliciesOn (policyHandler cr) (tx cr) (map fst (Groups g))]
    ++ overSubGroups proposals (Groups g) (subResults cr)
    ++ map (fun kv => ValueOf (fst kv) (Value (snd kv))) (Values g)
    ++ map (fun kp => PolicyOn (policyHandler cr) (tx cr) (fst kp) (snd kp)) (Policies g).

Section Configtx.

Variable World : Type.
(** [proto.Message] *)
Variable Msg : Type.

(** The methods of the collaborators. *)
Record Proposers := {
  BeginValueProposals :
    ValueProposer -> Tx -> list string -> World ->
    res (ValueDeserializer * list ValueProposer) * World;
  BeginPolicyProposals :
    PolicyProposer -> Tx -> list string -> World -> res (list PolicyProposer) * World;
  Deserialize : ValueDeserializer -> string -> bytes -> World -> res Msg * World;
  ProposePolicy : PolicyProposer -> Tx -> string -> ConfigPolicy -> World -> option error * World;
  PreCommit : Transactional -> Tx -> World -> option error * World;
  CommitProposals : Transactional -> Tx -> World -> World;
  RollbackProposals : Transactional -> Tx -> World -> World
}.

(** [configGroupWrapper] *)
Record configGroupWrapper := {
  wrapped : ConfigGroup;
  deserializedValues : list (string * Msg)
}.

Definition newConfigGroupWrapper (group : ConfigGroup) : configGroupWrapper :=
  {| wrapped := group; deserializedValues := [] |}.

(** [group.deserializedValues[key] = msg] *)
Definition setDeserialized (group : configGroupWrapper) (key : string) (msg : Msg)
  : configGroupWrapper :=
  {| wrapped := wrapped group;
     deserializedValues :=
       (key, msg) :: filter (fun kv => negb (String.eqb (fst kv) key)) (deserializedValues group) |}.

(** ** Computations: world passing with a call trace *)

Definition M (A : Type) : Type := World -> A * World * list Event.

Definition ret {A : Type} (a : A) : M A := fun w => (a, w, []).

Definition bind {A B : Type} (m : M A) (k : A -> M B) : M B :=
  fun w =>
    match m w with
    | (a, w1, t1) =>
        match k a w1 with
        | (b, w2, t2) => (b, w2, t1 ++ t2)
        end
    end.

Notation "x <- m ;; k" := (bind m (fun x => k))
  (at level 61, m at next level, right associativity).
Notation "m ;;; k" := (bind m (fun _ => k))
  (at level 61, right associativity).

Definition value {A : Type} (r : A * World * list Event) : A := fst (fst r).
Definition world {A : Type} (r : A * World * list Event) : World := snd (fst r).
Definition trace {A : Type} (r : A * World * list Event) : list Event := snd r.

Variable env : Proposers.

Definition callBeginValueProposals (h : ValueProposer) (tx : Tx) (groups : list string)
  : M (res (ValueDeserializer * list ValueProposer)) :=
  fun w =>
    match BeginValueProposals env h tx groups w with
    | (r, w') => (r, w', [EvBeginValueProposals h tx groups (errOf r)])
    end.

Definition callBeginPolicyProposals (p : PolicyProposer) (tx : Tx) (groups : list string)
  : M (res (list PolicyProposer)) :=
  fun w =>
    match BeginPolicyProposals env p tx groups w with
    | (r, w') => (r, w', [EvBeginPolicyProposals p tx groups (errOf r)])
    end.

Definition callDeserialize (d : ValueDeserializer) (key : string) (v : bytes) : M (res Msg) :=
  fun w =>
    match Deserialize env d key v w with
    | (r, w') => (r, w', [EvDeserialize d key v (errOf r)])
    end.

Definition callProposePolicy (p : PolicyProposer) (tx : Tx) (key : string) (pol : ConfigPolicy)
  : M (option error) :=
  fun w =>
    match ProposePolicy env p tx key pol w with
    | (r, w') => (r, w', [EvProposePolicy p tx key pol r])
    end.

Definition callPreCommit (t : Transactional) (tx : Tx) : M (option error) :=
  fun w =>
    match PreCommit env t tx w with
    | (r, w') => (r, w', [EvPreCommit t tx r])
    end.

Definition callCommitProposals (t : Transactional) (tx : Tx) : M unit :=
  fun w => (tt, CommitProposals env t tx w, [EvCommitProposals t tx]).

Definition callRollbackProposals (t : Transactional) (tx : Tx) : M unit :=
  fun w => (tt, RollbackProposals env t tx w, [EvRollbackProposals t tx]).

(** ** configResult.preCommit, commit, rollback *)

Section Cascade.
Variable A : Type.
Variable each : configResult -> M A.

(** [for _, subResult := range cr.subResults { subResult.f() }] *)
Fixpoint forSubResults (subs : list configResult) : M unit :=
  match subs with
  | [] => ret tt
  | subResult :: rest => each subResult ;;; forSubResults rest
  end.
End Cascade.

Section PreCommitCascade.
Variable each : configResult -> M (option error).

(** The loop of [preCommit]: stops at the first error. *)
Fixpoint preCommitSubResults (subs : list configResult) : M (option error) :=
  match subs with
  | [] => ret None
  | subResult :: rest =>
      err <- each subResult ;;
      match err with
      | Some e => ret (Some e)
      | None => preCommitSubResults rest
      end
  end.
End PreCommitCascade.

Fixpoint preCommit (cr : configResult) : M (option error) :=
  err <- preCommitSubResults preCommit (subResults cr) ;;
  match err with
  | Some e => ret (Some e)
  | None => callPreCommit (handler cr) (tx cr)
  end.

Fixpoint commit (cr : configResult) : M unit :=
  forSubResults commit (subResults cr) ;;;
  callCommitProposals (handler cr) (tx cr) ;;;
  callCommitProposals (policyHandler cr) (tx cr).

Fixpoint rollback (cr : configResult) : M unit :=
  forSubResults rollback (subResults cr) ;;;
  callRollbackProposals (handler cr) (tx cr) ;;;
  callRollbackProposals (policyHandler cr) (tx cr).

(** ** proposeGroup *)

(** [fmt.Errorf("Programming error, ... %d vs %d vs %d", ...)] *)
Definition dec (n : nat) : string := NilEmpty.string_of_uint (Nat.to_uint n).

Definition programmingError (nHandlers nGroups nPolicyHandlers : nat) : error :=
  ("Programming error, did not return as many handlers as groups "
     ++ dec nHandlers ++ " vs " ++ dec nGroups ++ " vs " ++ dec nPolicyHandlers)%string.

(** [result.subResults = append(result.subResults, subResult)] *)
Definition appendSubResult (result subResult : configResult) : configResult :=
  {| tx := tx result; handler := handler result; policyHandler := policyHandler result;
     subResults := subResults result ++ [subResult] |}.

(** Lines 118-125: the loop over [group.Values]. *)
Fixpoint proposeValues (valueDeserializer : ValueDeserializer) (result : configResult)
    (group : configGroupWrapper) (values : list (string * ConfigValue)) : M (option error) :=
  match values with
  | [] => ret None
  | (key, v) :: rest =>
      r <- callDeserialize valueDeserializer key (Value v) ;;
      match r with
      | Err e => rollback result ;;; ret (Some e)
      | Ok msg => proposeValues valueDeserializer result (setDeserialized group key msg) rest
      end
  end.

(** Lines 127-132: the loop over [group.Policies]. *)
Fixpoint proposePolicies (policyHandler : PolicyProposer) (tx : Tx) (result : configResult)
    (policies : list (string * ConfigPolicy)) : M (option error) :=
  match policies with
  | [] => ret None
  | (key, policy) :: rest =>
      err <- callProposePolicy policyHandler tx key policy ;;
      match err with
      | Some e => rollback result ;;; ret (Some e)
      | None => proposePolicies policyHandler tx result rest
      end
  end.

(** Lines 118-140: what follows the loop over the sub-groups. *)
Definition proposeOwn (tx : Tx) (group : ConfigGroup) (policyHandler : PolicyProposer)
    (valueDeserializer : ValueDeserializer) (result : configResult) : M (res configResult) :=
  err <- proposeValues valueDeserializer result (newConfigGroupWrapper group) (Values group) ;;
  match err with
  | Some e => ret (Err e)
  | None =>
      err <- proposePolicies policyHandler tx result (Policies group) ;;
      match err with
      | Some e => ret (Err e)
      | None =>
          err <- preCommit result ;;
          match err with
          | Some e => rollback result ;;; ret (Err e)
          | None => ret (Ok result)
          end
      end
  end.

Section SubGroups.
(** The recursive call [cm.proposeGroup(tx, path, child, h, p)]. *)
Variable recurse : string -> ConfigGroup -> ValueProposer -> PolicyProposer -> M (res configResult).
Variable name : string.

(** Lines 109-116: the loop over [subGroups].  The sub-group at index [i]
    is proposed with [subHandlers[i]] and [subPolicyHandlers[i]]; the two
    handler lists are walked along with the names.  The length check of
    line 98 makes the index always valid; an index out of range is a
    run-time panic in Go and is reported as an error here. *)
Fixpoint proposeSubGroups (groups : list (string * ConfigGroup))
    (subHandlers : list ValueProposer) (subPolicyHandlers : list PolicyProposer)
    (result : configResult) : M (res configResult) :=
  match groups with
  | [] => ret (Ok result)
  | (subGroup, child) :: rest =>
      match subHandlers, subPolicyHandlers with
      | h :: hs, p :: ps =>
          r <- recurse (name ++ "/" ++ subGroup)%string child h p ;;
          match r with
          | Err e => rollback result ;;; ret (Err e)
          | Ok subResult => proposeSubGroups rest hs ps (appendSubResult result subResult)
          end
      | _, _ => ret (Err "index out of range"%string)
      end
  end.
End SubGroups.

Fixpoint proposeGroup (tx : Tx) (name : string) (group : ConfigGroup)
    (handler : ValueProposer) (policyHandler : PolicyProposer) {struct group}
  : M (res configResult) :=
  let subGroups := map fst (Groups group) in
  r <- callBeginValueProposals handler tx subGroups ;;
  match r with
  | Err e => ret (Err e)
  | Ok (valueDeserializer, subHandlers) =>
      r <- callBeginPolicyProposals policyHandler tx subGroups ;;
      match r with
      | Err e => ret (Err e)
      | Ok subPolicyHandlers =>
          if negb (len subHandlers =? len subGroups)
             || negb (len subPolicyHandlers =? len subGroups)
          then ret (Err (programmingError (len subHandlers) (len subGroups)
                                          (len subPolicyHandlers)))
          else
            let result := {| tx := tx; handler := ValueHandler handler;
                             policyHandler := PolicyHandler policyHandler;
                             subResults := [] |} in
            r <- proposeSubGroups (proposeGroup tx) name (Groups group)
                   subHandlers subPolicyHandlers result ;;
            match r with
            | Err e => ret (Err e)
            | Ok result => proposeOwn tx group policyHandler valueDeserializer result
            end
      end
  end.

(** [RootGroupKey] is declared elsewhere in the package. *)
Variable RootGroupKey : string.

Definition helperGroup (channelGroup : ConfigGroup) : ConfigGroup :=
  {| Groups := [(RootGroupKey, channelGroup)];
     Values := Values NewConfigGroup;
     Policies := Policies NewConfigGroup |}.

Definition processConfig (cm : configManager) (channelGroup : ConfigGroup)
  : M (res configResult) :=
  r <- proposeGroup channelGroup "" (helperGroup channelGroup)
         (initializer_ValueProposer cm) (initializer_PolicyProposer cm) ;;
  match r with
  | Err e => ret (Err e)
  | Ok groupResult => ret (Ok groupResult)
  end.


(** The recursive calls made by the loop over the sub-groups, in order:
    [ChildRuns tx name gs hs ps w rs oe w' t] holds when the calls for the
    sub-groups [gs] with handlers [hs] and [ps], started in [w], returned the
    results [rs] for those that succeeded, stopped at the first failure [oe]
    (or went through all of [gs] when [oe] is [None]), ended in [w'] and made
    the calls [t].  [t] holds the calls of the recursive invocations only. *)
Inductive ChildRuns (tx : Tx) (name : string) :
  list (string * ConfigGroup) -> list ValueProposer -> list PolicyProposer -> World ->
  list configResult -> option error -> World -> list Event -> Prop :=
| ChildRuns_done hs ps w :
    ChildRuns tx name [] hs ps w [] None w []
| ChildRuns_ok subGroup child gs h hs p ps w r w1 t1 rs oe w2 t2 :
    proposeGroup tx (name ++ "/" ++ subGroup)%string child h p w = (Ok r, w1, t1) ->
    ChildRuns tx name gs hs ps w1 rs oe w2 t2 ->
    ChildRuns tx name ((subGroup, child) :: gs) (h :: hs) (p :: ps) w (r :: rs) oe w2 (t1 ++ t2)
| ChildRuns_fail subGroup child gs h hs p ps w e w1 t1 :
    proposeGroup tx (name ++ "/" ++ subGroup)%string child h p w = (Err e, w1, t1) ->
    ChildRuns tx name ((subGroup, child) :: gs) (h :: hs) (p :: ps) w [] (Some e) w1 t1.


(** The ways through one invocation of [proposeGroup]: the exits of lines
    90, 95, 99 and 113, and the continuation into lines 118-140. *)
Inductive ProposeCase (tx : Tx) (name : string) (group : ConfigGroup)
    (handler : ValueProposer) (policyHandler : PolicyProposer) (w : World)
  : res configResult -> World -> list Event -> Prop :=
| Case_beginValueFails e w1 :
    BeginValueProposals env handler tx (map fst (Groups group)) w = (Err e, w1) ->
    ProposeCase tx name group handler policyHandler w (Err e) w1
      [EvBeginValueProposals handler tx (map fst (Groups group)) (Some e)]
| Case_beginPolicyFails d hs w1 e w2 :
    BeginValueProposals env handler tx (map fst (Groups group)) w = (Ok (d, hs), w1) ->
    BeginPolicyProposals env policyHandler tx (map fst (Groups group)) w1 = (Err e, w2) ->
    ProposeCase tx name group handler policyHandler w (Err e) w2
      [EvBeginValueProposals handler tx (map fst (Groups group)) None;
       EvBeginPolicyProposals policyHandler tx (map fst (Groups group)) (Some e)]
| Case_mismatch d hs w1 ps w2 :
    BeginValueProposals env handler tx (map fst (Groups group)) w = (Ok (d, hs), w1) ->
    BeginPolicyProposals env policyHandler tx (map fst (Groups group)) w1 = (Ok ps, w2) ->
    len hs <> len (Groups group) \/ len ps <> len (Groups group) ->
    ProposeCase tx name group handler policyHandler w
      (Err (programmingError (len hs) (len (map fst (Groups group))) (len ps))) w2
      [EvBeginValueProposals handler tx (map fst (Groups group)) None;
       EvBeginPolicyProposals policyHandler tx (map fst (Groups group)) None]
| Case_childFails d hs w1 ps w2 rs e w3 tc :
    BeginValueProposals env handler tx (map fst (Groups group)) w = (Ok (d, hs), w1) ->
    BeginPolicyProposals env policyHandler tx (map fst (Groups group)) w1 = (Ok ps, w2) ->
    len hs = len (Groups group) -> len ps = len (Groups group) ->
    ChildRuns tx name (Groups group) hs ps w2 rs (Some e) w3 tc ->
    ProposeCase tx name group handler policyHandler w (Err e)
      (world (rollback
                (mkConfigResult tx (ValueHandler handler) (PolicyHandler policyHandler) rs) w3))
      ([EvBeginValueProposals handler tx (map fst (Groups group)) None;
        EvBeginPolicyProposals policyHandler tx (map fst (Groups group)) None]
         ++ tc
         ++ rollbackCalls
              (mkConfigResult tx (ValueHandler handler) (PolicyHandler policyHandler) rs))
| Case_children d hs w1 ps w2 rs w3 tc r w4 town :
    BeginValueProposals env handler tx (map fst (Groups group)) w = (Ok (d, hs), w1) ->
    BeginPolicyProposals env policyHandler tx (map fst (Groups group)) w1 = (Ok ps, w2) ->
    len hs = len (Groups group) -> len ps = len (Groups group) ->
    ChildRuns tx name (Groups group) hs ps w2 rs None w3 tc ->
    proposeOwn tx group policyHandler d
      (mkConfigResult tx (ValueHandler handler) (PolicyHandler policyHandler) rs) w3
      = (r, w4, town) ->
    ProposeCase tx name group handler policyHandler w r w4
      ([EvBeginValueProposals handler tx (map fst (Groups group)) None;
        EvBeginPolicyProposals policyHandler tx (map fst (Groups group)) None]
         ++ tc ++ town).

(** ** The steps that can fail after the length check *)

(** The Deserialize calls for [values], made one after the other from the
    world [w]: [Some w'] when they all succeed and leave the world [w'],
    [None] when one of them returns an error. *)
Fixpoint acceptValues (d : ValueDeserializer) (values : list (string * ConfigValue))
    (w : World) : option World :=
  match values with
  | [] => Some w
  | (key, v) :: rest =>
      match Deserialize env d key (Value v) w with
      | (Ok _, w1) => acceptValues d rest w1
      | (Err _, _) => None
      end
  end.

(** The same for the ProposePolicy calls for [policies]. *)
Fixpoint acceptPolicies (p : PolicyProposer) (tx : Tx) (policies : list (string * ConfigPolicy))
    (w : World) : option World :=
  match policies with
  | [] => Some w
  | (key, policy) :: rest =>
      match ProposePolicy env p tx key policy w with
      | (None, w1) => acceptPolicies p tx rest w1
      | (Some _, _) => None
      end
  end.

(** A step of lines 109-138 fails, in an invocation whose Begin calls
    returned the deserializer [d] and the handlers [hs] and [ps] and left the
    world [w2].  [LaterFailure tx name group handler policyHandler d hs ps w2
    rs tc body e wf]: the sub-results built when the step fails are [rs], the
    recursive invocations made the calls [tc], the node made the calls [body]
    for itself, the failing step returned [e] and left the world [wf].
    - [Fails_subGroup]: the recursive proposal of a sub-group returns [e],
      those before it having succeeded (line 111);
    - [Fails_value]: all sub-groups succeed, the values [done] are
      deserialized and [Deserialize] returns [e] for the next value
      (line 120);
    - [Fails_policy]: all sub-groups and values succeed, the policies [done]
      are accepted and [ProposePolicy] returns [e] for the next one
      (line 128);
    - [Fails_preCommit]: all sub-groups, values and policies succeed and the
      [preCommit] cascade of the result returns [e] (line 134). *)
Inductive LaterFailure (tx : Tx) (name : string) (group : ConfigGroup)
    (handler : ValueProposer) (policyHandler : PolicyProposer)
    (d : ValueDeserializer) (hs : list ValueProposer) (ps : list PolicyProposer) (w2 : World)
  : list configResult -> list Event -> list Event -> error -> World -> Prop :=
| Fails_subGroup rs e w3 tc :
    ChildRuns tx name (Groups group) hs ps w2 rs (Some e) w3 tc ->
    LaterFailure tx name group handler policyHandler d hs ps w2 rs tc [] e w3
| Fails_value rs w3 tc done key v rest w4 e w5 :
    ChildRuns tx name (Groups group) hs ps w2 rs None w3 tc ->
    Values group = done ++ (key, v) :: rest ->
    acceptValues d done w3 = Some w4 ->
    Deserialize env d key (Value v) w4 = (Err e, w5) ->
    LaterFailure tx name group handler policyHandler d hs ps w2 rs tc
      (valueCalls d done ++ [EvDeserialize d key (Value v) (Some e)]) e w5
| Fails_policy rs w3 tc w4 done key policy rest w5 e w6 :
    ChildRuns tx name (Groups group) hs ps w2 rs None w3 tc ->
    acceptValues d (Values group) w3 = Some w4 ->
    Policies group = done ++ (key, policy) :: rest ->
    acceptPolicies policyHandler tx done w4 = Some w5 ->
    ProposePolicy env policyHandler tx key policy w5 = (Some e, w6) ->
    LaterFailure tx name group handler policyHandler d hs ps w2 rs tc
      (valueCalls d (Values group) ++ policyCalls policyHandler tx done
         ++ [EvProposePolicy policyHandler tx key policy (Some e)]) e w6
| Fails_preCommit rs w3 tc w4 w5 e w6 tp :
    ChildRuns tx name (Groups group) hs ps w2 rs None w3 tc ->
    acceptValues d (Values group) w3 = Some w4 ->
    acceptPolicies policyHandler tx (Policies group) w4 = Some w5 ->
    preCommit (mkConfigResult tx (ValueHandler handler) (PolicyHandler policyHandler) rs) w5
      = (Some e, w6, tp) ->
    LaterFailure tx name group handler policyHandler d hs ps w2 rs tc
      (valueCalls d (Values group) ++ policyCalls policyHandler tx (Policies group) ++ tp) e w6.

(** The recursive calls of the loop over the sub-groups when the handlers of
    a sub-group are given by its name: the results of the sub-groups that
    succeeded, in order, and the error of the first that failed. *)
Fixpoint subRuns (tx : Tx) (name : string) (f : string -> ValueProposer)
    (fp : string -> PolicyProposer) (groups : list (string * ConfigGroup))
  : M (list configResult * option error) :=
  match groups with
  | [] => ret ([], None)
  | (subGroup, child) :: rest =>
      r <- proposeGroup tx (name ++ "/" ++ subGroup)%string child (f subGroup) (fp subGroup) ;;
      match r with
      | Err e => ret ([], Some e)
      | Ok subResult =>
          ro <- subRuns tx name f fp rest ;;
          ret (subResult :: fst ro, snd ro)
      end
  end.

End Configtx.

(** The calls of a [preCommit] cascade: validation calls only; the listing of
    the tree when all succeed, and the failing call otherwise. *)
Definition preCommitFacts (subs : list configResult) (calls : list Event)
    (World : Type) (o : option error * World * list Event) : Prop :=
  Forall (fun ev => isValidation ev = true) (trace o) /\
  (forall x, Forall (allTx x) subs -> Forall (givenTx x) (trace o)) /\
  match value o with
  | None => trace o = calls
  | Some e => raisedIn e (trace o)
  end.

(** What the steps of a node after its sub-groups do: on success the calls
    are [okCalls]; on failure they are validation calls, one of which
    returned the error, followed by the rollback of the result built so
    far. *)
Definition ownFacts (x : Tx) (result : configResult) (okCalls : list Event)
    (err : option error) (t : list Event) : Prop :=
  match err with
  | None => t = okCalls
  | Some e =>
      exists body, t = body ++ rollbackCalls result /\
        Forall (fun ev => isValidation ev = true) body /\
        (allTx x result -> Forall (givenTx x) body) /\
        raisedIn e body
  end.

(** No run calls CommitProposals; every call is given the context of the
    run; a result carries that context at every node; an error is the
    contract-violation message or was returned by one of the calls. *)
Definition runFacts (x : Tx) (r : res configResult) (t : list Event) : Prop :=
  Forall (fun ev => isCommit ev = false) t /\
  Forall (givenTx x) t /\
  (forall cr, r = Ok cr -> allTx x cr) /\
  (forall e, r = Err e -> raisedIn e t \/ exists a b c, e = programmingError a b c).

(** * Sample collaborators

    Proposers whose answers are read off a script, over a world that counts
    the calls made.  The handler of a sub-group is derived from the parent's
    handle and the sub-group's name. *)

Definition nameCode (name : string) : nat :=
  if String.eqb name "A" then 1
  else if String.eqb name "B" then 2
  else if String.eqb name "C" then 3
  else 0.

Definition handlerFor (parent : nat) (name : string) : nat := 10 * parent + nameCode name.

Record Script := {
  beginValueError : ValueProposer -> option error;
  beginValueDrop : ValueProposer -> nat;
  beginPolicyError : PolicyProposer -> option error;
  deserializeError : string -> option error;
  proposePolicyError : string -> option error;
  preCommitError : Transactional -> option error
}.

Definition scripted (s : Script) : Proposers nat bytes :=
  {| BeginValueProposals h _ names w :=
       (match beginValueError s h with
        | Some e => Err e
        | None => Ok (h, skipn (beginValueDrop s h) (map (handlerFor h) names))
        end, S w);
     BeginPolicyProposals p _ names w :=
       (match beginPolicyError s p with
        | Some e => Err e
        | None => Ok (map (handlerFor p) names)
        end, S w);
     Deserialize _ key v w :=
       (match deserializeError s key with Some e => Err e | None => Ok v end, S w);
     ProposePolicy _ _ key _ w := (proposePolicyError s key, S w);
     PreCommit t _ w := (preCommitError s t, S w);
     CommitProposals _ _ w := S w;
     RollbackProposals _ _ w := S w |}.

(** Every call succeeds. *)
Definition quiet : Script :=
  {| beginValueError := fun _ => None;
     beginValueDrop := fun _ => 0;
     beginPolicyError := fun _ => None;
     deserializeError := fun _ => None;
     proposePolicyError := fun _ => None;
     preCommitError := fun _ => None |}.

(** PreCommit fails on the value handler [h]. *)
Definition preCommitFailsOn (h : ValueProposer) : Script :=
  {| beginValueError := fun _ => None;
     beginValueDrop := fun _ => 0;
     beginPolicyError := fun _ => None;
     deserializeError := fun _ => None;
     proposePolicyError := fun _ => None;
     preCommitError := fun t =>
       if Transactional_eqb t (ValueHandler h) then Some "inconsistent"%string else None |}.

(** BeginValueProposals of [h] returns one handler too few. *)
Definition dropsOneOn (h : ValueProposer) : Script :=
  {| beginValueError := fun _ => None;
     beginValueDrop := fun h' => if Nat.eqb h' h then 1 else 0;
     beginPolicyError := fun _ => None;
     deserializeError := fun _ => None;
     proposePolicyError := fun _ => None;
     preCommitError := fun _ => None |}.

(** BeginValueProposals fails on the value handler [h]. *)
Definition beginValueFailsOn (h : ValueProposer) : Script :=
  {| beginValueError := fun h' => if Nat.eqb h' h then Some "boom"%string else None;
     beginValueDrop := fun _ => 0;
     beginPolicyError := fun _ => None;
     deserializeError := fun _ => None;
     proposePolicyError := fun _ => None;
     preCommitError := fun _ => None |}.

Definition leaf : ConfigGroup := NewConfigGroup.

Definition sampleValue : ConfigValue := {| Value := [Byte.x78] |}.
Definition samplePolicy : ConfigPolicy := {| Policy := [Byte.x79] |}.

(** A group with a value, a policy and the sub-groups A, B, C. *)
Definition threeSiblings : ConfigGroup :=
  {| Groups := [("A"%string, leaf); ("B"%string, leaf); ("C"%string, leaf)];
     Values := [("v"%string, sampleValue)];
     Policies := [("p"%string, samplePolicy)] |}.

Definition sampleManager : configManager :=
  {| channelID := "ch"; initializer_ValueProposer := 1; initializer_PolicyProposer := 1 |}.

(** ** The order of enumeration *)

(** Two answers of a Begin call, to the names [ns] and to the same names in
    the order [ns']: both are errors, or both return the same deserializer
    and, for each name, the same handler at the position of the name. *)
Definition beginValueAgree (ns ns' : list string)
    (r r' : res (ValueDeserializer * list ValueProposer)) : Prop :=
  match r, r' with
  | Ok (d, hs), Ok (d', hs') => d = d' /\ exists f, hs = map f ns /\ hs' = map f ns'
  | Err _, Err _ => True
  | _, _ => False
  end.

Definition beginPolicyAgree (ns ns' : list string) (r r' : res (list PolicyProposer)) : Prop :=
  match r, r' with
  | Ok ps, Ok ps' => exists f, ps = map f ns /\ ps' = map f ns'
  | Err _, Err _ => True
  | _, _ => False
  end.

(** ** Proposers that keep their state per node

    Where the proposers keep their state: the world holds a state for every
    place of the tree, and every handler and deserializer has a place. *)
Record Layout (World : Type) : Type := {
  State : Type;
  stateAt : list string -> World -> State;
  placeOf : Transactional -> list string;
  placeOfDeserializer : ValueDeserializer -> list string
}.

(** A call reads and changes the state of one place only: its answer and the
    new state of the place depend on the state of the place alone, and the
    state of every other place is left as it is. *)
Definition onlyAt (World : Type) (L : Layout World) (place : list string) (R : Type)
    (call : World -> R * World) : Prop :=
  (forall w w',
      stateAt L place w = stateAt L place w' ->
      fst (call w) = fst (call w') /\
      stateAt L place (snd (call w)) = stateAt L place (snd (call w'))) /\
  (forall w place', place' <> place -> stateAt L place' (snd (call w)) = stateAt L place' w).

(** Every call made by [processConfig] works on the place of the object it
    is made on. *)
Definition PerNodeState (World Msg : Type) (env : Proposers World Msg) (L : Layout World)
  : Prop :=
  (forall h x ns, onlyAt L (placeOf L (ValueHandler h)) (BeginValueProposals env h x ns)) /\
  (forall p x ns, onlyAt L (placeOf L (PolicyHandler p)) (BeginPolicyProposals env p x ns)) /\
  (forall d k v, onlyAt L (placeOfDeserializer L d) (Deserialize env d k v)) /\
  (forall p x k pol, onlyAt L (placeOf L (PolicyHandler p)) (ProposePolicy env p x k pol)) /\
  (forall t x, onlyAt L (placeOf L t) (PreCommit env t x)) /\
  (forall t x, onlyAt L (placeOf L t) (fun w => (tt, RollbackProposals env t x w))).

(** The Begin calls answer by name.  Given the same names in another order
    and the same state of their place, they fail alike or return the same
    deserializer and, for each name, the same handler at the position of the
    name, and they leave the same state.  The deserializer has the place of
    the handler, and the handler returned for a name has its place right
    below, under that name. *)
Definition ByName (World Msg : Type) (env : Proposers World Msg) (L : Layout World) : Prop :=
  (forall h x ns ns' w w',
      Permutation ns ns' ->
      stateAt L (placeOf L (ValueHandler h)) w = stateAt L (placeOf L (ValueHandler h)) w' ->
      beginValueAgree ns ns' (fst (BeginValueProposals env h x ns w))
                             (fst (BeginValueProposals env h x ns' w')) /\
      stateAt L (placeOf L (ValueHandler h)) (snd (BeginValueProposals env h x ns w))
      = stateAt L (placeOf L (ValueHandler h)) (snd (BeginValueProposals env h x ns' w'))) /\
  (forall p x ns ns' w w',
      Permutation ns ns' ->
      stateAt L (placeOf L (PolicyHandler p)) w = stateAt L (placeOf L (PolicyHandler p)) w' ->
      beginPolicyAgree ns ns' (fst (BeginPolicyProposals env p x ns w))
                              (fst (BeginPolicyProposals env p x ns' w')) /\
      stateAt L (placeOf L (PolicyHandler p)) (snd (BeginPolicyProposals env p x ns w))
      = stateAt L (placeOf L (PolicyHandler p)) (snd (BeginPolicyProposals env p x ns' w'))) /\
  (forall h x ns w d hs,
      fst (BeginValueProposals env h x ns w) = Ok (d, hs) ->
      placeOfDeserializer L d = placeOf L (ValueHandler h) /\
      Forall2 (fun n h' => placeOf L (ValueHandler h') = placeOf L (ValueHandler h) ++ [n])
        ns hs) /\
  (forall p x ns w ps,
      fst (BeginPolicyProposals env p x ns w) = Ok ps ->
      Forall2 (fun n p' => placeOf L (PolicyHandler p') = placeOf L (PolicyHandler p) ++ [n])
        ns ps).

(** Two worlds hold the same state at [rho] and below. *)
Definition agreeIn (World : Type) (L : Layout World) (rho : list string) (w w' : World) : Prop :=
  forall pi, within rho pi -> stateAt L pi w = stateAt L pi w'.

(** A computation that works at [rho] and below: started in two worlds that
    agree there, it returns the same value, makes the same calls and ends in
    worlds that agree there; and it leaves the state of every other place as
    it is. *)
Definition LocalTo (World : Type) (L : Layout World) (rho : list string) (A : Type)
    (m : M World A) : Prop :=
  (forall w w',
      agreeIn L rho w w' ->
      value (m w) = value (m w') /\ trace (m w) = trace (m w') /\
      agreeIn L rho (world (m w)) (world (m w'))) /\
  (forall w pi, ~ within rho pi -> stateAt L pi (world (m w)) = stateAt L pi w).

(** Every handler of a result tree has its place at [rho] or below. *)
Definition insideResult (World : Type) (L : Layout World) (rho : list string)
    (cr : configResult) : Prop :=
  Forall (fun t => within rho (placeOf L t)) (handlersOf cr).

(** A result tree laid out as the tree of places: the handlers of a node
    have the place of the node, and its sub-results are laid out at places
    right below it, no two at the same place. *)
Inductive scopedAt (World : Type) (L : Layout World) : list string -> configResult -> Prop :=
| scopedAt_node rho x h p subs :
    placeOf L h = rho -> placeOf L p = rho ->
    NoDup (map (fun r => placeOf L (handler r)) subs) ->
    Forall (fun r => exists n, scopedAt L (rho ++ [n]) r) subs ->
    scopedAt L rho (mkConfigResult x h p subs).

(** The handlers that [f] and [fp] give to the sub-groups have their places
    right below [rho], under the sub-group's name. *)
Definition placedBelow (World : Type) (L : Layout World) (rho : list string)
    (f : string -> ValueProposer) (fp : string -> PolicyProposer)
    (groups : list (string * ConfigGroup)) : Prop :=
  Forall (fun ng => placeOf L (ValueHandler (f (fst ng))) = rho ++ [fst ng] /\
                    placeOf L (PolicyHandler (fp (fst ng))) = rho ++ [fst ng]) groups.

(** Two [preCommit] cascades that pass or fail together and, when they pass,
    end in worlds that agree at [rho] and below. *)
Definition pcSim (World : Type) (L : Layout World) (rho : list string)
    (o o' : option error * World * list Event) : Prop :=
  (value o = None <-> value o' = None) /\
  (value o = None -> agreeIn L rho (world o) (world o')).

(** Two runs of the loop over the sub-groups that succeed or fail together
    and, when they succeed, return results related by [RL], propose the same
    leaves up to order and end in worlds that agree at [rho] and below. *)
Definition crSim (World : Type) (L : Layout World) (rho : list string)
    (RL : list configResult -> list configResult -> Prop)
    (o o' : (list configResult * option error) * World * list Event) : Prop :=
  (snd (value o) = None <-> snd (value o') = None) /\
  (snd (value o) = None ->
   RL (fst (value o)) (fst (value o')) /\
   Permutation (leafCalls (trace o)) (leafCalls (trace o')) /\
   agreeIn L rho (world o) (world o')).

(** The same for two runs of [proposeGroup]. *)
Definition grSim (World : Type) (L : Layout World) (rho : list string)
    (o o' : res configResult * World * list Event) : Prop :=
  match value o, value o' with
  | Ok r, Ok r' =>
      sameResult r r' /\
      Permutation (leafCalls (trace o)) (leafCalls (trace o')) /\
      agreeIn L rho (world o) (world o')
  | Err _, Err _ => True
  | _, _ => False
  end.

(** Proposers with a shared state: the world records whether the handler of
    sub-group A (handle 101) has begun, and the handler of sub-group B
    (handle 102) refuses to begin after it. *)
Definition conflicting : Proposers bool bytes :=
  {| BeginValueProposals h _ names w :=
       (if Nat.eqb h 102 && w then Err "conflict"%string
        else Ok (h, map (handlerFor h) names),
        if Nat.eqb h 101 then true else w);
     BeginPolicyProposals p _ names w := (Ok (map (handlerFor p) names), w);
     Deserialize _ _ v w := (Ok v, w);
     ProposePolicy _ _ _ _ w := (None, w);
     PreCommit _ _ w := (None, w);
     CommitProposals _ _ w := w;
     RollbackProposals _ _ w := w |}.

Definition siblingsAB : ConfigGroup :=
  {| Groups := [("A"%string, leaf); ("B"%string, leaf)]; Values := []; Policies := [] |}.

Definition siblingsBA : ConfigGroup :=
  {| Groups := [("B"%string, leaf); ("A"%string, leaf)]; Values := []; Policies := [] |}.

(** [threeSiblings] with its sub-groups listed as B, A, C. *)
Definition threeSiblingsBAC : ConfigGroup :=
  {| Groups := [("B"%string, leaf); ("A"%string, leaf); ("C"%string, leaf)];
     Values := [("v"%string, sampleValue)];
     Policies := [("p"%string, samplePolicy)] |}.

(** BeginPolicyProposals fails on the policy handler [p]. *)
Definition beginPolicyFailsOn (p : PolicyProposer) : Script :=
  {| beginValueError := fun _ => None;
     beginValueDrop := fun _ => 0;
     beginPolicyError := fun p' => if Nat.eqb p' p then Some "no policy"%string else None;
     deserializeError := fun _ => None;
     proposePolicyError := fun _ => None;
     preCommitError := fun _ => None |}.

(** The result of proposing [threeSiblings] with the handlers 7 and 7 and
    the context [leaf]. *)
Definition threeSiblingsResult : configResult :=
  mkConfigResult leaf (ValueHandler 7) (PolicyHandler 7)
    [mkConfigResult leaf (ValueHandler 71) (PolicyHandler 71) [];
     mkConfigResult leaf (ValueHandler 72) (PolicyHandler 72) [];
     mkConfigResult leaf (ValueHandler 73) (PolicyHandler 73) []].

(** The result of [processConfig] on [leaf] with [sampleManager]. *)
Definition leafResult : configResult :=
  mkConfigResult leaf (ValueHandler 1) (PolicyHandler 1)
    [mkConfigResult leaf (ValueHandler 10) (PolicyHandler 10) []].

(** Deserialize fails for the key [key]. *)
Definition deserializeFailsOn (key : string) : Script :=
  {| beginValueError := fun _ => None;
     beginValueDrop := fun _ => 0;
     beginPolicyError := fun _ => None;
     deserializeError := fun k => if String.eqb k key then Some "unreadable"%string else None;
     proposePolicyError := fun _ => None;
     preCommitError := fun _ => None |}.

(** ProposePolicy fails for the key [key]. *)
Definition proposePolicyFailsOn (key : string) : Script :=
  {| beginValueError := fun _ => None;
     beginValueDrop := fun _ => 0;
     beginPolicyError := fun _ => None;
     deserializeError := fun _ => None;
     proposePolicyError := fun k => if String.eqb k key then Some "refused"%string else None;
     preCommitError := fun _ => None |}.

(** A group with the sub-group A, the values u and v and the policies p
    and q. *)
Definition sampleNode : ConfigGroup :=
  {| Groups := [("A"%string, leaf)];
     Values := [("u"%string, sampleValue); ("v"%string, sampleValue)];
     Policies := [("p"%string, samplePolicy); ("q"%string, samplePolicy)] |}.

(** The result and the calls of proposing the sub-group A of [sampleNode]
    with the handlers 71 and 71, when every call succeeds. *)
Definition resultA : configResult :=
  mkConfigResult leaf (ValueHandler 71) (PolicyHandler 71) [].

Definition callsA : list Event :=
  [EvBeginValueProposals 71 leaf [] None; EvBeginPolicyProposals 71 leaf [] None;
   EvPreCommit (ValueHandler 71) leaf None].

(** ** Sample proposers with a state per node

    The world counts, for every place of the tree, the values deserialized
    there since the last commit or rollback; PreCommit refuses a node with
    more than two values.  The handlers are those of [handlerFor]; the
    initializer's proposers (handle 1) know the sub-group "Channel", the
    channel's handlers (handle 10) know the sub-groups A, B and C, and a Begin
    call for a sub-group that is not known fails. *)

Definition placeOfId (h : nat) : list string :=
  if h =? 10 then ["Channel"%string]
  else if h =? 101 then ["Channel"%string; "A"%string]
  else if h =? 102 then ["Channel"%string; "B"%string]
  else if h =? 103 then ["Channel"%string; "C"%string]
  else [].

Definition knownSubGroups (h : nat) : list string :=
  if h =? 1 then ["Channel"%string]
  else if h =? 10 then ["A"%string; "B"%string; "C"%string]
  else [].

Definition knownNames (h : nat) (names : list string) : bool :=
  forallb (fun n => existsb (String.eqb n) (knownSubGroups h)) names.

Definition handleOf (t : Transactional) : nat :=
  match t with ValueHandler h => h | PolicyHandler p => p end.

Definition bump (place : list string) (w : list string -> nat) : list string -> nat :=
  fun pi => if list_eq_dec string_dec pi place then S (w pi) else w pi.

Definition reset (place : list string) (w : list string -> nat) : list string -> nat :=
  fun pi => if list_eq_dec string_dec pi place then 0 else w pi.

Definition perNode : Proposers (list string -> nat) bytes :=
  {| BeginValueProposals h _ names w :=
       (if knownNames h names then Ok (h, map (handlerFor h) names)
        else Err "unknown group"%string, w);
     BeginPolicyProposals p _ names w :=
       (if knownNames p names then Ok (map (handlerFor p) names)
        else Err "unknown group"%string, w);
     Deserialize d _ v w := (Ok v, bump (placeOfId d) w);
     ProposePolicy _ _ _ _ w := (None, w);
     PreCommit t _ w :=
       (if 2 <? w (placeOfId (handleOf t)) then Some "too many values"%string else None, w);
     CommitProposals t _ w := reset (placeOfId (handleOf t)) w;
     RollbackProposals t _ w := reset (placeOfId (handleOf t)) w |}.

Definition perNodeLayout : Layout (list string -> nat) :=
  {| State := nat;
     stateAt := fun pi w => w pi;
     placeOf := fun t => placeOfId (handleOf t);
     placeOfDeserializer := placeOfId |}.

(** Nothing counted yet. *)
Definition freshWorld : list string -> nat := fun _ => 0.

Definition groupA : ConfigGroup :=
  {| Groups := []; Values := [("a"%string, sampleValue)];
     Policies := [("p"%string, samplePolicy)] |}.

Definition groupB : ConfigGroup :=
  {| Groups := [];
     Values := [("b1"%string, sampleValue); ("b2"%string, sampleValue)];
     Policies := [] |}.

(** A channel group whose sub-groups A and B have values and policies of
    their own, enumerated as A, B and as B, A. *)
Definition channelAB : ConfigGroup :=
  {| Groups := [("A"%string, groupA); ("B"%string, groupB)];
     Values := [("v"%string, sampleValue)];
     Policies := [("q"%string, samplePolicy)] |}.

Definition channelBA : ConfigGroup :=
  {| Groups := [("B"%string, groupB); ("A"%string, groupA)];
     Values := [("v"%string, sampleValue)];
     Policies := [("q"%string, samplePolicy)] |}.

(** * Properties *)

Section Properties.

Variable World : Type.
Variable Msg : Type.
Variable env : Proposers World Msg.
Variable RootGroupKey : string.

(** ** Tools *)

Lemma bind_run (A B : Type) (m : M World A) (k : A -> M World B) w a w1 t1 :
  m w = (a, w1, t1) ->
  bind m k w = (value (k a w1), world (k a w1), t1 ++ trace (k a w1)).
Proof.
  intros E. unfold bind. rewrite E.
  destruct (k a w1) as [[b w2] t2]. reflexivity.
Qed.

Lemma bind_inv (A B : Type) (m : M World A) (k : A -> M World B) w b w2 t :
  bind m k w = (b, w2, t) ->
  exists a w1 t1 t2, m w = (a, w1, t1) /\ k a w1 = (b, w2, t2) /\ t = t1 ++ t2.
Proof.
  unfold bind. destruct (m w) as [[a w1] t1].
  destruct (k a w1) as [[b' w2'] t2] eqn:E. intros H. inversion H; subst.
  exists a, w1, t1, t2. auto.
Qed.

Lemma run_eta (A : Type) (r : A * World * list Event) :
  r = (value r, world r, trace r).
Proof. destruct r as [[a w] t]. reflexivity. Qed.

(** Induction on result trees and on configuration trees, with the
    property available for every child. *)
Lemma configResult_tree_ind (P : configResult -> Prop) :
  (forall x h p subs, Forall P subs -> P (mkConfigResult x h p subs)) ->
  forall cr, P cr.
Proof.
  intros step. fix IH 1. intros [x h p subs]. apply step.
  induction subs as [|s subs IHsubs]; constructor; [apply IH | exact IHsubs].
Qed.

Lemma ConfigGroup_tree_ind (P : ConfigGroup -> Prop) :
  (forall gs vs ps, Forall (fun ng => P (snd ng)) gs -> P (mkConfigGroup gs vs ps)) ->
  forall g, P g.
Proof.
  intros step. fix IH 1. intros [gs vs ps]. apply step.
  induction gs as [|[n g] gs IHgs]; constructor; [apply IH | exact IHgs].
Qed.

Lemma value_bind (A B : Type) (m : M World A) (k : A -> M World B) w :
  value (bind m k w) = value (k (value (m w)) (world (m w))).
Proof.
  unfold bind, value, world, trace. destruct (m w) as [[a w1] t1]. simpl.
  destruct (k a w1) as [[b w2] t2]. reflexivity.
Qed.

Lemma world_bind (A B : Type) (m : M World A) (k : A -> M World B) w :
  world (bind m k w) = world (k (value (m w)) (world (m w))).
Proof.
  unfold bind, value, world, trace. destruct (m w) as [[a w1] t1]. simpl.
  destruct (k a w1) as [[b w2] t2]. reflexivity.
Qed.

Lemma trace_bind (A B : Type) (m : M World A) (k : A -> M World B) w :
  trace (bind m k w) = trace (m w) ++ trace (k (value (m w)) (world (m w))).
Proof.
  unfold bind, value, world, trace. destruct (m w) as [[a w1] t1]. simpl.
  destruct (k a w1) as [[b w2] t2]. reflexivity.
Qed.

(** ** The cascades make exactly the calls of their listings *)

Lemma forSubResults_trace (A : Type) (each : configResult -> M World A)
    (calls : configResult -> list Event) subs :
  Forall (fun s => forall w, trace (each s w) = calls s) subs ->
  forall w, trace (forSubResults each subs w) = flat_map calls subs.
Proof.
  induction 1 as [|s subs Hs _ IH]; intros w; simpl.
  - reflexivity.
  - rewrite trace_bind, Hs, IH. reflexivity.
Qed.

Lemma rollback_trace cr : forall w, trace (rollback env cr w) = rollbackCalls cr.
Proof.
  induction cr as [x h p subs IH] using configResult_tree_ind. intros w.
  cbn [rollback subResults handler policyHandler tx].
  rewrite trace_bind, (forSubResults_trace _ rollbackCalls IH), trace_bind.
  reflexivity.
Qed.

Lemma commit_trace cr : forall w, trace (commit env cr w) = commitCalls cr.
Proof.
  induction cr as [x h p subs IH] using configResult_tree_ind. intros w.
  cbn [commit subResults handler policyHandler tx].
  rewrite trace_bind, (forSubResults_trace _ commitCalls IH), trace_bind.
  reflexivity.
Qed.

Lemma rollback_run cr w :
  rollback env cr w = (tt, world (rollback env cr w), rollbackCalls cr).
Proof.
  rewrite (run_eta (rollback env cr w)) at 1. rewrite rollback_trace.
  destruct (value (rollback env cr w)). reflexivity.
Qed.

Lemma preCommitSubResults_spec subs :
  Forall (fun s => forall w, preCommitFacts [s] (preCommitCalls s) (preCommit env s w)) subs ->
  forall w, preCommitFacts subs (flat_map preCommitCalls subs)
              (preCommitSubResults (preCommit env) subs w).
Proof.
  induction 1 as [|s subs Hs _ IH]; intros w.
  - repeat split; simpl; auto.
  - simpl preCommitSubResults. unfold preCommitFacts.
    rewrite trace_bind, value_bind.
    destruct (Hs w) as (V & T & E).
    destruct (value (preCommit env s w)) as [e|].
    + simpl. rewrite app_nil_r. repeat split; auto.
      intros x Hx. apply T. inversion Hx; auto.
    + destruct (IH (world (preCommit env s w))) as (V' & T' & E').
      repeat split.
      * apply Forall_app; auto.
      * intros x Hx. inversion Hx; subst. apply Forall_app; auto.
      * destruct (value (preCommitSubResults _ subs _)) as [e|].
        -- destruct E' as (ev & I & Ee). exists ev. split; auto.
           apply in_or_app; auto.
        -- simpl. rewrite E, E'. reflexivity.
Qed.

Lemma preCommit_spec cr :
  forall w, preCommitFacts [cr] (preCommitCalls cr) (preCommit env cr w).
Proof.
  induction cr as [x h p subs IH] using configResult_tree_ind. intros w.
  cbn [preCommit subResults handler tx]. unfold preCommitFacts.
  rewrite trace_bind, value_bind.
  destruct (preCommitSubResults_spec IH w) as (V & T & E).
  destruct (value (preCommitSubResults _ subs w)) as [e|].
  - simpl. rewrite app_nil_r. repeat split; auto.
    intros y Hy. apply T. inversion Hy as [|? ? Hn _]; subst. inversion Hn; auto.
  - unfold callPreCommit.
    destruct (PreCommit env h x (world (preCommitSubResults _ subs w))) as [r w1].
    simpl. repeat split.
    + apply Forall_app; split; auto.
    + intros y Hy. inversion Hy as [|? ? Hn _]; subst. inversion Hn; subst.
      apply Forall_app; split; auto. constructor; [reflexivity | constructor].
    + destruct r as [e|].
      * exists (EvPreCommit h x (Some e)). split; [|reflexivity].
        apply in_or_app. right. left. reflexivity.
      * rewrite E. reflexivity.
Qed.

(** ** The loop over the sub-groups *)

Lemma withSubResults_nil result : withSubResults result [] = result.
Proof. destruct result. unfold withSubResults. simpl. rewrite app_nil_r. reflexivity. Qed.

Lemma withSubResults_append result r rs :
  withSubResults (appendSubResult result r) rs = withSubResults result (r :: rs).
Proof. unfold withSubResults, appendSubResult. simpl. rewrite <- app_assoc. reflexivity. Qed.

Lemma proposeSubGroups_spec x name gs :
  forall hs ps result w,
    len hs = len gs -> len ps = len gs ->
    exists rs oe w' tc,
      ChildRuns env x name gs hs ps w rs oe w' tc /\
      proposeSubGroups env (proposeGroup env x) name gs hs ps result w =
        match oe with
        | None => (Ok (withSubResults result rs), w', tc)
        | Some e => (Err e, world (rollback env (withSubResults result rs) w'),
                     tc ++ rollbackCalls (withSubResults result rs))
        end.
Proof.
  induction gs as [|[n g] gs IH]; intros hs ps result w Hh Hp.
  - exists [], None, w, []. split; [constructor|].
    rewrite withSubResults_nil. reflexivity.
  - destruct hs as [|h hs]; [discriminate|]. destruct ps as [|p ps]; [discriminate|].
    simpl in Hh, Hp. cbn [proposeSubGroups].
    destruct (proposeGroup env x (name ++ "/" ++ n)%string g h p w) as [[[r|e] w1] t1] eqn:E.
    + destruct (IH hs ps (appendSubResult result r) w1) as (rs & oe & w' & tc & HC & HE);
        [lia | lia |].
      exists (r :: rs), oe, w', (t1 ++ tc). split; [econstructor; eassumption|].
      rewrite (bind_run _ _ _ E). cbn beta iota. rewrite HE, withSubResults_append.
      destruct oe; simpl; [rewrite app_assoc|]; reflexivity.
    + exists [], (Some e), w1, t1. split; [constructor; assumption|].
      rewrite (bind_run _ _ _ E). cbn beta iota.
      rewrite withSubResults_nil.
      rewrite (bind_run _ _ _ (rollback_run result w1)). simpl. rewrite app_nil_r. reflexivity.
Qed.

(** ** The node's own values, policies and PreCommit *)

Lemma callDeserialize_inv d key v w r w1 t :
  callDeserialize env d key v w = (r, w1, t) -> t = [EvDeserialize d key v (errOf r)].
Proof.
  unfold callDeserialize. destruct (Deserialize env d key v w). intros H.
  inversion H; subst. reflexivity.
Qed.

Lemma callProposePolicy_inv p x key pol w r w1 t :
  callProposePolicy env p x key pol w = (r, w1, t) -> t = [EvProposePolicy p x key pol r].
Proof.
  unfold callProposePolicy. destruct (ProposePolicy env p x key pol w). intros H.
  inversion H; subst. reflexivity.
Qed.

Lemma rollback_then_ret (A : Type) result (a : A) w r w1 t :
  bind (rollback env result) (fun _ => ret (World := World) a) w = (r, w1, t) ->
  r = a /\ t = rollbackCalls result.
Proof.
  rewrite (bind_run _ _ _ (rollback_run result w)). simpl. rewrite app_nil_r.
  intros H. inversion H; subst. auto.
Qed.

Lemma proposeValues_spec d result x values :
  forall gw w err w' t,
    proposeValues env d result gw values w = (err, w', t) ->
    ownFacts x result (valueCalls d values) err t.
Proof.
  induction values as [|[key v] values IH]; intros gw w err w' t H.
  - inversion H; subst. reflexivity.
  - cbn [proposeValues] in H.
    apply bind_inv in H as (r & w1 & t1 & t2 & H1 & H2 & ->).
    apply callDeserialize_inv in H1 as ->. destruct r as [msg|e]; cbn [errOf].
    + apply IH in H2. destruct err as [e|]; simpl in *.
      * destruct H2 as (body & -> & V & G & ev & I & E).
        exists (EvDeserialize d key (Value v) None :: body). split; [reflexivity|].
        split; [constructor; auto|]. split.
        -- intros H. constructor; [exact Logic.I | auto].
        -- exists ev. split; [right; exact I | exact E].
      * rewrite H2. reflexivity.
    + apply rollback_then_ret in H2 as [-> ->].
      exists [EvDeserialize d key (Value v) (Some e)].
      split; [reflexivity|]. split; [repeat constructor|]. split.
      * intros _. repeat constructor.
      * exists (EvDeserialize d key (Value v) (Some e)). split; [left|]; reflexivity.
Qed.

Lemma proposePolicies_spec p x result policies :
  forall w err w' t,
    proposePolicies env p x result policies w = (err, w', t) ->
    ownFacts x result (policyCalls p x policies) err t.
Proof.
  induction policies as [|[key pol] policies IH]; intros w err w' t H.
  - inversion H; subst. reflexivity.
  - cbn [proposePolicies] in H.
    apply bind_inv in H as (r & w1 & t1 & t2 & H1 & H2 & ->).
    apply callProposePolicy_inv in H1 as ->. destruct r as [e|].
    + apply rollback_then_ret in H2 as [-> ->].
      exists [EvProposePolicy p x key pol (Some e)].
      split; [reflexivity|]. split; [repeat constructor|]. split.
      * intros _. repeat constructor.
      * exists (EvProposePolicy p x key pol (Some e)). split; [left|]; reflexivity.
    + apply IH in H2. destruct err as [e|]; simpl in *.
      * destruct H2 as (body & -> & V & G & ev & I & E).
        exists (EvProposePolicy p x key pol None :: body). split; [reflexivity|].
        split; [constructor; auto|]. split.
        -- intros H. constructor; [reflexivity | auto].
        -- exists ev. split; [right; exact I | exact E].
      * rewrite H2. reflexivity.
Qed.

Lemma ownFacts_prefix x result pre okCalls err t :
  Forall (fun ev => isValidation ev = true) pre -> Forall (givenTx x) pre ->
  ownFacts x result okCalls err t ->
  ownFacts x result (pre ++ okCalls) err (pre ++ t).
Proof.
  intros V G H. destruct err as [e|]; simpl in *.
  - destruct H as (body & -> & V' & G' & ev & I & E).
    exists (pre ++ body). rewrite app_assoc. split; [reflexivity|].
    split; [apply Forall_app; auto|]. split.
    + intros A. apply Forall_app; auto.
    + exists ev. split; [apply in_or_app; auto | exact E].
  - rewrite H. reflexivity.
Qed.

Lemma valueCalls_validation d values :
  Forall (fun ev => isValidation ev = true) (valueCalls d values).
Proof. apply Forall_forall. intros ev I. apply in_map_iff in I as (kv & <- & _). reflexivity. Qed.

Lemma valueCalls_givenTx x d values : Forall (givenTx x) (valueCalls d values).
Proof. apply Forall_forall. intros ev I. apply in_map_iff in I as (kv & <- & _). exact Logic.I. Qed.

Lemma policyCalls_validation p x policies :
  Forall (fun ev => isValidation ev = true) (policyCalls p x policies).
Proof. apply Forall_forall. intros ev I. apply in_map_iff in I as (kv & <- & _). reflexivity. Qed.

Lemma policyCalls_givenTx p x policies : Forall (givenTx x) (policyCalls p x policies).
Proof. apply Forall_forall. intros ev I. apply in_map_iff in I as (kv & <- & _). reflexivity. Qed.

Lemma proposeOwn_spec x group p d result w r w' t :
  proposeOwn env x group p d result w = (r, w', t) ->
  (forall cr, r = Ok cr -> cr = result) /\
  ownFacts x result
    (valueCalls d (Values group) ++ policyCalls p x (Policies group) ++ preCommitCalls result)
    (errOf r) t.
Proof.
  unfold proposeOwn. intros H.
  apply bind_inv in H as (e1 & w1 & t1 & t2 & H1 & H2 & ->).
  apply proposeValues_spec with (x := x) in H1. destruct e1 as [e1|].
  - inversion H2; subst. rewrite app_nil_r. split; [discriminate | exact H1].
  - simpl in H1. subst t1.
    apply bind_inv in H2 as (e2 & w2 & t2' & t3 & H2 & H3 & ->).
    apply proposePolicies_spec in H2. destruct e2 as [e2|].
    + inversion H3; subst. rewrite app_nil_r. split; [discriminate|].
      apply ownFacts_prefix with (err := Some e2);
        auto using valueCalls_validation, valueCalls_givenTx.
    + simpl in H2. subst t2'.
      apply bind_inv in H3 as (e3 & w3 & t3' & t4 & H3 & H4 & ->).
      pose proof (preCommit_spec result w2) as (V & G & E). rewrite H3 in V, G, E.
      cbn [value trace fst snd] in V, G, E. destruct e3 as [e3|].
      * apply rollback_then_ret in H4 as [-> ->]. split; [discriminate|].
        apply ownFacts_prefix with (err := Some e3);
          auto using valueCalls_validation, valueCalls_givenTx.
        apply ownFacts_prefix with (err := Some e3);
          auto using policyCalls_validation, policyCalls_givenTx.
        exists t3'. split; [reflexivity|]. split; [exact V|]. split; [|exact E].
        intros A. apply G. constructor; [exact A | constructor].
      * inversion H4; subst. rewrite app_nil_r. split; [intros cr [= <-]; reflexivity|].
        simpl. reflexivity.
Qed.

(** ** One invocation of proposeGroup *)

Lemma proposeGroup_unfold x name g h p :
  proposeGroup env x name g h p =
  bind (callBeginValueProposals env h x (map fst (Groups g))) (fun r =>
    match r with
    | Err e => ret (Err e)
    | Ok (d, hs) =>
        bind (callBeginPolicyProposals env p x (map fst (Groups g))) (fun r =>
          match r with
          | Err e => ret (Err e)
          | Ok ps =>
              if negb (len hs =? len (map fst (Groups g)))
                 || negb (len ps =? len (map fst (Groups g)))
              then ret (Err (programmingError (len hs) (len (map fst (Groups g))) (len ps)))
              else
                bind (proposeSubGroups env (proposeGroup env x) name (Groups g) hs ps
                        (mkConfigResult x (ValueHandler h) (PolicyHandler p) []))
                  (fun r =>
                     match r with
                     | Err e => ret (Err e)
                     | Ok result => proposeOwn env x g p d result
                     end)
          end)
    end).
Proof. destruct g. reflexivity. Qed.

Lemma callBeginValueProposals_run h x names w :
  callBeginValueProposals env h x names w =
  (fst (BeginValueProposals env h x names w), snd (BeginValueProposals env h x names w),
   [EvBeginValueProposals h x names (errOf (fst (BeginValueProposals env h x names w)))]).
Proof. unfold callBeginValueProposals. destruct (BeginValueProposals env h x names w). reflexivity. Qed.

Lemma callBeginPolicyProposals_run p x names w :
  callBeginPolicyProposals env p x names w =
  (fst (BeginPolicyProposals env p x names w), snd (BeginPolicyProposals env p x names w),
   [EvBeginPolicyProposals p x names (errOf (fst (BeginPolicyProposals env p x names w)))]).
Proof. unfold callBeginPolicyProposals. destruct (BeginPolicyProposals env p x names w). reflexivity. Qed.

Lemma lengths_checked (a b n : nat) :
  negb (a =? n) || negb (b =? n) = false <-> a = n /\ b = n.
Proof.
  rewrite orb_false_iff, !negb_false_iff, !Nat.eqb_eq. reflexivity.
Qed.

Lemma proposeGroup_case x name g h p w r w' t :
  proposeGroup env x name g h p w = (r, w', t) ->
  ProposeCase env x name g h p w r w' t.
Proof.
  rewrite proposeGroup_unfold.
  rewrite (bind_run _ _ _ (callBeginValueProposals_run h x _ w)).
  destruct (BeginValueProposals env h x (map fst (Groups g)) w) as [[[d hs]|e] w1] eqn:BV;
    cbn [fst snd errOf].
  2:{ simpl. intros H. inversion H; subst. apply Case_beginValueFails. exact BV. }
  rewrite (bind_run _ _ _ (callBeginPolicyProposals_run p x _ w1)).
  destruct (BeginPolicyProposals env p x (map fst (Groups g)) w1) as [[ps|e] w2] eqn:BP;
    cbn [fst snd errOf].
  2:{ simpl. intros H. inversion H; subst. eapply Case_beginPolicyFails; eassumption. }
  destruct (negb (len hs =? len (map fst (Groups g))) || negb (len ps =? len (map fst (Groups g))))
    eqn:L.
  { simpl. intros H. inversion H; subst. eapply Case_mismatch; try eassumption.
    rewrite length_map in L.
    destruct (Nat.eq_dec (len hs) (len (Groups g))) as [E1|]; [|auto].
    destruct (Nat.eq_dec (len ps) (len (Groups g))) as [E2|]; [|auto].
    exfalso. rewrite E1, E2, Nat.eqb_refl in L. discriminate. }
  apply lengths_checked in L as [Lh Lp]. rewrite length_map in Lh, Lp.
  destruct (proposeSubGroups_spec x name (Groups g) hs ps
              (mkConfigResult x (ValueHandler h) (PolicyHandler p) []) w2 Lh Lp)
    as (rs & oe & w3 & tc & HC & HE).
  unfold withSubResults in HE. cbn [tx handler policyHandler subResults app] in HE.
  destruct oe as [e|]; rewrite (bind_run _ _ _ HE).
  - simpl. intros H. inversion H; subst. rewrite app_nil_r.
    eapply Case_childFails; eassumption.
  - cbn beta iota. intros H.
    destruct (proposeOwn env x g p d _ w3) as [[r1 w4] town] eqn:O.
    cbn [value world trace fst snd] in H. inversion H; subst.
    eapply Case_children; eassumption.
Qed.

(** ** What every run satisfies *)

Lemma postOrder_unfold own cr :
  postOrder own cr = flat_map (postOrder own) (subResults cr) ++ own cr.
Proof. destruct cr. reflexivity. Qed.

Lemma postOrder_Forall (P : Event -> Prop) own cr :
  (forall n, Forall P (own n)) -> Forall P (postOrder own cr).
Proof.
  intros Hown. induction cr as [x h p subs IH] using configResult_tree_ind.
  rewrite postOrder_unfold. apply Forall_app. split; [|apply Hown].
  apply Forall_flat_map. exact IH.
Qed.

Lemma postOrder_givenTx own x cr :
  (forall n, tx n = x -> Forall (givenTx x) (own n)) ->
  allTx x cr -> Forall (givenTx x) (postOrder own cr).
Proof.
  intros Hown. induction cr as [y h p subs IH] using configResult_tree_ind.
  intros A. inversion A as [h' p' subs' As]; subst.
  rewrite postOrder_unfold. apply Forall_app. split; [|apply Hown; reflexivity].
  apply Forall_flat_map. cbn [subResults].
  rewrite Forall_forall in *. intros s I. apply IH; auto.
Qed.

Lemma rollbackCalls_notCommit cr : Forall (fun ev => isCommit ev = false) (rollbackCalls cr).
Proof. apply postOrder_Forall. intros n. repeat constructor. Qed.

Lemma rollbackCalls_givenTx x cr : allTx x cr -> Forall (givenTx x) (rollbackCalls cr).
Proof. apply postOrder_givenTx. intros n <-. repeat constructor. Qed.

Lemma preCommitCalls_notCommit cr : Forall (fun ev => isCommit ev = false) (preCommitCalls cr).
Proof. apply postOrder_Forall. intros n. repeat constructor. Qed.

Lemma preCommitCalls_givenTx x cr : allTx x cr -> Forall (givenTx x) (preCommitCalls cr).
Proof. apply postOrder_givenTx. intros n <-. repeat constructor. Qed.

Lemma validation_notCommit t :
  Forall (fun ev => isValidation ev = true) t -> Forall (fun ev => isCommit ev = false) t.
Proof. apply Forall_impl. intros [] H; try reflexivity; discriminate. Qed.

Lemma raisedIn_app_l e t1 t2 : raisedIn e t1 -> raisedIn e (t1 ++ t2).
Proof. intros (ev & I & E). exists ev. split; [apply in_or_app; auto | exact E]. Qed.

Lemma raisedIn_app_r e t1 t2 : raisedIn e t2 -> raisedIn e (t1 ++ t2).
Proof. intros (ev & I & E). exists ev. split; [apply in_or_app; auto | exact E]. Qed.

Lemma ChildRuns_facts x name gs hs ps w rs oe w' tc :
  Forall (fun ng => forall name h p w r w' t,
            proposeGroup env x name (snd ng) h p w = (r, w', t) -> runFacts x r t) gs ->
  ChildRuns env x name gs hs ps w rs oe w' tc ->
  Forall (fun ev => isCommit ev = false) tc /\
  Forall (givenTx x) tc /\
  Forall (allTx x) rs /\
  (forall e, oe = Some e -> raisedIn e tc \/ exists a b c, e = programmingError a b c).
Proof.
  intros IH HC. induction HC as [hs ps w | n g gs h hs p ps w r w1 t1 rs oe w2 t2 E HC IHC
                                | n g gs h hs p ps w e w1 t1 E].
  - repeat split; auto. discriminate.
  - inversion IH as [|? ? Hg Hgs]; subst.
    destruct (Hg _ _ _ _ _ _ _ E) as (C & G & A & _).
    destruct (IHC Hgs) as (C' & G' & A' & R').
    repeat split; try (apply Forall_app; auto).
    + constructor; auto.
    + intros e He. destruct (R' e He) as [R|R]; [left; apply raisedIn_app_r; exact R | right; exact R].
  - inversion IH as [|? ? Hg Hgs]; subst.
    destruct (Hg _ _ _ _ _ _ _ E) as (C & G & _ & R).
    repeat split; auto. intros e' [= <-]. apply R. reflexivity.
Qed.

Lemma valueCalls_notCommit d values :
  Forall (fun ev => isCommit ev = false) (valueCalls d values).
Proof. apply validation_notCommit, valueCalls_validation. Qed.

Lemma policyCalls_notCommit p x policies :
  Forall (fun ev => isCommit ev = false) (policyCalls p x policies).
Proof. apply validation_notCommit, policyCalls_validation. Qed.

Create HintDb calls.
#[local] Hint Resolve rollbackCalls_notCommit rollbackCalls_givenTx preCommitCalls_notCommit
  preCommitCalls_givenTx validation_notCommit valueCalls_notCommit policyCalls_notCommit
  valueCalls_givenTx policyCalls_givenTx : calls.

Ltac split_calls := cbn [app]; rewrite ?Forall_cons_iff, ?Forall_app; repeat split.

Lemma proposeGroup_facts g :
  forall x name h p w r w' t,
    proposeGroup env x name g h p w = (r, w', t) -> runFacts x r t.
Proof.
  induction g as [gs vs pols IH] using ConfigGroup_tree_ind.
  intros x name h p w r w' t H. apply proposeGroup_case in H.
  inversion H; subst; clear H; cbn [Groups] in *.
  - repeat split; try (repeat constructor; fail); try discriminate.
    intros e' [= <-]. left. eexists. split; [left; reflexivity | reflexivity].
  - repeat split; try (repeat constructor; fail); try discriminate.
    intros e' [= <-]. left. eexists. split; [right; left; reflexivity | reflexivity].
  - repeat split; try (repeat constructor; fail); try discriminate.
    intros e' [= <-]. right. eauto.
  - match goal with HC : ChildRuns _ _ _ _ _ _ _ _ _ _ _ |- _ =>
      destruct (ChildRuns_facts (Forall_impl _ (fun ng Hng => Hng x) IH) HC) as (C & G & A & R) end.
    assert (AR : allTx x (mkConfigResult x (ValueHandler h) (PolicyHandler p) rs))
      by (constructor; exact A).
    split; [|split; [|split]]; try discriminate.
    + split_calls; auto with calls.
    + split_calls; auto with calls.
    + intros e' [= <-]. destruct (R e eq_refl) as [R'|R']; [left | right; exact R'].
      apply (raisedIn_app_r [_; _]), raisedIn_app_l, R'.
  - match goal with HC : ChildRuns _ _ _ _ _ _ _ _ _ _ _ |- _ =>
      destruct (ChildRuns_facts (Forall_impl _ (fun ng Hng => Hng x) IH) HC) as (C & G & A & _) end.
    assert (AR : allTx x (mkConfigResult x (ValueHandler h) (PolicyHandler p) rs))
      by (constructor; exact A).
    match goal with HO' : proposeOwn _ _ _ _ _ _ _ = _ |- _ =>
      destruct (proposeOwn_spec _ _ _ _ _ _ HO') as [Hres HO] end.
    destruct r as [cr|e]; cbn [errOf ownFacts] in HO.
    + subst town. rewrite (Hres cr eq_refl).
      split; [|split; [|split]]; try discriminate.
      * split_calls; auto with calls.
      * split_calls; auto with calls.
      * intros cr' [= <-]. exact AR.
    + destruct HO as (body & -> & V & Gb & Rb).
      split; [|split; [|split]]; try discriminate.
      * split_calls; auto with calls.
      * split_calls; auto with calls.
      * intros e' [= <-]. left.
        apply (raisedIn_app_r [_; _]), raisedIn_app_r, raisedIn_app_l, Rb.
Qed.

(** ** processConfig *)

Lemma processConfig_run cm g w :
  processConfig env RootGroupKey cm g w =
  proposeGroup env g "" (helperGroup RootGroupKey g)
    (initializer_ValueProposer cm) (initializer_PolicyProposer cm) w.
Proof.
  unfold processConfig, bind.
  destruct (proposeGroup env g "" _ _ _ w) as [[[r|e] w1] t]; simpl;
    rewrite app_nil_r; reflexivity.
Qed.

(** C1 (atomicity): when [processConfig] returns an error, no call of
    CommitProposals was made, on any handler and with any context; the
    returned value is the error alone, there is no result to commit. *)
Theorem processConfig_error_commits_nothing cm g w e w' t :
  processConfig env RootGroupKey cm g w = (Err e, w', t) ->
  forall h x, ~ In (EvCommitProposals h x) t.
Proof.
  rewrite processConfig_run. intros H h x I.
  apply proposeGroup_facts in H as (C & _).
  rewrite Forall_forall in C. specialize (C _ I). discriminate.
Qed.

(** C5 (mismatch detection): when both Begin calls of a node succeed and one
    of the two returned handler lists has a length different from the number
    of sub-group names, [proposeGroup] returns the "Programming error"
    message built from the three lengths and no result; the two Begin calls
    are the only calls made, so nothing is rolled back at that level. *)
Theorem proposeGroup_length_mismatch x name g h p w d hs w1 ps w2 :
  BeginValueProposals env h x (map fst (Groups g)) w = (Ok (d, hs), w1) ->
  BeginPolicyProposals env p x (map fst (Groups g)) w1 = (Ok ps, w2) ->
  len hs <> len (map fst (Groups g)) \/ len ps <> len (map fst (Groups g)) ->
  proposeGroup env x name g h p w =
    (Err (programmingError (len hs) (len (map fst (Groups g))) (len ps)), w2,
     [EvBeginValueProposals h x (map fst (Groups g)) None;
      EvBeginPolicyProposals p x (map fst (Groups g)) None])
  /\ String.prefix "Programming error"
       (programmingError (len hs) (len (map fst (Groups g))) (len ps)) = true.
Proof.
  intros BV BP L. split; [|reflexivity].
  rewrite proposeGroup_unfold.
  rewrite (bind_run _ _ _ (callBeginValueProposals_run h x _ w)), BV. cbn [fst snd errOf].
  rewrite (bind_run _ _ _ (callBeginPolicyProposals_run p x _ w1)), BP. cbn [fst snd errOf].
  destruct (negb (len hs =? len (map fst (Groups g))) || negb (len ps =? len (map fst (Groups g))))
    eqn:E.
  - reflexivity.
  - apply lengths_checked in E. tauto.
Qed.

(** C6 (post-order cascade): [commit] and [rollback] make the calls of the
    post-order listing of the result tree: all calls of every sub-result's
    cascade, in the stored order, come before the node's own
    CommitProposals (resp. RollbackProposals) on its value handler and then
    on its policy handler. *)
Theorem cascades_are_post_order cr w :
  trace (commit env cr w) = postOrder ownCommitCalls cr /\
  trace (rollback env cr w) = postOrder ownRollbackCalls cr /\
  postOrder ownCommitCalls cr =
    flat_map (postOrder ownCommitCalls) (subResults cr)
      ++ [EvCommitProposals (handler cr) (tx cr); EvCommitProposals (policyHandler cr) (tx cr)] /\
  postOrder ownRollbackCalls cr =
    flat_map (postOrder ownRollbackCalls) (subResults cr)
      ++ [EvRollbackProposals (handler cr) (tx cr);
          EvRollbackProposals (policyHandler cr) (tx cr)].
Proof.
  split; [apply commit_trace|]. split; [apply rollback_trace|].
  split; apply postOrder_unfold.
Qed.

(** ** Failure of a sub-group *)

(** C2 (partial-failure cleanup): a node whose sub-groups are enumerated as
    A, B, C (and possibly more after C), where the proposals of A and B
    succeed with results [ra] and [rb] and the proposal of C fails with [e].
    After C's call returns, the node makes exactly the calls of the rollback
    cascades of [ra] and of [rb], then RollbackProposals on its own value
    handler and policy handler, and nothing for C; it returns [e] and no
    result; no CommitProposals call occurs anywhere in the run. *)
Theorem proposeGroup_failed_sibling x name g h p w a ga b gb c gc post
    d ha hb hc hpost w1 pa pb pc ppost w2 ra w3 ta rb w4 tb e w5 tc :
  Groups g = (a, ga) :: (b, gb) :: (c, gc) :: post ->
  len hpost = len post -> len ppost = len post ->
  BeginValueProposals env h x (map fst (Groups g)) w = (Ok (d, ha :: hb :: hc :: hpost), w1) ->
  BeginPolicyProposals env p x (map fst (Groups g)) w1 = (Ok (pa :: pb :: pc :: ppost), w2) ->
  proposeGroup env x (name ++ "/" ++ a)%string ga ha pa w2 = (Ok ra, w3, ta) ->
  proposeGroup env x (name ++ "/" ++ b)%string gb hb pb w3 = (Ok rb, w4, tb) ->
  proposeGroup env x (name ++ "/" ++ c)%string gc hc pc w4 = (Err e, w5, tc) ->
  exists w6 t,
    proposeGroup env x name g h p w = (Err e, w6, t) /\
    t = [EvBeginValueProposals h x (map fst (Groups g)) None;
         EvBeginPolicyProposals p x (map fst (Groups g)) None]
          ++ ta ++ tb ++ tc
          ++ rollbackCalls ra ++ rollbackCalls rb
          ++ [EvRollbackProposals (ValueHandler h) x; EvRollbackProposals (PolicyHandler p) x] /\
    forall th y, ~ In (EvCommitProposals th y) t.
Proof.
  intros G Lh Lp BV BP Ra Rb Rc.
  destruct g as [gs vs pols]. cbn [Groups] in *. subst gs.
  set (g := mkConfigGroup ((a, ga) :: (b, gb) :: (c, gc) :: post) vs pols) in *.
  set (names := map fst ((a, ga) :: (b, gb) :: (c, gc) :: post)) in *.
  assert (R : proposeGroup env x name g h p w =
              (Err e,
               world (rollback env (mkConfigResult x (ValueHandler h) (PolicyHandler p) [ra; rb]) w5),
               [EvBeginValueProposals h x (map fst (Groups g)) None;
                EvBeginPolicyProposals p x (map fst (Groups g)) None]
                 ++ ta ++ tb ++ tc
                 ++ rollbackCalls ra ++ rollbackCalls rb
                 ++ [EvRollbackProposals (ValueHandler h) x;
                     EvRollbackProposals (PolicyHandler p) x])).
  { rewrite proposeGroup_unfold. cbn [Groups g]. fold names.
    rewrite (bind_run _ _ _ (callBeginValueProposals_run h x _ w)), BV. cbn [fst snd errOf].
    rewrite (bind_run _ _ _ (callBeginPolicyProposals_run p x _ w1)), BP. cbn [fst snd errOf].
    replace (negb (len (ha :: hb :: hc :: hpost) =? len names)
             || negb (len (pa :: pb :: pc :: ppost) =? len names)) with false.
    2:{ symmetry. apply lengths_checked. subst names. simpl. rewrite length_map. lia. }
    assert (L : proposeSubGroups env (proposeGroup env x) name
                  ((a, ga) :: (b, gb) :: (c, gc) :: post)
                  (ha :: hb :: hc :: hpost) (pa :: pb :: pc :: ppost)
                  (mkConfigResult x (ValueHandler h) (PolicyHandler p) []) w2 =
                (Err e,
                 world (rollback env
                          (mkConfigResult x (ValueHandler h) (PolicyHandler p) [ra; rb]) w5),
                 ta ++ tb ++ tc
                   ++ rollbackCalls
                        (mkConfigResult x (ValueHandler h) (PolicyHandler p) [ra; rb]))).
    { cbn [proposeSubGroups].
      rewrite (bind_run _ _ _ Ra). cbn beta iota.
      rewrite (bind_run _ _ _ Rb). cbn beta iota.
      rewrite (bind_run _ _ _ Rc). cbn beta iota.
      rewrite (bind_run _ _ _ (rollback_run _ w5)).
      cbn [ret value world trace fst snd appendSubResult subResults tx handler
             policyHandler app].
      rewrite ?app_nil_r, <- ?app_assoc. reflexivity. }
    rewrite (bind_run _ _ _ L). cbn [ret value world trace fst snd].
    unfold rollbackCalls at 1. rewrite postOrder_unfold.
    cbn [subResults tx handler policyHandler app flat_map ownRollbackCalls].
    rewrite !app_nil_r. repeat (rewrite <- ?app_assoc; cbn [app]). reflexivity. }
  eexists _, _. split; [exact R|]. split; [reflexivity|].
  intros th y I. apply proposeGroup_facts in R as (C & _).
  rewrite Forall_forall in C. specialize (C _ I). discriminate.
Qed.

(** ** A step fails after the length check *)

Lemma callDeserialize_run d key v w :
  callDeserialize env d key v w =
  (fst (Deserialize env d key v w), snd (Deserialize env d key v w),
   [EvDeserialize d key v (errOf (fst (Deserialize env d key v w)))]).
Proof. unfold callDeserialize. destruct (Deserialize env d key v w). reflexivity. Qed.

Lemma callProposePolicy_run p x key pol w :
  callProposePolicy env p x key pol w =
  (fst (ProposePolicy env p x key pol w), snd (ProposePolicy env p x key pol w),
   [EvProposePolicy p x key pol (fst (ProposePolicy env p x key pol w))]).
Proof. unfold callProposePolicy. destruct (ProposePolicy env p x key pol w). reflexivity. Qed.

Lemma proposeValues_accepted d result values :
  forall gw w w',
    acceptValues env d values w = Some w' ->
    proposeValues env d result gw values w = (None, w', valueCalls d values).
Proof.
  induction values as [|[key v] values IH]; intros gw w w' A; simpl in A.
  - inversion A; subst. reflexivity.
  - cbn [proposeValues].
    rewrite (bind_run _ _ _ (callDeserialize_run d key (Value v) w)).
    destruct (Deserialize env d key (Value v) w) as [[msg|e] w1]; [|discriminate].
    cbn [fst snd errOf]. rewrite (IH _ _ _ A). reflexivity.
Qed.

Lemma proposeValues_refused d result done key v rest :
  forall gw w w4 e w5,
    acceptValues env d done w = Some w4 ->
    Deserialize env d key (Value v) w4 = (Err e, w5) ->
    proposeValues env d result gw (done ++ (key, v) :: rest) w =
      (Some e, world (rollback env result w5),
       valueCalls d done ++ [EvDeserialize d key (Value v) (Some e)] ++ rollbackCalls result).
Proof.
  induction done as [|[k0 v0] done IH]; intros gw w w4 e w5 A D; simpl in A.
  - inversion A; subst. cbn [app proposeValues valueCalls map].
    rewrite (bind_run _ _ _ (callDeserialize_run d key (Value v) w4)), D.
    cbn [fst snd errOf].
    rewrite (bind_run _ _ _ (rollback_run result w5)). simpl. rewrite app_nil_r. reflexivity.
  - cbn [app proposeValues].
    rewrite (bind_run _ _ _ (callDeserialize_run d k0 (Value v0) w)).
    destruct (Deserialize env d k0 (Value v0) w) as [[msg|e0] w1]; [|discriminate].
    cbn [fst snd errOf]. rewrite (IH _ _ _ _ _ A D). reflexivity.
Qed.

Lemma proposePolicies_accepted p x result policies :
  forall w w',
    acceptPolicies env p x policies w = Some w' ->
    proposePolicies env p x result policies w = (None, w', policyCalls p x policies).
Proof.
  induction policies as [|[key pol] policies IH]; intros w w' A; simpl in A.
  - inversion A; subst. reflexivity.
  - cbn [proposePolicies].
    rewrite (bind_run _ _ _ (callProposePolicy_run p x key pol w)).
    destruct (ProposePolicy env p x key pol w) as [[e|] w1]; [discriminate|].
    cbn [fst snd]. rewrite (IH _ _ A). reflexivity.
Qed.

Lemma proposePolicies_refused p x result done key pol rest :
  forall w w5 e w6,
    acceptPolicies env p x done w = Some w5 ->
    ProposePolicy env p x key pol w5 = (Some e, w6) ->
    proposePolicies env p x result (done ++ (key, pol) :: rest) w =
      (Some e, world (rollback env result w6),
       policyCalls p x done ++ [EvProposePolicy p x key pol (Some e)] ++ rollbackCalls result).
Proof.
  induction done as [|[k0 p0] done IH]; intros w w5 e w6 A P; simpl in A.
  - inversion A; subst. cbn [app proposePolicies policyCalls map].
    rewrite (bind_run _ _ _ (callProposePolicy_run p x key pol w5)), P.
    cbn [fst snd].
    rewrite (bind_run _ _ _ (rollback_run result w6)). simpl. rewrite app_nil_r. reflexivity.
  - cbn [app proposePolicies].
    rewrite (bind_run _ _ _ (callProposePolicy_run p x k0 p0 w)).
    destruct (ProposePolicy env p x k0 p0 w) as [[e0|] w1]; [discriminate|].
    cbn [fst snd]. rewrite (IH _ _ _ _ A P). reflexivity.
Qed.

(** The loop over the sub-groups does what [ChildRuns] describes. *)
Lemma ChildRuns_loop x name gs hs ps w rs oe w' tc :
  ChildRuns env x name gs hs ps w rs oe w' tc ->
  forall result,
    proposeSubGroups env (proposeGroup env x) name gs hs ps result w =
      match oe with
      | None => (Ok (withSubResults result rs), w', tc)
      | Some e => (Err e, world (rollback env (withSubResults result rs) w'),
                   tc ++ rollbackCalls (withSubResults result rs))
      end.
Proof.
  induction 1 as [hs ps w | n g gs h hs p ps w r w1 t1 rs oe w2 t2 E HC IHC
                 | n g gs h hs p ps w e w1 t1 E]; intros result.
  - rewrite withSubResults_nil. reflexivity.
  - cbn [proposeSubGroups]. rewrite (bind_run _ _ _ E). cbn beta iota.
    rewrite IHC, withSubResults_append.
    destruct oe; simpl; [rewrite app_assoc|]; reflexivity.
  - cbn [proposeSubGroups]. rewrite (bind_run _ _ _ E). cbn beta iota.
    rewrite withSubResults_nil.
    rewrite (bind_run _ _ _ (rollback_run result w1)). simpl. rewrite app_nil_r. reflexivity.
Qed.

Lemma rollbackCalls_node x h p rs :
  rollbackCalls (mkConfigResult x h p rs) =
  flat_map rollbackCalls rs ++ [EvRollbackProposals h x; EvRollbackProposals p x].
Proof. reflexivity. Qed.

Lemma validation_notRollback body :
  Forall (fun ev => isValidation ev = true) body -> filter isRollback body = [].
Proof.
  induction 1 as [|ev body Hev _ IH]; [reflexivity|].
  simpl. rewrite IH. destruct ev; try discriminate; reflexivity.
Qed.

Lemma LaterFailure_validation x name g h p d hs ps w2 rs tc body e wf :
  LaterFailure env x name g h p d hs ps w2 rs tc body e wf ->
  Forall (fun ev => isValidation ev = true) body.
Proof.
  intros F. destruct F as [rs e w3 tc HC
                          | rs w3 tc done key v rest w4 e w5 HC EV AV D
                          | rs w3 tc w4 done key pol rest w5 e w6 HC AV EP AP P
                          | rs w3 tc w4 w5 e w6 tp HC AV AP PC].
  - constructor.
  - apply Forall_app. split; [apply valueCalls_validation | repeat constructor].
  - apply Forall_app. split; [apply valueCalls_validation|].
    apply Forall_app. split; [apply policyCalls_validation | repeat constructor].
  - apply Forall_app. split; [apply valueCalls_validation|].
    apply Forall_app. split; [apply policyCalls_validation|].
    pose proof (preCommit_spec (mkConfigResult x (ValueHandler h) (PolicyHandler p) rs) w5)
      as (V & _). rewrite PC in V. exact V.
Qed.

(** What [proposeGroup] does when a step fails after the length check. *)
Lemma proposeGroup_later_failure x name g h p w d hs w1 ps w2 rs tc body e wf :
  BeginValueProposals env h x (map fst (Groups g)) w = (Ok (d, hs), w1) ->
  BeginPolicyProposals env p x (map fst (Groups g)) w1 = (Ok ps, w2) ->
  len hs = len (map fst (Groups g)) -> len ps = len (map fst (Groups g)) ->
  LaterFailure env x name g h p d hs ps w2 rs tc body e wf ->
  proposeGroup env x name g h p w =
    (Err e,
     world (rollback env (mkConfigResult x (ValueHandler h) (PolicyHandler p) rs) wf),
     [EvBeginValueProposals h x (map fst (Groups g)) None;
      EvBeginPolicyProposals p x (map fst (Groups g)) None]
       ++ tc ++ body
       ++ rollbackCalls (mkConfigResult x (ValueHandler h) (PolicyHandler p) rs)).
Proof.
  intros BV BP Lh Lp F.
  rewrite proposeGroup_unfold.
  rewrite (bind_run _ _ _ (callBeginValueProposals_run h x _ w)), BV. cbn [fst snd errOf].
  rewrite (bind_run _ _ _ (callBeginPolicyProposals_run p x _ w1)), BP. cbn [fst snd errOf].
  replace (negb (len hs =? len (map fst (Groups g))) || negb (len ps =? len (map fst (Groups g))))
    with false by (symmetry; apply lengths_checked; auto).
  set (result := mkConfigResult x (ValueHandler h) (PolicyHandler p) rs).
  assert (W : withSubResults (mkConfigResult x (ValueHandler h) (PolicyHandler p) []) rs = result)
    by reflexivity.
  destruct F as [rs e w3 tc HC
                | rs w3 tc done key v rest w4 e w5 HC EV AV D
                | rs w3 tc w4 done key pol rest w5 e w6 HC AV EP AP P
                | rs w3 tc w4 w5 e w6 tp HC AV AP PC];
    rewrite (bind_run _ _ _ (ChildRuns_loop HC _)), W; cbn beta iota.
  - cbn [ret value world trace fst snd app]. rewrite app_nil_r. reflexivity.
  - unfold proposeOwn. rewrite EV.
    rewrite (bind_run _ _ _ (@proposeValues_refused d result done key v rest _ _ _ _ _ AV D)).
    cbn [ret value world trace fst snd app]. rewrite app_nil_r, <- !app_assoc. reflexivity.
  - unfold proposeOwn.
    rewrite (bind_run _ _ _ (@proposeValues_accepted d result _ _ _ _ AV)). cbn beta iota.
    rewrite EP.
    rewrite (bind_run _ _ _ (@proposePolicies_refused p x result done key pol rest _ _ _ _ AP P)).
    cbn [ret value world trace fst snd app]. rewrite app_nil_r, <- !app_assoc. reflexivity.
  - unfold proposeOwn.
    rewrite (bind_run _ _ _ (@proposeValues_accepted d result _ _ _ _ AV)). cbn beta iota.
    rewrite (bind_run _ _ _ (@proposePolicies_accepted p x result _ _ _ AP)). cbn beta iota.
    rewrite (bind_run _ _ _ PC). cbn beta iota.
    rewrite (bind_run _ _ _ (rollback_run result w6)).
    cbn [ret value world trace fst snd app]. rewrite app_nil_r, <- !app_assoc. reflexivity.
Qed.

(** C10: a node whose two Begin calls succeeded with handler lists of the
    right length, and one of whose later steps then fails with [e]: the
    recursive proposal of a sub-group, the deserialization of a value, a
    ProposePolicy call or the preCommit cascade ([LaterFailure]).  Then
    [proposeGroup] returns [e] and no result, and its calls are: the two
    Begin calls; the calls [tc] of the recursive invocations; the node's
    own calls [body] up to and including the failing one, which are
    validation calls and hold no rollback; the rollback cascades of the
    sub-results [rs] built so far; and last, RollbackProposals once on the
    node's own value handler and once on its own policy handler. *)
Theorem proposeGroup_failure_rolls_back_self x name g h p w d hs w1 ps w2 rs tc body e wf :
  BeginValueProposals env h x (map fst (Groups g)) w = (Ok (d, hs), w1) ->
  BeginPolicyProposals env p x (map fst (Groups g)) w1 = (Ok ps, w2) ->
  len hs = len (map fst (Groups g)) -> len ps = len (map fst (Groups g)) ->
  LaterFailure env x name g h p d hs ps w2 rs tc body e wf ->
  proposeGroup env x name g h p w =
    (Err e,
     world (rollback env (mkConfigResult x (ValueHandler h) (PolicyHandler p) rs) wf),
     [EvBeginValueProposals h x (map fst (Groups g)) None;
      EvBeginPolicyProposals p x (map fst (Groups g)) None]
       ++ tc ++ body
       ++ flat_map rollbackCalls rs
       ++ [EvRollbackProposals (ValueHandler h) x; EvRollbackProposals (PolicyHandler p) x])
  /\ Forall (fun ev => isValidation ev = true) body
  /\ filter isRollback body = [].
Proof.
  intros BV BP Lh Lp F. split; [|split].
  - rewrite <- rollbackCalls_node. eapply proposeGroup_later_failure; eassumption.
  - eapply LaterFailure_validation; eassumption.
  - eapply validation_notRollback, LaterFailure_validation; eassumption.
Qed.

(** ** The synthetic root *)

Lemma ChildRuns_single x name n g h p w rs oe w' tc :
  ChildRuns env x name [(n, g)] [h] [p] w rs oe w' tc ->
  exists rest, tc ++ rest = trace (proposeGroup env x (name ++ "/" ++ n)%string g h p w) ++ rest
               /\ tc = trace (proposeGroup env x (name ++ "/" ++ n)%string g h p w).
Proof.
  intros H. inversion H as [| ? ? ? ? ? ? ? ? ? ? ? ? ? ? ? E HC | ? ? ? ? ? ? ? ? ? ? ? E]; subst.
  - inversion HC; subst. rewrite E. cbn [trace snd]. rewrite app_nil_r. exists []. auto.
  - rewrite E. exists []. auto.
Qed.

(** C7 (root wrapping): [processConfig] on [g] is [proposeGroup] on a node
    without values and policies whose only sub-group is [g] under
    [RootGroupKey], with the initializer's two proposers and [g] as context;
    every call of the run that takes a context is given [g]; and when the
    initializer's proposers answer with one handler each, [g] itself is
    proposed by the recursive call for the sub-group [RootGroupKey], with
    those two handlers, right after the two Begin calls of the synthetic
    root. *)
Theorem processConfig_wraps_root cm g w :
  processConfig env RootGroupKey cm g w =
    proposeGroup env g ""
      {| Groups := [(RootGroupKey, g)]; Values := []; Policies := [] |}
      (initializer_ValueProposer cm) (initializer_PolicyProposer cm) w
  /\ Forall (givenTx g) (trace (processConfig env RootGroupKey cm g w))
  /\ forall d hG w1 pG w2,
       BeginValueProposals env (initializer_ValueProposer cm) g [RootGroupKey] w
         = (Ok (d, [hG]), w1) ->
       BeginPolicyProposals env (initializer_PolicyProposer cm) g [RootGroupKey] w1
         = (Ok [pG], w2) ->
       exists rest,
         trace (processConfig env RootGroupKey cm g w) =
           [EvBeginValueProposals (initializer_ValueProposer cm) g [RootGroupKey] None;
            EvBeginPolicyProposals (initializer_PolicyProposer cm) g [RootGroupKey] None]
             ++ trace (proposeGroup env g ("" ++ "/" ++ RootGroupKey)%string g hG pG w2)
             ++ rest.
Proof.
  split; [apply processConfig_run|]. rewrite processConfig_run. split.
  - destruct (proposeGroup env g "" _ _ _ w) as [[r w'] t] eqn:E.
    apply proposeGroup_facts in E as (_ & G & _). exact G.
  - intros d hG w1 pG w2 BV BP.
    destruct (proposeGroup env g "" _ _ _ w) as [[r w'] t] eqn:E.
    apply proposeGroup_case in E. cbn [trace snd].
    inversion E; subst; clear E; cbn [helperGroup Groups map fst] in *;
      repeat match goal with
             | H1 : ?a = _, H2 : ?a = _ |- _ => rewrite H1 in H2; inversion H2; subst; clear H2
             end.
    + match goal with H : _ \/ _ |- _ => simpl in H; destruct H; congruence end.
    + match goal with HC : ChildRuns _ _ _ _ _ _ _ _ _ _ _ |- _ =>
        apply ChildRuns_single in HC as (_ & _ & ->) end.
      eexists. reflexivity.
    + match goal with HC : ChildRuns _ _ _ _ _ _ _ _ _ _ _ |- _ =>
        apply ChildRuns_single in HC as (_ & _ & ->) end.
      eexists. reflexivity.
Qed.

(** ** Errors are returned as they are *)

Lemma proposeSubGroups_name x name name' gs :
  Forall (fun ng => forall n n' h p w,
            proposeGroup env x n (snd ng) h p w = proposeGroup env x n' (snd ng) h p w) gs ->
  forall hs ps result w,
    proposeSubGroups env (proposeGroup env x) name gs hs ps result w =
    proposeSubGroups env (proposeGroup env x) name' gs hs ps result w.
Proof.
  induction 1 as [|[n g] gs Hg _ IH]; intros hs ps result w; [reflexivity|].
  cbn [proposeSubGroups]. destruct hs as [|h hs]; [reflexivity|].
  destruct ps as [|p ps]; [reflexivity|].
  unfold bind. cbn [snd] in Hg. rewrite (Hg _ (name' ++ "/" ++ n)%string).
  destruct (proposeGroup env x _ g h p w) as [[[r|e] w1] t1]; [|reflexivity].
  rewrite IH. reflexivity.
Qed.

Lemma proposeGroup_name g :
  forall x name name' h p w,
    proposeGroup env x name g h p w = proposeGroup env x name' g h p w.
Proof.
  induction g as [gs vs pols IH] using ConfigGroup_tree_ind.
  intros x name name' h p w. rewrite !proposeGroup_unfold. cbn [Groups].
  unfold bind.
  destruct (callBeginValueProposals env h x (map fst gs) w) as [[[[d hs]|e] w1] t1];
    [|reflexivity].
  destruct (callBeginPolicyProposals env p x (map fst gs) w1) as [[[ps|e] w2] t2];
    [|reflexivity].
  destruct (negb (len hs =? len (map fst gs)) || negb (len ps =? len (map fst gs)));
    [reflexivity|].
  rewrite (@proposeSubGroups_name x name name' gs (Forall_impl _ (fun ng Hng => Hng x) IH)).
  reflexivity.
Qed.

(** C9, as the code has it.  The path [name] handed to [proposeGroup] has no
    influence on what it returns or on the calls it makes, so no path
    context is attached to an error.  Every failure is returned as it is:
    the error of a failing BeginValueProposals or BeginPolicyProposals call,
    after no other call; the contract-violation message, after the two Begin
    calls; and the error [e] of a later step ([LaterFailure]: a sub-group's
    own error, or the error returned by Deserialize, ProposePolicy or the
    preCommit cascade), after the rollback cascade of the result the node
    had built.  Conversely an error returned by [proposeGroup] is the very
    error returned by one of the calls of the run or the contract-violation
    message. *)
Theorem proposeGroup_error_unwrapped x name g h p w :
  (forall name', proposeGroup env x name' g h p w = proposeGroup env x name g h p w) /\
  (forall e w1,
      BeginValueProposals env h x (map fst (Groups g)) w = (Err e, w1) ->
      proposeGroup env x name g h p w =
        (Err e, w1, [EvBeginValueProposals h x (map fst (Groups g)) (Some e)])) /\
  (forall d hs w1,
      BeginValueProposals env h x (map fst (Groups g)) w = (Ok (d, hs), w1) ->
      (forall e w2,
          BeginPolicyProposals env p x (map fst (Groups g)) w1 = (Err e, w2) ->
          proposeGroup env x name g h p w =
            (Err e, w2, [EvBeginValueProposals h x (map fst (Groups g)) None;
                         EvBeginPolicyProposals p x (map fst (Groups g)) (Some e)])) /\
      (forall ps w2,
          BeginPolicyProposals env p x (map fst (Groups g)) w1 = (Ok ps, w2) ->
          (len hs <> len (map fst (Groups g)) \/ len ps <> len (map fst (Groups g)) ->
           proposeGroup env x name g h p w =
             (Err (programmingError (len hs) (len (map fst (Groups g))) (len ps)), w2,
              [EvBeginValueProposals h x (map fst (Groups g)) None;
               EvBeginPolicyProposals p x (map fst (Groups g)) None])) /\
          (len hs = len (map fst (Groups g)) -> len ps = len (map fst (Groups g)) ->
           forall rs tc body e wf,
             LaterFailure env x name g h p d hs ps w2 rs tc body e wf ->
             proposeGroup env x name g h p w =
               (Err e,
                world (rollback env (mkConfigResult x (ValueHandler h) (PolicyHandler p) rs) wf),
                [EvBeginValueProposals h x (map fst (Groups g)) None;
                 EvBeginPolicyProposals p x (map fst (Groups g)) None]
                  ++ tc ++ body
                  ++ rollbackCalls
                       (mkConfigResult x (ValueHandler h) (PolicyHandler p) rs))))) /\
  (forall e w' t,
      proposeGroup env x name g h p w = (Err e, w', t) ->
      raisedIn e t \/ exists a b c, e = programmingError a b c).
Proof.
  split; [|split; [|split]].
  - intros name'. apply proposeGroup_name.
  - intros e w1 BV. rewrite proposeGroup_unfold.
    rewrite (bind_run _ _ _ (callBeginValueProposals_run h x _ w)), BV. reflexivity.
  - intros d hs w1 BV. split.
    + intros e w2 BP. rewrite proposeGroup_unfold.
      rewrite (bind_run _ _ _ (callBeginValueProposals_run h x _ w)), BV. cbn [fst snd errOf].
      rewrite (bind_run _ _ _ (callBeginPolicyProposals_run p x _ w1)), BP. reflexivity.
    + intros ps w2 BP. split.
      * intros L. rewrite proposeGroup_unfold.
        rewrite (bind_run _ _ _ (callBeginValueProposals_run h x _ w)), BV. cbn [fst snd errOf].
        rewrite (bind_run _ _ _ (callBeginPolicyProposals_run p x _ w1)), BP.
        cbn [fst snd errOf].
        destruct (negb (len hs =? len (map fst (Groups g)))
                  || negb (len ps =? len (map fst (Groups g)))) eqn:E.
        -- reflexivity.
        -- apply lengths_checked in E. tauto.
      * intros Lh Lp rs tc body e wf F.
        eapply proposeGroup_later_failure; eassumption.
  - intros e w' t H. apply proposeGroup_facts in H as (_ & _ & _ & R). apply R. reflexivity.
Qed.

(** ** The shape of a result *)

Lemma ChildRuns_shape x name gs hs ps w rs oe w' tc :
  Forall (fun ng => forall name h p w cr w' t,
            proposeGroup env x name (snd ng) h p w = (Ok cr, w', t) ->
            resultShape cr = groupShape (snd ng)) gs ->
  ChildRuns env x name gs hs ps w rs oe w' tc -> oe = None ->
  map resultShape rs = map (fun ng => groupShape (snd ng)) gs.
Proof.
  intros IH HC. induction HC as [hs ps w | n g gs h hs p ps w r w1 t1 rs oe w2 t2 E HC IHC
                                | n g gs h hs p ps w e w1 t1 E]; intros N.
  - reflexivity.
  - inversion IH as [|? ? Hg Hgs]; subst. cbn [map snd].
    rewrite (Hg _ _ _ _ _ _ _ E), (IHC Hgs eq_refl). reflexivity.
  - discriminate.
Qed.

Lemma proposeGroup_shape g :
  forall x name h p w cr w' t,
    proposeGroup env x name g h p w = (Ok cr, w', t) ->
    resultShape cr = groupShape g.
Proof.
  induction g as [gs vs pols IH] using ConfigGroup_tree_ind.
  intros x name h p w cr w' t H. apply proposeGroup_case in H.
  inversion H; subst; clear H; cbn [Groups] in *.
  match goal with HO' : proposeOwn _ _ _ _ _ _ _ = _ |- _ =>
    destruct (proposeOwn_spec _ _ _ _ _ _ HO') as [Hres _] end.
  rewrite (Hres cr eq_refl). cbn [resultShape groupShape subResults Groups].
  f_equal. eapply ChildRuns_shape; [|eassumption|reflexivity].
  exact (Forall_impl _ (fun ng Hng => Hng x) IH).
Qed.

(** C3, as the code has it: the result of a successful [processConfig] has
    one entry for the synthetic root, whose only sub-result has the nesting
    of the input tree, one entry per node; it therefore has one node more
    than the input tree. *)
Theorem processConfig_result_shape cm g w cr w' t :
  processConfig env RootGroupKey cm g w = (Ok cr, w', t) ->
  resultShape cr = Node [groupShape g] /\
  shapeNodes (resultShape cr) = S (shapeNodes (groupShape g)).
Proof.
  rewrite processConfig_run. intros H. apply proposeGroup_shape in H.
  rewrite H. split; [reflexivity|]. cbn [helperGroup groupShape Groups map snd].
  cbn [shapeNodes map]. unfold list_sum. cbn [fold_right]. rewrite Nat.add_0_r. reflexivity.
Qed.

(** ** PreCommit calls *)

Lemma preCommitsOn_app th t1 t2 :
  preCommitsOn th (t1 ++ t2) = preCommitsOn th t1 + preCommitsOn th t2.
Proof. unfold preCommitsOn. rewrite filter_app, length_app. reflexivity. Qed.

Lemma preCommitsOn_flat_map (A : Type) th (f : A -> list Event) l :
  preCommitsOn th (flat_map f l) = list_sum (map (fun a => preCommitsOn th (f a)) l).
Proof.
  induction l as [|a l IH]; [reflexivity|].
  cbn [flat_map map list_sum]. rewrite preCommitsOn_app, IH. reflexivity.
Qed.

Lemma list_sum_map_ext (A : Type) (f g : A -> nat) l :
  Forall (fun a => f a = g a) l -> list_sum (map f l) = list_sum (map g l).
Proof. induction 1 as [|a l E _ IH]; [reflexivity|]. simpl. rewrite E, IH. reflexivity. Qed.

Lemma list_sum_map_add (A : Type) (f g : A -> nat) l :
  list_sum (map (fun a => f a + g a) l) = list_sum (map f l) + list_sum (map g l).
Proof. induction l as [|a l IH]; [reflexivity|]. simpl. rewrite IH. lia. Qed.

Lemma preCommitsOn_valueCalls th d values : preCommitsOn th (valueCalls d values) = 0.
Proof. induction values as [|kv values IH]; [reflexivity | exact IH]. Qed.

Lemma preCommitsOn_policyCalls th p x policies : preCommitsOn th (policyCalls p x policies) = 0.
Proof. induction policies as [|kp policies IH]; [reflexivity | exact IH]. Qed.

Lemma preCommitsOn_preCommitCalls th cr :
  preCommitsOn th (preCommitCalls cr) = nodesWith th cr.
Proof.
  induction cr as [x h p subs IH] using configResult_tree_ind.
  unfold preCommitCalls. rewrite postOrder_unfold. cbn [subResults nodesWith handler].
  rewrite preCommitsOn_app, preCommitsOn_flat_map.
  rewrite (list_sum_map_ext (fun s => preCommitsOn th (postOrder ownPreCommitCall s))
             (nodesWith th) IH).
  unfold preCommitsOn. cbn [ownPreCommitCall filter isPreCommitOn handler].
  destruct (Transactional_eqb h th); simpl; lia.
Qed.

Lemma depthsPlusOne_succ th cr :
  forall depth, depthsPlusOne (S depth) th cr = depthsPlusOne depth th cr + nodesWith th cr.
Proof.
  induction cr as [x h p subs IH] using configResult_tree_ind. intros depth.
  cbn [depthsPlusOne nodesWith subResults handler].
  rewrite (list_sum_map_ext (depthsPlusOne (S (S depth)) th)
             (fun s => depthsPlusOne (S depth) th s + nodesWith th s)).
  2:{ eapply Forall_impl; [|exact IH]. intros s Hs. apply Hs. }
  rewrite list_sum_map_add. destruct (Transactional_eqb h th); lia.
Qed.

Lemma ChildRuns_preCommits th x name gs hs ps w rs oe w' tc :
  Forall (fun ng => forall name h p w cr w' t,
            proposeGroup env x name (snd ng) h p w = (Ok cr, w', t) ->
            preCommitsOn th t = depthsPlusOne 0 th cr) gs ->
  ChildRuns env x name gs hs ps w rs oe w' tc -> oe = None ->
  preCommitsOn th tc = list_sum (map (depthsPlusOne 0 th) rs).
Proof.
  intros IH HC. induction HC as [hs ps w | n g gs h hs p ps w r w1 t1 rs oe w2 t2 E HC IHC
                                | n g gs h hs p ps w e w1 t1 E]; intros N.
  - reflexivity.
  - inversion IH as [|? ? Hg Hgs]; subst. cbn [map list_sum].
    rewrite preCommitsOn_app, (Hg _ _ _ _ _ _ _ E), (IHC Hgs eq_refl). reflexivity.
  - discriminate.
Qed.

(** The calls of a successful invocation. *)
Lemma proposeGroup_success x name g h p w cr w' t :
  proposeGroup env x name g h p w = (Ok cr, w', t) ->
  exists d hs ps w2 w3 tc,
    ChildRuns env x name (Groups g) hs ps w2 (subResults cr) None w3 tc /\
    cr = mkConfigResult x (ValueHandler h) (PolicyHandler p) (subResults cr) /\
    t = [EvBeginValueProposals h x (map fst (Groups g)) None;
         EvBeginPolicyProposals p x (map fst (Groups g)) None]
          ++ tc
          ++ valueCalls d (Values g) ++ policyCalls p x (Policies g)
          ++ flat_map preCommitCalls (subResults cr)
          ++ [EvPreCommit (ValueHandler h) x None].
Proof.
  intros H. apply proposeGroup_case in H. inversion H; subst; clear H.
  match goal with HO' : proposeOwn _ _ _ _ _ _ _ = _ |- _ =>
    destruct (proposeOwn_spec _ _ _ _ _ _ HO') as [Hres HO] end.
  rewrite (Hres cr eq_refl). cbn [errOf ownFacts subResults] in *. subst town.
  eexists d, hs, ps, w2, w3, tc. split; [eassumption|]. split; [reflexivity|].
  reflexivity.
Qed.

Lemma proposeGroup_preCommits th g :
  forall x name h p w cr w' t,
    proposeGroup env x name g h p w = (Ok cr, w', t) ->
    preCommitsOn th t = depthsPlusOne 0 th cr.
Proof.
  induction g as [gs vs pols IH] using ConfigGroup_tree_ind.
  intros x name h p w cr w' t H.
  apply proposeGroup_success in H as (d & hs & ps & w2 & w3 & tc & HC & Ecr & ->).
  destruct cr as [y hh pp subs]. cbn [Groups Values Policies subResults] in *.
  inversion Ecr; subst y hh pp; clear Ecr.
  eapply ChildRuns_preCommits in HC;
    [|exact (Forall_impl _ (fun ng Hng => Hng x) IH)|reflexivity].
  rewrite !preCommitsOn_app, HC, preCommitsOn_valueCalls, preCommitsOn_policyCalls.
  rewrite preCommitsOn_flat_map.
  rewrite (list_sum_map_ext (fun s => preCommitsOn th (preCommitCalls s)) (nodesWith th)).
  2:{ apply Forall_forall. intros s _. apply preCommitsOn_preCommitCalls. }
  cbn [depthsPlusOne subResults handler].
  rewrite (list_sum_map_ext (depthsPlusOne 1 th)
             (fun s => depthsPlusOne 0 th s + nodesWith th s)).
  2:{ apply Forall_forall. intros s _. apply depthsPlusOne_succ. }
  rewrite list_sum_map_add.
  unfold preCommitsOn. cbn [filter isPreCommitOn app].
  destruct (Transactional_eqb (ValueHandler h) th); simpl; lia.
Qed.

(** C4, as the code has it.  In a successful [processConfig], the number of
    PreCommit calls on a handler is, summed over the nodes of the result
    that have it as value handler, one plus the node's depth below the
    synthetic root: once by the node's own [proposeGroup] and once more by
    the cascade of each of its ancestors.  The call made by a node's own
    [proposeGroup] is the last call of that invocation: it comes after the
    recursive invocations for the sub-groups, after the node's values and
    policies were all accepted, and after the cascade went through all
    sub-results without error. *)
Theorem preCommit_calls_of_success :
  (forall cm g w cr w' t,
      processConfig env RootGroupKey cm g w = (Ok cr, w', t) ->
      forall th, preCommitsOn th t = depthsPlusOne 0 th cr) /\
  (forall x name g h p w cr w' t,
      proposeGroup env x name g h p w = (Ok cr, w', t) ->
      exists d hs ps w2 w3 tc,
        ChildRuns env x name (Groups g) hs ps w2 (subResults cr) None w3 tc /\
        t = [EvBeginValueProposals h x (map fst (Groups g)) None;
             EvBeginPolicyProposals p x (map fst (Groups g)) None]
              ++ tc
              ++ valueCalls d (Values g) ++ policyCalls p x (Policies g)
              ++ flat_map preCommitCalls (subResults cr)
              ++ [EvPreCommit (ValueHandler h) x None]).
Proof.
  split.
  - intros cm g w cr w' t H th. rewrite processConfig_run in H.
    eapply proposeGroup_preCommits; eassumption.
  - intros x name g h p w cr w' t H.
    apply proposeGroup_success in H as (d & hs & ps & w2 & w3 & tc & HC & _ & ->).
    eexists d, hs, ps, w2, w3, tc. split; [exact HC | reflexivity].
Qed.

(** ** Order of enumeration *)

Lemma leafCalls_app t1 t2 : leafCalls (t1 ++ t2) = leafCalls t1 ++ leafCalls t2.
Proof. apply filter_app. Qed.

Lemma leafCalls_valueCalls d values : leafCalls (valueCalls d values) = valueCalls d values.
Proof.
  induction values as [|kv values IH]; [reflexivity|].
  unfold leafCalls in *. cbn [valueCalls map filter isLeafCall]. f_equal. exact IH.
Qed.

Lemma leafCalls_policyCalls p x policies :
  leafCalls (policyCalls p x policies) = policyCalls p x policies.
Proof.
  induction policies as [|kp policies IH]; [reflexivity|].
  unfold leafCalls in *. cbn [policyCalls map filter isLeafCall]. f_equal. exact IH.
Qed.

Lemma leafCalls_preCommitCalls cr : leafCalls (preCommitCalls cr) = [].
Proof.
  induction cr as [x h p subs IH] using configResult_tree_ind.
  unfold preCommitCalls. rewrite postOrder_unfold, leafCalls_app. cbn [subResults].
  replace (leafCalls (flat_map (postOrder ownPreCommitCall) subs)) with (@nil Event);
    [reflexivity|].
  clear - IH. induction IH as [|s subs Hs _ IHsubs]; [reflexivity|].
  cbn [flat_map]. rewrite leafCalls_app. unfold preCommitCalls in Hs. rewrite Hs. exact IHsubs.
Qed.

Section OrderIndependence.

Variable L : Layout World.
Hypothesis local : PerNodeState env L.
Hypothesis byName : ByName env L.

(** *** Places *)

Lemma within_refl rho : within rho rho.
Proof. exists []. rewrite app_nil_r. reflexivity. Qed.

Lemma within_trans a b c : within a b -> within b c -> within a c.
Proof. intros [l ->] [l' ->]. exists (l ++ l'). rewrite app_assoc. reflexivity. Qed.

Lemma within_child rho n : within rho (rho ++ [n]).
Proof. exists [n]. reflexivity. Qed.

Lemma within_dec rho : forall pi, within rho pi \/ ~ within rho pi.
Proof.
  induction rho as [|a rho IH]; intros pi.
  - left. exists pi. reflexivity.
  - destruct pi as [|b pi].
    + right. intros [l E]. discriminate.
    + destruct (string_dec a b) as [->|N].
      * destruct (IH pi) as [[l ->]|N].
        -- left. exists l. reflexivity.
        -- right. intros [l E]. apply N. exists l. simpl in E. inversion E. reflexivity.
      * right. intros [l E]. simpl in E. inversion E. congruence.
Qed.

Lemma places_apart rho n n' pi :
  n <> n' -> within (rho ++ [n]) pi -> within (rho ++ [n']) pi -> False.
Proof.
  intros N [l ->] [l' E]. rewrite <- !app_assoc in E. apply app_inv_head in E.
  simpl in E. congruence.
Qed.

Lemma place_dec (a b : list string) : a = b \/ a <> b.
Proof. destruct (list_eq_dec string_dec a b); auto. Qed.

Lemma agreeIn_refl rho w : agreeIn L rho w w.
Proof. intros pi _. reflexivity. Qed.

Lemma agreeIn_trans rho w1 w2 w3 :
  agreeIn L rho w1 w2 -> agreeIn L rho w2 w3 -> agreeIn L rho w1 w3.
Proof. intros A B pi W. rewrite (A pi W). apply B, W. Qed.

Lemma agreeIn_sub rho rho' w w' : within rho rho' -> agreeIn L rho w w' -> agreeIn L rho' w w'.
Proof. intros W A pi Wpi. apply A. eapply within_trans; eassumption. Qed.

(** Agreement at [rho'] extends to [rho] when the rest was left alone. *)
Lemma agreeIn_lift rho rho' w1 w2 v1 v2 :
  agreeIn L rho w1 w2 -> agreeIn L rho' v1 v2 ->
  (forall pi, ~ within rho' pi -> stateAt L pi v1 = stateAt L pi w1) ->
  (forall pi, ~ within rho' pi -> stateAt L pi v2 = stateAt L pi w2) ->
  agreeIn L rho v1 v2.
Proof.
  intros A A' F1 F2 pi W. destruct (within_dec rho' pi) as [I|O]; [apply A'; exact I|].
  rewrite F1, F2 by exact O. apply A, W.
Qed.

(** *** Computations that work at a place *)

Lemma LocalTo_ret rho (A : Type) (a : A) : LocalTo L rho (ret a).
Proof. split; [intros w w' H; repeat split; exact H | intros; reflexivity]. Qed.

Lemma LocalTo_bind rho (A B : Type) (m : M World A) (k : A -> M World B) :
  LocalTo L rho m -> (forall w, LocalTo L rho (k (value (m w)))) -> LocalTo L rho (bind m k).
Proof.
  intros [Rm Fm] Hk. split.
  - intros w w' H. destruct (Rm w w' H) as (V & T & W).
    rewrite !value_bind, !trace_bind, !world_bind. rewrite <- V.
    destruct (Hk w) as [Rk _]. destruct (Rk _ _ W) as (V' & T' & W').
    rewrite T, V', T'. auto.
  - intros w pi O. rewrite world_bind. destruct (Hk w) as [_ Fk].
    rewrite Fk by exact O. apply Fm, O.
Qed.

Lemma LocalTo_weaken rho rho' (A : Type) (m : M World A) :
  within rho rho' -> LocalTo L rho' m -> LocalTo L rho m.
Proof.
  intros W [R F]. split.
  - intros w w' H. destruct (R w w' (agreeIn_sub W H)) as (V & T & A'). repeat split; auto.
    eapply agreeIn_lift; [exact H | exact A' | intros; apply F; assumption
                         | intros; apply F; assumption].
  - intros w pi O. apply F. intros I. apply O. eapply within_trans; eassumption.
Qed.

Lemma LocalTo_ext rho (A : Type) (m m' : M World A) :
  (forall w, m w = m' w) -> LocalTo L rho m' -> LocalTo L rho m.
Proof.
  intros E [R F]. split.
  - intros w w' H. rewrite !E. apply R, H.
  - intros w pi O. rewrite E. apply F, O.
Qed.

Lemma LocalTo_call rho place (R : Type) (call : World -> R * World) (ev : R -> Event) :
  onlyAt L place call -> within rho place ->
  LocalTo L rho (fun w => (fst (call w), snd (call w), [ev (fst (call w))])).
Proof.
  intros [Same Other] W. split.
  - intros w w' H. destruct (Same w w' (H _ W)) as [V S].
    cbn [value world trace fst snd]. rewrite V. repeat split.
    intros pi Wpi. destruct (place_dec pi place) as [->|N]; [exact S|].
    rewrite !Other by exact N. apply H, Wpi.
  - intros w pi O. cbn [world fst snd]. apply Other. intros ->. apply O, W.
Qed.

Lemma LocalTo_beginValue rho h x ns :
  within rho (placeOf L (ValueHandler h)) -> LocalTo L rho (callBeginValueProposals env h x ns).
Proof.
  intros W. eapply LocalTo_ext; [apply callBeginValueProposals_run|].
  apply LocalTo_call with (place := placeOf L (ValueHandler h))
                          (ev := fun r => EvBeginValueProposals h x ns (errOf r)); [|exact W].
  apply local.
Qed.

Lemma LocalTo_beginPolicy rho p x ns :
  within rho (placeOf L (PolicyHandler p)) -> LocalTo L rho (callBeginPolicyProposals env p x ns).
Proof.
  intros W. eapply LocalTo_ext; [apply callBeginPolicyProposals_run|].
  apply LocalTo_call with (place := placeOf L (PolicyHandler p))
                          (ev := fun r => EvBeginPolicyProposals p x ns (errOf r)); [|exact W].
  apply local.
Qed.

Lemma LocalTo_deserialize rho d k v :
  within rho (placeOfDeserializer L d) -> LocalTo L rho (callDeserialize env d k v).
Proof.
  intros W. eapply LocalTo_ext; [apply callDeserialize_run|].
  apply LocalTo_call with (place := placeOfDeserializer L d)
                          (ev := fun r => EvDeserialize d k v (errOf r)); [|exact W].
  apply local.
Qed.

Lemma LocalTo_proposePolicy rho p x k pol :
  within rho (placeOf L (PolicyHandler p)) -> LocalTo L rho (callProposePolicy env p x k pol).
Proof.
  intros W. eapply LocalTo_ext; [apply callProposePolicy_run|].
  apply LocalTo_call with (place := placeOf L (PolicyHandler p))
                          (ev := fun r => EvProposePolicy p x k pol r); [|exact W].
  apply local.
Qed.

Lemma LocalTo_preCommitCall rho t x :
  within rho (placeOf L t) -> LocalTo L rho (callPreCommit env t x).
Proof.
  intros W.
  apply LocalTo_ext with (m' := fun w => (fst (PreCommit env t x w), snd (PreCommit env t x w),
                                          [EvPreCommit t x (fst (PreCommit env t x w))])).
  { intros w. unfold callPreCommit. destruct (PreCommit env t x w). reflexivity. }
  apply LocalTo_call with (place := placeOf L t) (ev := fun r => EvPreCommit t x r); [|exact W].
  apply local.
Qed.

Lemma LocalTo_rollbackCall rho t x :
  within rho (placeOf L t) -> LocalTo L rho (callRollbackProposals env t x).
Proof.
  intros W.
  apply (@LocalTo_call rho (placeOf L t) unit (fun w => (tt, RollbackProposals env t x w))
           (fun _ => EvRollbackProposals t x)); [|exact W].
  apply local.
Qed.

(** *** The cascades and the own steps work at the place of the result *)

Lemma insideResult_node rho x h p subs :
  insideResult L rho (mkConfigResult x h p subs) <->
  Forall (insideResult L rho) subs /\ within rho (placeOf L h) /\ within rho (placeOf L p).
Proof.
  unfold insideResult. cbn [handlersOf subResults handler policyHandler].
  rewrite Forall_app, Forall_flat_map. split.
  - intros (A & B). inversion B as [|? ? Hh B']; subst. inversion B' as [|? ? Hp _]; subst. auto.
  - intros (A & Hh & Hp). split; [exact A | repeat constructor; assumption].
Qed.

Lemma insideResult_weaken rho rho' cr :
  within rho rho' -> insideResult L rho' cr -> insideResult L rho cr.
Proof.
  intros W. apply Forall_impl. intros t I. eapply within_trans; eassumption.
Qed.

Lemma insideResult_append rho result cr :
  insideResult L rho result -> insideResult L rho cr ->
  insideResult L rho (appendSubResult result cr).
Proof.
  destruct result as [x h p subs]. unfold appendSubResult.
  cbn [tx handler policyHandler subResults]. rewrite !insideResult_node.
  intros (A & Hh & Hp) I. repeat split; auto.
  apply Forall_app. split; [exact A | constructor; [exact I | constructor]].
Qed.

Lemma LocalTo_forSubResults rho (A : Type) (each : configResult -> M World A) subs :
  Forall (fun s => LocalTo L rho (each s)) subs -> LocalTo L rho (forSubResults each subs).
Proof.
  induction 1 as [|s subs Hs _ IH]; cbn [forSubResults]; [apply LocalTo_ret|].
  apply LocalTo_bind; [exact Hs | intros _; exact IH].
Qed.

Lemma LocalTo_preCommitSubResults rho (each : configResult -> M World (option error)) subs :
  Forall (fun s => LocalTo L rho (each s)) subs ->
  LocalTo L rho (preCommitSubResults each subs).
Proof.
  induction 1 as [|s subs Hs _ IH]; cbn [preCommitSubResults]; [apply LocalTo_ret|].
  apply LocalTo_bind; [exact Hs|]. intros w.
  destruct (value (each s w)); [apply LocalTo_ret | exact IH].
Qed.

Lemma LocalTo_rollback cr : forall rho, insideResult L rho cr -> LocalTo L rho (rollback env cr).
Proof.
  induction cr as [x h p subs IH] using configResult_tree_ind. intros rho I.
  apply insideResult_node in I as (Is & Wh & Wp).
  cbn [rollback subResults handler policyHandler tx].
  apply LocalTo_bind.
  - apply LocalTo_forSubResults. rewrite Forall_forall in *. intros s Hs. apply IH; auto.
  - intros _. apply LocalTo_bind; [apply LocalTo_rollbackCall, Wh|].
    intros _. apply LocalTo_rollbackCall, Wp.
Qed.

Lemma LocalTo_preCommit cr : forall rho, insideResult L rho cr -> LocalTo L rho (preCommit env cr).
Proof.
  induction cr as [x h p subs IH] using configResult_tree_ind. intros rho I.
  apply insideResult_node in I as (Is & Wh & Wp).
  cbn [preCommit subResults handler tx].
  apply LocalTo_bind.
  - apply LocalTo_preCommitSubResults. rewrite Forall_forall in *. intros s Hs. apply IH; auto.
  - intros w. destruct (value _); [apply LocalTo_ret | apply LocalTo_preCommitCall, Wh].
Qed.

Lemma LocalTo_proposeValues rho d result values :
  within rho (placeOfDeserializer L d) -> insideResult L rho result ->
  forall gw, LocalTo L rho (proposeValues env d result gw values).
Proof.
  intros Wd I. induction values as [|[key v] values IH]; intros gw; cbn [proposeValues].
  - apply LocalTo_ret.
  - apply LocalTo_bind; [apply LocalTo_deserialize, Wd|]. intros w.
    destruct (value _) as [msg|e]; [apply IH|].
    apply LocalTo_bind; [apply LocalTo_rollback, I | intros _; apply LocalTo_ret].
Qed.

Lemma LocalTo_proposePolicies rho p x result policies :
  within rho (placeOf L (PolicyHandler p)) -> insideResult L rho result ->
  LocalTo L rho (proposePolicies env p x result policies).
Proof.
  intros Wp I. induction policies as [|[key pol] policies IH]; cbn [proposePolicies].
  - apply LocalTo_ret.
  - apply LocalTo_bind; [apply LocalTo_proposePolicy, Wp|]. intros w.
    destruct (value _) as [e|]; [|apply IH].
    apply LocalTo_bind; [apply LocalTo_rollback, I | intros _; apply LocalTo_ret].
Qed.

Lemma LocalTo_proposeOwn rho x g p d result :
  within rho (placeOfDeserializer L d) -> within rho (placeOf L (PolicyHandler p)) ->
  insideResult L rho result ->
  LocalTo L rho (proposeOwn env x g p d result).
Proof.
  intros Wd Wp I. unfold proposeOwn.
  apply LocalTo_bind; [apply LocalTo_proposeValues; assumption|]. intros w.
  destruct (value _) as [e|]; [apply LocalTo_ret|].
  apply LocalTo_bind; [apply LocalTo_proposePolicies; assumption|]. intros w'.
  destruct (value _) as [e|]; [apply LocalTo_ret|].
  apply LocalTo_bind; [apply LocalTo_preCommit, I|]. intros w''.
  destruct (value _) as [e|]; [|apply LocalTo_ret].
  apply LocalTo_bind; [apply LocalTo_rollback, I | intros _; apply LocalTo_ret].
Qed.

(** *** proposeGroup works at the place of its handlers *)

Lemma LocalTo_proposeSubGroups rho x name gs :
  Forall (fun ng => forall rho' name' h p,
            placeOf L (ValueHandler h) = rho' -> placeOf L (PolicyHandler p) = rho' ->
            LocalTo L rho' (proposeGroup env x name' (snd ng) h p) /\
            (forall w cr, value (proposeGroup env x name' (snd ng) h p w) = Ok cr ->
                          insideResult L rho' cr)) gs ->
  forall hs ps result,
    Forall2 (fun n h => placeOf L (ValueHandler h) = rho ++ [n]) (map fst gs) hs ->
    Forall2 (fun n p => placeOf L (PolicyHandler p) = rho ++ [n]) (map fst gs) ps ->
    insideResult L rho result ->
    LocalTo L rho (proposeSubGroups env (proposeGroup env x) name gs hs ps result) /\
    (forall w cr,
        value (proposeSubGroups env (proposeGroup env x) name gs hs ps result w) = Ok cr ->
        insideResult L rho cr).
Proof.
  induction 1 as [|[n c] gs Hc _ IH]; intros hs ps result Fh Fp I.
  - cbn [proposeSubGroups]. split; [apply LocalTo_ret|].
    intros w cr [= <-]. exact I.
  - cbn [map fst] in Fh, Fp.
    inversion Fh as [|? h ? hs' Ph Fh']; subst. inversion Fp as [|? p ? ps' Pp Fp']; subst.
    cbn [proposeSubGroups]. cbn [snd] in Hc.
    destruct (Hc (rho ++ [n]) (name ++ "/" ++ n)%string h p Ph Pp) as [Lc Ic].
    assert (Next : forall w cr,
               value (proposeGroup env x (name ++ "/" ++ n)%string c h p w) = Ok cr ->
               insideResult L rho (appendSubResult result cr)).
    { intros w cr V. apply insideResult_append; [exact I|].
      eapply insideResult_weaken; [apply within_child|]. eapply Ic, V. }
    split.
    + apply LocalTo_bind; [eapply LocalTo_weaken; [apply within_child | exact Lc]|].
      intros w. destruct (value _) as [cr|e] eqn:V.
      * apply IH; auto. eapply Next, V.
      * apply LocalTo_bind; [apply LocalTo_rollback, I | intros _; apply LocalTo_ret].
    + intros w cr. rewrite value_bind.
      destruct (value (proposeGroup env x _ c h p w)) as [cr'|e] eqn:V.
      * apply IH; auto. eapply Next, V.
      * rewrite value_bind. discriminate.
Qed.

Lemma proposeGroup_local g :
  forall x rho name h p,
    placeOf L (ValueHandler h) = rho -> placeOf L (PolicyHandler p) = rho ->
    LocalTo L rho (proposeGroup env x name g h p) /\
    (forall w cr, value (proposeGroup env x name g h p w) = Ok cr -> insideResult L rho cr).
Proof.
  induction g as [gs vs pols IH] using ConfigGroup_tree_ind.
  intros x rho name h p Ph Pp.
  destruct byName as (_ & _ & BVs & BPs).
  assert (Wh : within rho (placeOf L (ValueHandler h))) by (rewrite Ph; apply within_refl).
  assert (Wp : within rho (placeOf L (PolicyHandler p))) by (rewrite Pp; apply within_refl).
  assert (I0 : insideResult L rho (mkConfigResult x (ValueHandler h) (PolicyHandler p) [])).
  { apply insideResult_node. auto. }
  assert (IH' : Forall (fun ng => forall rho' name' h p,
            placeOf L (ValueHandler h) = rho' -> placeOf L (PolicyHandler p) = rho' ->
            LocalTo L rho' (proposeGroup env x name' (snd ng) h p) /\
            (forall w cr, value (proposeGroup env x name' (snd ng) h p w) = Ok cr ->
                          insideResult L rho' cr)) gs).
  { eapply Forall_impl; [|exact IH]. intros ng Hng rho' name' h' p'. apply Hng. }
  rewrite proposeGroup_unfold. cbn [Groups].
  split.
  - apply LocalTo_bind; [apply LocalTo_beginValue, Wh|]. intros w.
    rewrite callBeginValueProposals_run. cbn [value fst].
    destruct (fst (BeginValueProposals env h x (map fst gs) w)) as [[d hs]|e] eqn:V;
      [|apply LocalTo_ret].
    destruct (BVs _ _ _ _ _ _ V) as [Pd Fh]. rewrite Ph in Pd, Fh.
    apply LocalTo_bind; [apply LocalTo_beginPolicy, Wp|]. intros w1.
    rewrite callBeginPolicyProposals_run. cbn [value fst].
    destruct (fst (BeginPolicyProposals env p x (map fst gs) w1)) as [ps|e] eqn:V1;
      [|apply LocalTo_ret].
    pose proof (BPs _ _ _ _ _ V1) as Fp. rewrite Pp in Fp.
    destruct (negb _ || negb _); [apply LocalTo_ret|].
    destruct (@LocalTo_proposeSubGroups rho x name gs IH' hs ps _ Fh Fp I0) as [LS IS].
    apply LocalTo_bind; [exact LS|]. intros w2.
    destruct (value _) as [result|e] eqn:V2; [|apply LocalTo_ret].
    apply LocalTo_proposeOwn; [rewrite Pd; apply within_refl | exact Wp | eapply IS, V2].
  - intros w cr. rewrite value_bind, callBeginValueProposals_run. cbn [value world fst snd].
    destruct (fst (BeginValueProposals env h x (map fst gs) w)) as [[d hs]|e] eqn:V;
      [|discriminate].
    destruct (BVs _ _ _ _ _ _ V) as [Pd Fh]. rewrite Ph in Pd, Fh.
    rewrite value_bind, callBeginPolicyProposals_run. cbn [value world fst snd].
    destruct (fst (BeginPolicyProposals env p x (map fst gs) _)) as [ps|e] eqn:V1;
      [|discriminate].
    pose proof (BPs _ _ _ _ _ V1) as Fp. rewrite Pp in Fp.
    destruct (negb _ || negb _); [discriminate|].
    destruct (@LocalTo_proposeSubGroups rho x name gs IH' hs ps _ Fh Fp I0) as [LS IS].
    rewrite value_bind.
    destruct (value (proposeSubGroups _ _ _ _ _ _ _ _)) as [result|e] eqn:V2; [|discriminate].
    intros V3.
    match type of V3 with
    | value ?run = _ => destruct (proposeOwn_spec _ _ _ _ _ _ (run_eta run)) as [Hres _]
    end.
    rewrite (Hres cr V3). eapply IS, V2.
Qed.

(** *** The layout of a result *)

Lemma scopedAt_inv rho x h p subs :
  scopedAt L rho (mkConfigResult x h p subs) ->
  placeOf L h = rho /\ placeOf L p = rho /\
  NoDup (map (fun r => placeOf L (handler r)) subs) /\
  Forall (fun r => exists n, scopedAt L (rho ++ [n]) r) subs.
Proof. intros S. inversion S; subst. auto. Qed.

Lemma scopedAt_place rho cr : scopedAt L rho cr -> placeOf L (handler cr) = rho.
Proof. destruct cr. intros S. apply scopedAt_inv in S. cbn [handler]. tauto. Qed.

Lemma scopedAt_inside cr : forall rho, scopedAt L rho cr -> insideResult L rho cr.
Proof.
  induction cr as [x h p subs IH] using configResult_tree_ind. intros rho S.
  apply scopedAt_inv in S as (Hh & Hp & ND & F).
  apply insideResult_node. split; [|split; [rewrite Hh | rewrite Hp]; apply within_refl].
  rewrite Forall_forall in *. intros s I. destruct (F s I) as [n Sn].
  eapply insideResult_weaken; [apply within_child | apply IH; eauto].
Qed.

Lemma NoDup_below rho names : NoDup names -> NoDup (map (fun n : string => rho ++ [n]) names).
Proof.
  induction 1 as [|n names NI _ IH]; cbn [map]; constructor; [|exact IH].
  intros I. apply in_map_iff in I as (n' & E & I). apply app_inv_head in E.
  inversion E; subst. contradiction.
Qed.

Lemma scoped_subs rho names rs :
  NoDup names -> Forall2 (fun n r => scopedAt L (rho ++ [n]) r) names rs ->
  NoDup (map (fun r => placeOf L (handler r)) rs) /\
  Forall (fun r => exists n, scopedAt L (rho ++ [n]) r) rs.
Proof.
  intros ND F. split.
  - replace (map (fun r => placeOf L (handler r)) rs) with (map (fun n : string => rho ++ [n]) names);
      [apply NoDup_below, ND|].
    clear ND. induction F as [|n r names rs S _ IH]; [reflexivity|].
    cbn [map]. rewrite IH, (@scopedAt_place _ _ S). reflexivity.
  - clear ND. induction F as [|n r names rs S _ IH]; constructor; eauto.
Qed.

Lemma ChildRuns_scoped rho x name gs hs ps w rs oe w' tc :
  Forall (fun ng => forall x rho name h p w cr w' t,
            placeOf L (ValueHandler h) = rho -> placeOf L (PolicyHandler p) = rho ->
            proposeGroup env x name (snd ng) h p w = (Ok cr, w', t) -> scopedAt L rho cr) gs ->
  Forall2 (fun n h => placeOf L (ValueHandler h) = rho ++ [n]) (map fst gs) hs ->
  Forall2 (fun n p => placeOf L (PolicyHandler p) = rho ++ [n]) (map fst gs) ps ->
  ChildRuns env x name gs hs ps w rs oe w' tc -> oe = None ->
  Forall2 (fun n r => scopedAt L (rho ++ [n]) r) (map fst gs) rs.
Proof.
  intros IH Fh Fp HC. revert IH Fh Fp.
  induction HC as [hs ps w | n g gs h hs p ps w r w1 t1 rs oe w2 t2 E HC IHC
                  | n g gs h hs p ps w e w1 t1 E]; intros IH Fh Fp N.
  - constructor.
  - cbn [map fst] in *. inversion IH as [|? ? Hg Hgs]; subst.
    inversion Fh; subst. inversion Fp; subst.
    constructor; [eapply Hg; eassumption | apply IHC; auto].
  - discriminate.
Qed.

Lemma proposeGroup_scoped g :
  distinctNames g ->
  forall x rho name h p w cr w' t,
    placeOf L (ValueHandler h) = rho -> placeOf L (PolicyHandler p) = rho ->
    proposeGroup env x name g h p w = (Ok cr, w', t) -> scopedAt L rho cr.
Proof.
  induction g as [gs vs pols IH] using ConfigGroup_tree_ind.
  intros D x rho name h p w cr w' t Ph Pp H. subst rho.
  inversion D as [gs' vs' ps' ND Dc]; subst.
  destruct byName as (_ & _ & BVs & BPs).
  apply proposeGroup_case in H. inversion H; subst; clear H. cbn [Groups] in *.
  match goal with HO' : proposeOwn _ _ _ _ _ _ _ = _ |- _ =>
    destruct (proposeOwn_spec _ _ _ _ _ _ HO') as [Hres _] end.
  rewrite (Hres cr eq_refl).
  match goal with BV : BeginValueProposals _ _ _ _ _ = _ |- _ =>
    destruct (BVs h x (map fst gs) w d hs) as [_ Fh]; [rewrite BV; reflexivity|] end.
  match goal with BP : BeginPolicyProposals _ _ _ _ ?w1 = _ |- _ =>
    assert (Fp := BPs p x (map fst gs) w1 ps); rewrite BP in Fp; specialize (Fp eq_refl) end.
  assert (IH' : Forall (fun ng => forall x rho name h p w cr w' t,
            placeOf L (ValueHandler h) = rho -> placeOf L (PolicyHandler p) = rho ->
            proposeGroup env x name (snd ng) h p w = (Ok cr, w', t) -> scopedAt L rho cr) gs).
  { rewrite Forall_forall in *. intros ng I. apply IH; auto. }
  rewrite Pp in Fp.
  match goal with HC : ChildRuns _ _ _ _ _ _ _ _ _ _ _ |- _ =>
    pose proof (@ChildRuns_scoped _ x name gs hs ps _ _ _ _ _ IH' Fh Fp HC eq_refl) as F end.
  destruct (@scoped_subs _ _ _ ND F) as [ND' F'].
  constructor; auto.
Qed.

(** *** The loop over the sub-groups, by name *)

Lemma subRuns_cons x name f fp n c rest w :
  subRuns env x name f fp ((n, c) :: rest) w =
  match value (proposeGroup env x (name ++ "/" ++ n)%string c (f n) (fp n) w) with
  | Ok cr =>
      ((cr :: fst (value (subRuns env x name f fp rest
                            (world (proposeGroup env x (name ++ "/" ++ n)%string c (f n) (fp n) w)))),
        snd (value (subRuns env x name f fp rest
                      (world (proposeGroup env x (name ++ "/" ++ n)%string c (f n) (fp n) w))))),
       world (subRuns env x name f fp rest
                (world (proposeGroup env x (name ++ "/" ++ n)%string c (f n) (fp n) w))),
       trace (proposeGroup env x (name ++ "/" ++ n)%string c (f n) (fp n) w)
         ++ trace (subRuns env x name f fp rest
                     (world (proposeGroup env x (name ++ "/" ++ n)%string c (f n) (fp n) w))))
  | Err e =>
      (([], Some e), world (proposeGroup env x (name ++ "/" ++ n)%string c (f n) (fp n) w),
       trace (proposeGroup env x (name ++ "/" ++ n)%string c (f n) (fp n) w))
  end.
Proof.
  cbn [subRuns]. unfold bind.
  destruct (proposeGroup env x _ c (f n) (fp n) w) as [[[cr|e] w1] t1];
    cbn [value world trace fst snd].
  - destruct (subRuns env x name f fp rest w1) as [[ro w2] t2].
    cbn [ret value world trace fst snd]. rewrite app_nil_r. reflexivity.
  - cbn [ret]. rewrite app_nil_r. reflexivity.
Qed.

Lemma subRuns_ChildRuns x name f fp gs :
  forall w,
    ChildRuns env x name gs (map f (map fst gs)) (map fp (map fst gs)) w
      (fst (value (subRuns env x name f fp gs w))) (snd (value (subRuns env x name f fp gs w)))
      (world (subRuns env x name f fp gs w)) (trace (subRuns env x name f fp gs w)).
Proof.
  induction gs as [|[n c] gs IH]; intros w.
  - constructor.
  - rewrite subRuns_cons. cbn [map fst].
    destruct (proposeGroup env x (name ++ "/" ++ n)%string c (f n) (fp n) w)
      as [[[cr|e] w1] t1] eqn:E; cbn [value world trace fst snd].
    + eapply ChildRuns_ok; [exact E | apply IH].
    + apply ChildRuns_fail. exact E.
Qed.

(** [proposeGroup] when its Begin calls answer by name. *)
Lemma proposeGroup_by_name x name g h p w d f fp w1 w2 :
  BeginValueProposals env h x (map fst (Groups g)) w = (Ok (d, map f (map fst (Groups g))), w1) ->
  BeginPolicyProposals env p x (map fst (Groups g)) w1 = (Ok (map fp (map fst (Groups g))), w2) ->
  match snd (value (subRuns env x name f fp (Groups g) w2)) with
  | Some e => value (proposeGroup env x name g h p w) = Err e
  | None =>
      let o := subRuns env x name f fp (Groups g) w2 in
      let o' := proposeOwn env x g p d
                  (mkConfigResult x (ValueHandler h) (PolicyHandler p) (fst (value o))) (world o) in
      proposeGroup env x name g h p w =
        (value o', world o',
         [EvBeginValueProposals h x (map fst (Groups g)) None;
          EvBeginPolicyProposals p x (map fst (Groups g)) None] ++ trace o ++ trace o')
  end.
Proof.
  intros BV BP. rewrite proposeGroup_unfold.
  rewrite (bind_run _ _ _ (callBeginValueProposals_run h x _ w)), BV. cbn [fst snd errOf].
  rewrite (bind_run _ _ _ (callBeginPolicyProposals_run p x _ w1)), BP. cbn [fst snd errOf].
  replace (negb (len (map f (map fst (Groups g))) =? len (map fst (Groups g)))
           || negb (len (map fp (map fst (Groups g))) =? len (map fst (Groups g))))
    with false by (symmetry; apply lengths_checked; rewrite !length_map; auto).
  pose proof (ChildRuns_loop (subRuns_ChildRuns x name f fp (Groups g) w2)
                (mkConfigResult x (ValueHandler h) (PolicyHandler p) [])) as Loop.
  destruct (snd (value (subRuns env x name f fp (Groups g) w2))) as [e|];
    rewrite (bind_run _ _ _ Loop); cbn [value world trace fst snd]; reflexivity.
Qed.

Lemma LocalTo_subRuns rho x name f fp gs :
  placedBelow L rho f fp gs -> LocalTo L rho (subRuns env x name f fp gs).
Proof.
  induction 1 as [|[n c] gs [Ph Pp] _ IH]; cbn [subRuns]; [apply LocalTo_ret|].
  cbn [fst] in Ph, Pp.
  apply LocalTo_bind.
  - apply LocalTo_weaken with (rho' := rho ++ [n]); [apply within_child|].
    apply proposeGroup_local; assumption.
  - intros w. destruct (value _) as [cr|e]; [|apply LocalTo_ret].
    apply LocalTo_bind; [exact IH | intros w'; apply LocalTo_ret].
Qed.

(** *** Computations at places apart from each other commute *)

Lemma blocks_commute rho ra rb (A B : Type) (ma : M World A) (mb : M World B) :
  LocalTo L ra ma -> LocalTo L rb mb -> within rho ra -> within rho rb ->
  (forall pi, within ra pi -> within rb pi -> False) ->
  forall w w',
    agreeIn L rho w w' ->
    value (ma w) = value (ma (world (mb w'))) /\
    trace (ma w) = trace (ma (world (mb w'))) /\
    value (mb (world (ma w))) = value (mb w') /\
    trace (mb (world (ma w))) = trace (mb w') /\
    agreeIn L rho (world (mb (world (ma w)))) (world (ma (world (mb w')))).
Proof.
  intros [Ra Fa] [Rb Fb] Wa Wb Apart w w' H.
  assert (A1 : agreeIn L ra w (world (mb w'))).
  { intros pi I. rewrite Fb by (intros I'; exact (Apart pi I I')).
    apply H. exact (within_trans Wa I). }
  assert (A2 : agreeIn L rb (world (ma w)) w').
  { intros pi I. rewrite Fa by (intros I'; exact (Apart pi I' I)).
    apply H. exact (within_trans Wb I). }
  destruct (Ra _ _ A1) as (Va & Ta & Wa').
  destruct (Rb _ _ A2) as (Vb & Tb & Wb').
  repeat split; auto.
  intros pi I.
  destruct (within_dec ra pi) as [Ia|Oa].
  - rewrite Fb by (intros I'; exact (Apart pi Ia I')). apply Wa', Ia.
  - rewrite (Fa (world (mb w')) pi Oa).
    destruct (within_dec rb pi) as [Ib|Ob].
    + apply Wb', Ib.
    + rewrite !Fb by exact Ob. rewrite Fa by exact Oa. apply H, I.
Qed.

(** *** The preCommit cascades of two results that differ by the order of
    their sub-results *)

Lemma pcSim_trans rho a b c : pcSim L rho a b -> pcSim L rho b c -> pcSim L rho a c.
Proof.
  intros [I1 W1] [I2 W2]. split; [rewrite I1; exact I2|].
  intros N. eapply agreeIn_trans; [apply W1, N | apply W2, I1, N].
Qed.

Lemma pcSim_local rho (m : M World (option error)) w w' :
  LocalTo L rho m -> agreeIn L rho w w' -> pcSim L rho (m w) (m w').
Proof.
  intros [R _] H. destruct (R w w' H) as (V & _ & W).
  split; [rewrite V; reflexivity | intros _; exact W].
Qed.

Lemma psr_value s l w :
  value (preCommitSubResults (preCommit env) (s :: l) w) =
  match value (preCommit env s w) with
  | Some e => Some e
  | None => value (preCommitSubResults (preCommit env) l (world (preCommit env s w)))
  end.
Proof.
  cbn [preCommitSubResults]. rewrite value_bind.
  destruct (value (preCommit env s w)); reflexivity.
Qed.

Lemma psr_world s l w :
  world (preCommitSubResults (preCommit env) (s :: l) w) =
  match value (preCommit env s w) with
  | Some e => world (preCommit env s w)
  | None => world (preCommitSubResults (preCommit env) l (world (preCommit env s w)))
  end.
Proof.
  cbn [preCommitSubResults]. rewrite world_bind.
  destruct (value (preCommit env s w)); reflexivity.
Qed.

Lemma psr_cons_sim rho s s' l l' :
  (forall w w', agreeIn L rho w w' -> pcSim L rho (preCommit env s w) (preCommit env s' w')) ->
  (forall w w', agreeIn L rho w w' ->
                pcSim L rho (preCommitSubResults (preCommit env) l w)
                            (preCommitSubResults (preCommit env) l' w')) ->
  forall w w', agreeIn L rho w w' ->
               pcSim L rho (preCommitSubResults (preCommit env) (s :: l) w)
                           (preCommitSubResults (preCommit env) (s' :: l') w').
Proof.
  intros Hs Hl w w' A. destruct (Hs w w' A) as [I W].
  unfold pcSim. rewrite !psr_value, !psr_world.
  destruct (value (preCommit env s w)) as [e|], (value (preCommit env s' w')) as [e'|].
  - split; [split; discriminate | discriminate].
  - destruct I as [_ I]. discriminate (I eq_refl).
  - destruct I as [I _]. discriminate (I eq_refl).
  - exact (Hl _ _ (W eq_refl)).
Qed.

Lemma psr_pointwise rho l l' :
  Forall2 (fun s s' => forall w w', agreeIn L rho w w' ->
                                    pcSim L rho (preCommit env s w) (preCommit env s' w')) l l' ->
  forall w w', agreeIn L rho w w' ->
               pcSim L rho (preCommitSubResults (preCommit env) l w)
                           (preCommitSubResults (preCommit env) l' w').
Proof.
  induction 1 as [|s s' l l' Hs _ IH].
  - intros w w' A. split; [reflexivity | intros _; exact A].
  - apply psr_cons_sim; assumption.
Qed.

Lemma preCommit_node_sim rho x h p subs subs' :
  within rho (placeOf L h) ->
  (forall w w', agreeIn L rho w w' ->
                pcSim L rho (preCommitSubResults (preCommit env) subs w)
                            (preCommitSubResults (preCommit env) subs' w')) ->
  forall w w', agreeIn L rho w w' ->
               pcSim L rho (preCommit env (mkConfigResult x h p subs) w)
                           (preCommit env (mkConfigResult x h p subs') w').
Proof.
  intros Wh Hs w w' A. destruct (Hs w w' A) as [I W].
  unfold pcSim. cbn [preCommit subResults handler tx]. rewrite !value_bind, !world_bind.
  destruct (value (preCommitSubResults (preCommit env) subs w)) as [e|],
           (value (preCommitSubResults (preCommit env) subs' w')) as [e'|].
  - split; [split; discriminate | discriminate].
  - destruct I as [_ I]. discriminate (I eq_refl).
  - destruct I as [I _]. discriminate (I eq_refl).
  - exact (pcSim_local (@LocalTo_preCommitCall rho h x Wh) (W eq_refl)).
Qed.

Lemma scoped_preCommit_local rho n s :
  scopedAt L (rho ++ [n]) s ->
  LocalTo L (rho ++ [n]) (preCommit env s) /\ LocalTo L rho (preCommit env s).
Proof.
  intros S. assert (Lo := LocalTo_preCommit (@scopedAt_inside _ _ S)).
  split; [exact Lo|]. eapply LocalTo_weaken; [apply within_child | exact Lo].
Qed.

Lemma scoped_psr_local rho l :
  Forall (fun r => exists n, scopedAt L (rho ++ [n]) r) l ->
  LocalTo L rho (preCommitSubResults (preCommit env) l).
Proof.
  intros F. apply LocalTo_preCommitSubResults. eapply Forall_impl; [|exact F].
  intros s [n S]. apply (@scoped_preCommit_local _ _ _ S).
Qed.

Lemma psr_perm rho subs subs' :
  Permutation subs subs' ->
  NoDup (map (fun r => placeOf L (handler r)) subs) ->
  Forall (fun r => exists n, scopedAt L (rho ++ [n]) r) subs ->
  forall w w', agreeIn L rho w w' ->
               pcSim L rho (preCommitSubResults (preCommit env) subs w)
                           (preCommitSubResults (preCommit env) subs' w').
Proof.
  induction 1 as [|s l l' P IH|x y l|l1 l2 l3 P1 IH1 P2 IH2]; intros ND F.
  - intros w w' A. split; [reflexivity | intros _; exact A].
  - cbn [map] in ND. inversion ND as [|? ? _ ND']; subst.
    inversion F as [|? ? [n S] F']; subst.
    apply psr_cons_sim; [|apply IH; assumption].
    intros w w' A. apply pcSim_local; [apply (@scoped_preCommit_local _ _ _ S) | exact A].
  - cbn [map] in ND. inversion ND as [|? ? NI ND']; subst.
    inversion F as [|? ? [ny Sy] F']; subst. inversion F' as [|? ? [nx Sx] F'']; subst.
    assert (N : ny <> nx).
    { intros ->. apply NI. left. rewrite (@scopedAt_place _ _ Sx), (@scopedAt_place _ _ Sy). reflexivity. }
    intros w w' A.
    destruct (blocks_commute (proj1 (@scoped_preCommit_local _ _ _ Sy)) (proj1 (@scoped_preCommit_local _ _ _ Sx))
                (within_child rho ny) (within_child rho nx)
                (fun pi I I' => @places_apart rho ny nx pi N I I') A) as (Vy & _ & Vx & _ & W).
    unfold pcSim. rewrite !psr_value, !psr_world. rewrite <- Vy, Vx.
    destruct (value (preCommit env y w)) as [ey|], (value (preCommit env x w')) as [ex|];
      try (split; [split; discriminate | discriminate]).
    exact (pcSim_local (@scoped_psr_local rho l F'') W).
  - intros w w' A.
    eapply pcSim_trans; [apply IH1; eassumption|].
    apply IH2; [| |apply agreeIn_refl].
    + eapply Permutation_NoDup; [|exact ND]. apply Permutation_map, P1.
    + eapply Permutation_Forall; eassumption.
Qed.

Lemma sameResult_preCommit r r' :
  sameResult r r' ->
  forall rho, scopedAt L rho r ->
    scopedAt L rho r' /\
    forall w w', agreeIn L rho w w' -> pcSim L rho (preCommit env r w) (preCommit env r' w').
Proof.
  induction 1 as [x h p subs subs' P | x h p pre r r' post SR IH | r1 r2 r3 S12 IH12 S23 IH23];
    intros rho S.
  - apply scopedAt_inv in S as (Hh & Hp & ND & F). split.
    + constructor; auto.
      * eapply Permutation_NoDup; [|exact ND]. apply Permutation_map, P.
      * eapply Permutation_Forall; eassumption.
    + apply preCommit_node_sim; [rewrite Hh; apply within_refl|].
      apply psr_perm; assumption.
  - apply scopedAt_inv in S as (Hh & Hp & ND & F).
    apply Forall_app in F as [Fpre F]. apply Forall_cons_iff in F as [[n Sr] Fpost].
    destruct (IH _ Sr) as [Sr' Sim].
    split.
    + constructor; auto.
      * rewrite map_app in *. cbn [map] in *.
        rewrite (@scopedAt_place _ _ Sr'), <- (@scopedAt_place _ _ Sr). exact ND.
      * apply Forall_app. split; [exact Fpre | constructor; eauto].
    + apply preCommit_node_sim; [rewrite Hh; apply within_refl|].
      apply psr_pointwise. apply Forall2_app; [|constructor].
      * clear - Fpre local byName. induction Fpre as [|s pre [m Sm] _ IHp]; constructor; [|exact IHp].
        intros w w' A. apply pcSim_local; [apply (@scoped_preCommit_local _ _ _ Sm) | exact A].
      * intros w w' A.
        destruct (Sim w w' (agreeIn_sub (within_child rho n) A)) as [I W].
        split; [exact I|]. intros N.
        eapply agreeIn_lift; [exact A | exact (W N) | |].
        -- intros pi O. apply (proj1 (@scoped_preCommit_local _ _ _ Sr)), O.
        -- intros pi O. apply (proj1 (@scoped_preCommit_local _ _ _ Sr')), O.
      * clear - Fpost local byName.
        induction Fpost as [|s post [m Sm] _ IHp]; constructor; [|exact IHp].
        intros w w' A. apply pcSim_local; [apply (@scoped_preCommit_local _ _ _ Sm) | exact A].
  - destruct (IH12 _ S) as [S2 Sim12]. destruct (IH23 _ S2) as [S3 Sim23].
    split; [exact S3|]. intros w w' A.
    eapply pcSim_trans; [apply Sim12, A | apply Sim23, agreeIn_refl].
Qed.

(** *** The loops over the sub-groups of two trees that differ by the order
    of their sub-groups *)

Lemma crSim_trans rho (RL : list configResult -> list configResult -> Prop) a b c :
  (forall x y z, RL x y -> RL y z -> RL x z) ->
  crSim L rho RL a b -> crSim L rho RL b c -> crSim L rho RL a c.
Proof.
  intros Tr [I1 R1] [I2 R2]. split; [rewrite I1; exact I2|].
  intros N. destruct (R1 N) as (A1 & P1 & W1). destruct (R2 (proj1 I1 N)) as (A2 & P2 & W2).
  split; [eapply Tr; eassumption|].
  split; [eapply perm_trans; eassumption | eapply agreeIn_trans; eassumption].
Qed.

Lemma placedBelow_local rho x name f fp n c :
  placeOf L (ValueHandler (f n)) = rho ++ [n] ->
  placeOf L (PolicyHandler (fp n)) = rho ++ [n] ->
  LocalTo L (rho ++ [n]) (proposeGroup env x name c (f n) (fp n)) /\
  LocalTo L rho (proposeGroup env x name c (f n) (fp n)).
Proof.
  intros Ph Pp.
  assert (Lo : LocalTo L (rho ++ [n]) (proposeGroup env x name c (f n) (fp n)))
    by (apply proposeGroup_local; assumption).
  split; [exact Lo|]. eapply LocalTo_weaken; [apply within_child | exact Lo].
Qed.

Lemma subRuns_perm rho x name f fp gs gs' :
  Permutation gs gs' ->
  NoDup (map fst gs) -> placedBelow L rho f fp gs ->
  forall w w',
    agreeIn L rho w w' ->
    crSim L rho (@Permutation configResult)
      (subRuns env x name f fp gs w) (subRuns env x name f fp gs' w').
Proof.
  unfold placedBelow.
  induction 1 as [|[n c] l l' P IH|[n1 c1] [n2 c2] l|l1 l2 l3 P1 IH1 P2 IH2]; intros ND PB.
  - intros w w' A. split; [reflexivity|]. intros _. cbn. auto.
  - cbn [map fst] in ND. inversion ND as [|? ? _ ND']; subst.
    apply Forall_cons_iff in PB as [[Ph Pp] PB]. cbn [fst] in Ph, Pp.
    intros w w' A.
    destruct (proj1 (proj2 (@placedBelow_local rho x (name ++ "/" ++ n)%string f fp n c Ph Pp))
                w w' A) as (V & T & W).
    destruct (IH ND' PB _ _ W) as [I R].
    unfold crSim. rewrite !subRuns_cons, <- V.
    destruct (value (proposeGroup env x _ c (f n) (fp n) w)) as [cr|e];
      cbn [value world trace fst snd].
    + split; [exact I|]. intros N. destruct (R N) as (Pr & Pl & Wl).
      split; [apply perm_skip, Pr|]. split; [|exact Wl].
      rewrite !leafCalls_app, T. apply Permutation_app_head, Pl.
    + split; [split; discriminate | discriminate].
  - cbn [map fst] in ND. inversion ND as [|? ? NI ND']; subst.
    inversion ND' as [|? ? _ ND'']; subst.
    assert (N : n2 <> n1) by (intros ->; apply NI; left; reflexivity).
    apply Forall_cons_iff in PB as [[Ph2 Pp2] PB]. apply Forall_cons_iff in PB as [[Ph1 Pp1] PB].
    cbn [fst] in Ph1, Pp1, Ph2, Pp2.
    intros w w' A.
    destruct (blocks_commute
                (proj1 (@placedBelow_local rho x (name ++ "/" ++ n2)%string f fp n2 c2 Ph2 Pp2))
                (proj1 (@placedBelow_local rho x (name ++ "/" ++ n1)%string f fp n1 c1 Ph1 Pp1))
                (within_child rho n2) (within_child rho n1)
                (fun pi I I' => @places_apart rho n2 n1 pi N I I') A)
      as (V2 & T2 & V1 & T1 & W).
    destruct (proj1 (@LocalTo_subRuns rho x name f fp l PB) _ _ W) as (Vl & Tl & Wl).
    unfold crSim. rewrite !subRuns_cons, <- V2, V1.
    destruct (value (proposeGroup env x _ c2 (f n2) (fp n2) w)) as [cr2|e2],
             (value (proposeGroup env x _ c1 (f n1) (fp n1) w')) as [cr1|e1];
      cbn [value world trace fst snd];
      try (split; [split; discriminate | discriminate]).
    rewrite <- Vl. split; [reflexivity|]. intros N'.
    split; [apply perm_swap|]. split; [|exact Wl].
    rewrite !leafCalls_app, T2, T1, Tl, !app_assoc.
    apply Permutation_app_tail, Permutation_app_comm.
  - intros w w' A.
    eapply crSim_trans; [intros a b c; apply perm_trans | apply IH1; eassumption|].
    apply IH2; [| |apply agreeIn_refl].
    + eapply Permutation_NoDup; [|exact ND]. apply Permutation_map, P1.
    + eapply Permutation_Forall; eassumption.
Qed.

(** Results that differ by one sub-result. *)
Lemma subRuns_child rho x name f fp n c c' post :
  forall pre,
    placedBelow L rho f fp (pre ++ (n, c) :: post) ->
    (forall w w',
        agreeIn L (rho ++ [n]) w w' ->
        grSim L (rho ++ [n])
          (proposeGroup env x (name ++ "/" ++ n)%string c (f n) (fp n) w)
          (proposeGroup env x (name ++ "/" ++ n)%string c' (f n) (fp n) w')) ->
    forall w w',
      agreeIn L rho w w' ->
      crSim L rho
        (fun rs rs' => exists rpre r r' rpost,
             rs = rpre ++ r :: rpost /\ rs' = rpre ++ r' :: rpost /\ sameResult r r')
        (subRuns env x name f fp (pre ++ (n, c) :: post) w)
        (subRuns env x name f fp (pre ++ (n, c') :: post) w').
Proof.
  unfold placedBelow. induction pre as [|[m cm] pre IH]; intros PB Sim w w' A.
  - cbn [app] in *. apply Forall_cons_iff in PB as [[Ph Pp] PB]. cbn [fst] in Ph, Pp.
    pose proof (Sim w w' (agreeIn_sub (within_child rho n) A)) as G. unfold grSim in G.
    unfold crSim. rewrite !subRuns_cons.
    destruct (value (proposeGroup env x _ c (f n) (fp n) w)) as [cr|e],
             (value (proposeGroup env x _ c' (f n) (fp n) w')) as [cr'|e'];
      cbn [value world trace fst snd]; try contradiction;
      try (split; [split; discriminate | discriminate]).
    destruct G as (SR & Pl & Wn).
    assert (W : agreeIn L rho
                  (world (proposeGroup env x (name ++ "/" ++ n)%string c (f n) (fp n) w))
                  (world (proposeGroup env x (name ++ "/" ++ n)%string c' (f n) (fp n) w'))).
    { eapply agreeIn_lift; [exact A | exact Wn | |].
      - intros pi O.
        apply (proj1 (@placedBelow_local rho x (name ++ "/" ++ n)%string f fp n c Ph Pp)), O.
      - intros pi O.
        apply (proj1 (@placedBelow_local rho x (name ++ "/" ++ n)%string f fp n c' Ph Pp)), O. }
    destruct (proj1 (@LocalTo_subRuns rho x name f fp post PB) _ _ W) as (Vl & Tl & Wl).
    rewrite <- Vl. split; [reflexivity|]. intros N.
    split; [eexists [], cr, cr', _; split; [reflexivity|]; split; [reflexivity | exact SR]|].
    split; [|exact Wl].
    rewrite !leafCalls_app, Tl. apply Permutation_app_tail, Pl.
  - cbn [app] in *. apply Forall_cons_iff in PB as [[Ph Pp] PB]. cbn [fst] in Ph, Pp.
    destruct (proj1 (proj2 (@placedBelow_local rho x (name ++ "/" ++ m)%string f fp m cm Ph Pp))
                w w' A) as (V & T & W).
    destruct (IH PB Sim _ _ W) as [I R].
    unfold crSim. rewrite !subRuns_cons, <- V.
    destruct (value (proposeGroup env x _ cm (f m) (fp m) w)) as [cr|e];
      cbn [value world trace fst snd].
    + split; [exact I|]. intros N.
      destruct (R N) as ((rpre & r & r' & rpost & E & E' & SR) & Pl & Wl).
      split; [exists (cr :: rpre), r, r', rpost; rewrite E, E'; auto|].
      split; [|exact Wl].
      rewrite !leafCalls_app, T. apply Permutation_app_head, Pl.
    + split; [split; discriminate | discriminate].
Qed.

(** *** The own steps of a node *)

Lemma proposeValues_indep d result result' values :
  forall gw gw' w,
    value (proposeValues env d result gw values w)
    = value (proposeValues env d result' gw' values w) /\
    (value (proposeValues env d result gw values w) = None ->
     world (proposeValues env d result gw values w)
     = world (proposeValues env d result' gw' values w) /\
     trace (proposeValues env d result gw values w)
     = trace (proposeValues env d result' gw' values w)).
Proof.
  induction values as [|[key v] values IH]; intros gw gw' w; cbn [proposeValues].
  - auto.
  - rewrite !value_bind, !world_bind, !trace_bind.
    destruct (value (callDeserialize env d key (Value v) w)) as [msg|e].
    + destruct (IH (setDeserialized gw key msg) (setDeserialized gw' key msg)
                  (world (callDeserialize env d key (Value v) w))) as [V R].
      split; [exact V|]. intros N. destruct (R N) as [Ew Et]. rewrite Ew, Et. auto.
    + rewrite !value_bind. cbn [ret value fst]. split; [reflexivity | discriminate].
Qed.

Lemma proposePolicies_indep p x result result' policies :
  forall w,
    value (proposePolicies env p x result policies w)
    = value (proposePolicies env p x result' policies w) /\
    (value (proposePolicies env p x result policies w) = None ->
     world (proposePolicies env p x result policies w)
     = world (proposePolicies env p x result' policies w) /\
     trace (proposePolicies env p x result policies w)
     = trace (proposePolicies env p x result' policies w)).
Proof.
  induction policies as [|[key pol] policies IH]; intros w; cbn [proposePolicies].
  - auto.
  - rewrite !value_bind, !world_bind, !trace_bind.
    destruct (value (callProposePolicy env p x key pol w)) as [e|].
    + rewrite !value_bind. cbn [ret value fst]. split; [reflexivity | discriminate].
    + destruct (IH (world (callProposePolicy env p x key pol w))) as [V R].
      split; [exact V|]. intros N. destruct (R N) as [Ew Et]. rewrite Ew, Et. auto.
Qed.

Lemma proposeValues_sim rho d result result' values gw gw' w w' :
  within rho (placeOfDeserializer L d) -> insideResult L rho result -> agreeIn L rho w w' ->
  value (proposeValues env d result gw values w)
  = value (proposeValues env d result' gw' values w') /\
  (value (proposeValues env d result gw values w) = None ->
   trace (proposeValues env d result gw values w)
   = trace (proposeValues env d result' gw' values w') /\
   agreeIn L rho (world (proposeValues env d result gw values w))
                 (world (proposeValues env d result' gw' values w'))).
Proof.
  intros Wd I A.
  destruct (proj1 (@LocalTo_proposeValues rho d result values Wd I gw) w w' A) as (V & T & W).
  destruct (proposeValues_indep d result result' values gw gw' w') as [V' R].
  split; [rewrite V; exact V'|]. intros N. rewrite V in N. destruct (R N) as [Ew Et].
  rewrite T, Et. split; [reflexivity|]. rewrite <- Ew. exact W.
Qed.

Lemma proposePolicies_sim rho p x result result' policies w w' :
  within rho (placeOf L (PolicyHandler p)) -> insideResult L rho result -> agreeIn L rho w w' ->
  value (proposePolicies env p x result policies w)
  = value (proposePolicies env p x result' policies w') /\
  (value (proposePolicies env p x result policies w) = None ->
   trace (proposePolicies env p x result policies w)
   = trace (proposePolicies env p x result' policies w') /\
   agreeIn L rho (world (proposePolicies env p x result policies w))
                 (world (proposePolicies env p x result' policies w'))).
Proof.
  intros Wp I A.
  destruct (proj1 (@LocalTo_proposePolicies rho p x result policies Wp I) w w' A) as (V & T & W).
  destruct (proposePolicies_indep p x result result' policies w') as [V' R].
  split; [rewrite V; exact V'|]. intros N. rewrite V in N. destruct (R N) as [Ew Et].
  rewrite T, Et. split; [reflexivity|]. rewrite <- Ew. exact W.
Qed.

Lemma leafCalls_preCommit cr w :
  value (preCommit env cr w) = None -> leafCalls (trace (preCommit env cr w)) = [].
Proof.
  intros N. pose proof (preCommit_spec cr w) as (_ & _ & E). rewrite N in E.
  rewrite E. apply leafCalls_preCommitCalls.
Qed.

Lemma proposeOwn_value x g p d result w :
  value (proposeOwn env x g p d result w) =
  match value (proposeValues env d result (newConfigGroupWrapper Msg g) (Values g) w) with
  | Some e => Err e
  | None =>
      match value (proposePolicies env p x result (Policies g)
                     (world (proposeValues env d result (newConfigGroupWrapper Msg g) (Values g) w)))
      with
      | Some e => Err e
      | None =>
          match value (preCommit env result
                         (world (proposePolicies env p x result (Policies g)
                            (world (proposeValues env d result (newConfigGroupWrapper Msg g)
                                      (Values g) w)))))
          with
          | Some e => Err e
          | None => Ok result
          end
      end
  end.
Proof.
  unfold proposeOwn. rewrite value_bind.
  destruct (value (proposeValues _ _ _ _ _ _)); [reflexivity|]. rewrite value_bind.
  destruct (value (proposePolicies _ _ _ _ _ _)); [reflexivity|]. rewrite value_bind.
  destruct (value (preCommit _ _ _)); [|reflexivity]. rewrite value_bind. reflexivity.
Qed.

Lemma proposeOwn_ok x g p d result w cr :
  value (proposeOwn env x g p d result w) = Ok cr ->
  value (proposeValues env d result (newConfigGroupWrapper Msg g) (Values g) w) = None /\
  value (proposePolicies env p x result (Policies g)
           (world (proposeValues env d result (newConfigGroupWrapper Msg g) (Values g) w))) = None /\
  value (preCommit env result
           (world (proposePolicies env p x result (Policies g)
              (world (proposeValues env d result (newConfigGroupWrapper Msg g) (Values g) w)))))
    = None /\
  cr = result /\
  world (proposeOwn env x g p d result w) =
    world (preCommit env result
             (world (proposePolicies env p x result (Policies g)
                (world (proposeValues env d result (newConfigGroupWrapper Msg g) (Values g) w))))) /\
  trace (proposeOwn env x g p d result w) =
    trace (proposeValues env d result (newConfigGroupWrapper Msg g) (Values g) w)
      ++ trace (proposePolicies env p x result (Policies g)
                  (world (proposeValues env d result (newConfigGroupWrapper Msg g) (Values g) w)))
      ++ trace (preCommit env result
                  (world (proposePolicies env p x result (Policies g)
                     (world (proposeValues env d result (newConfigGroupWrapper Msg g)
                               (Values g) w))))).
Proof.
  rewrite proposeOwn_value. unfold proposeOwn.
  rewrite !world_bind, !trace_bind.
  destruct (value (proposeValues _ _ _ _ _ _)); [discriminate|].
  rewrite !world_bind, !trace_bind.
  destruct (value (proposePolicies _ _ _ _ _ _)); [discriminate|].
  rewrite !world_bind, !trace_bind.
  destruct (value (preCommit _ _ _)); [discriminate|].
  intros [= <-]. cbn [ret world trace fst snd]. rewrite app_nil_r. repeat split.
Qed.

Lemma proposeOwn_sim rho x g g' p d result result' :
  within rho (placeOfDeserializer L d) -> within rho (placeOf L (PolicyHandler p)) ->
  Values g' = Values g -> Policies g' = Policies g ->
  scopedAt L rho result -> sameResult result result' ->
  forall w w',
    agreeIn L rho w w' ->
    grSim L rho (proposeOwn env x g p d result w) (proposeOwn env x g' p d result' w').
Proof.
  intros Wd Wp EV EP Sc SR w w' A.
  destruct (sameResult_preCommit SR Sc) as [Sc' Sim].
  pose proof (@scopedAt_inside _ _ Sc) as I.
  destruct (@proposeValues_sim rho d result result' (Values g) (newConfigGroupWrapper Msg g)
              (newConfigGroupWrapper Msg g') w w' Wd I A) as [Vv Rv].
  unfold grSim.
  destruct (value (proposeOwn env x g p d result w)) as [cr|e] eqn:O,
           (value (proposeOwn env x g' p d result' w')) as [cr'|e'] eqn:O'; [| | |exact Logic.I].
  - apply proposeOwn_ok in O as (N1 & N2 & N3 & -> & Ew & Et).
    apply proposeOwn_ok in O' as (N1' & N2' & N3' & -> & Ew' & Et').
    rewrite EV, EP in *.
    destruct (Rv N1) as [Tv Av].
    destruct (@proposePolicies_sim rho p x result result' (Policies g) _ _ Wp I Av) as [Vp Rp].
    destruct (Rp N2) as [Tp Ap].
    destruct (Sim _ _ Ap) as [_ Wc].
    split; [exact SR|]. split.
    + rewrite Et, Et', !leafCalls_app, Tv, Tp.
      rewrite (leafCalls_preCommit _ _ N3), (leafCalls_preCommit _ _ N3'). reflexivity.
    + rewrite Ew, Ew'. apply Wc, N3.
  - apply proposeOwn_ok in O as (N1 & N2 & N3 & -> & _ & _).
    rewrite proposeOwn_value in O'. rewrite EV, EP in O'.
    rewrite <- Vv, N1 in O'. destruct (Rv N1) as [Tv Av].
    destruct (@proposePolicies_sim rho p x result result' (Policies g) _ _ Wp I Av) as [Vp Rp].
    rewrite <- Vp, N2 in O'. destruct (Rp N2) as [Tp Ap].
    destruct (Sim _ _ Ap) as [Ic _]. rewrite (proj1 Ic N3) in O'. discriminate.
  - apply proposeOwn_ok in O' as (N1' & N2' & N3' & -> & _ & _).
    rewrite EV, EP in *.
    rewrite proposeOwn_value in O.
    rewrite Vv, N1' in O. rewrite <- Vv in N1'. destruct (Rv N1') as [Tv Av].
    destruct (@proposePolicies_sim rho p x result result' (Policies g) _ _ Wp I Av) as [Vp Rp].
    rewrite Vp, N2' in O. rewrite <- Vp in N2'. destruct (Rp N2') as [Tp Ap].
    destruct (Sim _ _ Ap) as [Ic _]. rewrite (proj2 Ic N3') in O. discriminate.
Qed.

(** *** One node *)

Lemma agreeIn_after_calls rho place (R R' : Type)
    (call : World -> R * World) (call' : World -> R' * World) w w' :
  onlyAt L place call -> onlyAt L place call' ->
  agreeIn L rho w w' ->
  stateAt L place (snd (call w)) = stateAt L place (snd (call' w')) ->
  agreeIn L rho (snd (call w)) (snd (call' w')).
Proof.
  intros [_ F] [_ F'] A S pi W. destruct (place_dec pi place) as [->|N]; [exact S|].
  rewrite F, F' by exact N. apply A, W.
Qed.

Lemma proposeGroup_beginValue_fails x name g h p w e w1 :
  BeginValueProposals env h x (map fst (Groups g)) w = (Err e, w1) ->
  value (proposeGroup env x name g h p w) = Err e.
Proof.
  intros BV. rewrite proposeGroup_unfold.
  rewrite (bind_run _ _ _ (callBeginValueProposals_run h x _ w)), BV. reflexivity.
Qed.

Lemma proposeGroup_beginPolicy_fails x name g h p w d hs w1 e w2 :
  BeginValueProposals env h x (map fst (Groups g)) w = (Ok (d, hs), w1) ->
  BeginPolicyProposals env p x (map fst (Groups g)) w1 = (Err e, w2) ->
  value (proposeGroup env x name g h p w) = Err e.
Proof.
  intros BV BP. rewrite proposeGroup_unfold.
  rewrite (bind_run _ _ _ (callBeginValueProposals_run h x _ w)), BV. cbn [fst snd errOf].
  rewrite (bind_run _ _ _ (callBeginPolicyProposals_run p x _ w1)), BP. reflexivity.
Qed.

Lemma Forall2_map_self (A B : Type) (R : A -> B -> Prop) (f : A -> B) l :
  Forall2 R l (map f l) -> Forall (fun a => R a (f a)) l.
Proof.
  induction l as [|a l IH]; intros F; [constructor|].
  cbn [map] in F. inversion F; subst. constructor; auto.
Qed.

Lemma leafCalls_begin h x ns p ns' :
  leafCalls [EvBeginValueProposals h x ns None; EvBeginPolicyProposals p x ns' None] = [].
Proof. reflexivity. Qed.

Lemma node_sim rho x name gs gs' vs ps h p
    (RL : list configResult -> list configResult -> Prop) :
  placeOf L (ValueHandler h) = rho -> placeOf L (PolicyHandler p) = rho ->
  Permutation (map fst gs) (map fst gs') ->
  distinctNames (mkConfigGroup gs vs ps) ->
  (forall rs rs',
      RL rs rs' ->
      sameResult (mkConfigResult x (ValueHandler h) (PolicyHandler p) rs)
                 (mkConfigResult x (ValueHandler h) (PolicyHandler p) rs')) ->
  (forall f fp,
      placedBelow L rho f fp gs ->
      forall w w',
        agreeIn L rho w w' ->
        crSim L rho RL (subRuns env x name f fp gs w) (subRuns env x name f fp gs' w')) ->
  forall w w',
    agreeIn L rho w w' ->
    grSim L rho (proposeGroup env x name (mkConfigGroup gs vs ps) h p w)
                (proposeGroup env x name (mkConfigGroup gs' vs ps) h p w').
Proof.
  intros Ph Pp Perm D HRL Hloop w w' A.
  inversion D as [gs0 vs0 ps0 ND Dc]; subst gs0 vs0 ps0.
  destruct byName as (BVa & BPa & BVs & BPs).
  destruct local as (LBV & LBP & _).
  set (g := mkConfigGroup gs vs ps). set (g' := mkConfigGroup gs' vs ps).
  assert (Wh : within rho (placeOf L (ValueHandler h))) by (rewrite Ph; apply within_refl).
  assert (Wp : within rho (placeOf L (PolicyHandler p))) by (rewrite Pp; apply within_refl).
  (* BeginValueProposals *)
  destruct (BVa h x (map fst gs) (map fst gs') w w' Perm (A _ Wh)) as [Ag S1].
  pose proof (agreeIn_after_calls (LBV h x (map fst gs)) (LBV h x (map fst gs')) A S1) as A1.
  destruct (BeginValueProposals env h x (map fst gs) w) as [r1 w1] eqn:E1.
  destruct (BeginValueProposals env h x (map fst gs') w') as [r1' w1'] eqn:E1'.
  cbn [fst snd] in Ag, S1, A1.
  destruct r1 as [[d hs]|e], r1' as [[d' hs']|e']; cbn [beginValueAgree] in Ag;
    try contradiction.
  2:{ unfold grSim.
      rewrite (@proposeGroup_beginValue_fails x name g h p w e w1 E1).
      rewrite (@proposeGroup_beginValue_fails x name g' h p w' e' w1' E1'). exact Logic.I. }
  destruct Ag as (<- & f & -> & ->).
  destruct (BVs h x (map fst gs) w d (map f (map fst gs))) as [Pd Fh]; [rewrite E1; reflexivity|].
  (* BeginPolicyProposals *)
  destruct (BPa p x (map fst gs) (map fst gs') w1 w1' Perm (A1 _ Wp)) as [Ag2 S2].
  pose proof (agreeIn_after_calls (LBP p x (map fst gs)) (LBP p x (map fst gs')) A1 S2) as A2.
  destruct (BeginPolicyProposals env p x (map fst gs) w1) as [r2 w2] eqn:E2.
  destruct (BeginPolicyProposals env p x (map fst gs') w1') as [r2' w2'] eqn:E2'.
  cbn [fst snd] in Ag2, S2, A2.
  destruct r2 as [pps|e], r2' as [pps'|e']; cbn [beginPolicyAgree] in Ag2; try contradiction.
  2:{ unfold grSim.
      rewrite (@proposeGroup_beginPolicy_fails x name g h p w _ _ w1 e w2 E1 E2).
      rewrite (@proposeGroup_beginPolicy_fails x name g' h p w' _ _ w1' e' w2' E1' E2').
      exact Logic.I. }
  destruct Ag2 as (fp & -> & ->).
  pose proof (BPs p x (map fst gs) w1 (map fp (map fst gs))) as Fp.
  rewrite E2 in Fp. specialize (Fp eq_refl).
  rewrite Ph in Pd, Fh. rewrite Pp in Fp.
  assert (PB : placedBelow L rho f fp gs).
  { unfold placedBelow. apply Forall2_map_self in Fh. apply Forall2_map_self in Fp.
    rewrite Forall_map in Fh, Fp. rewrite Forall_forall in *. intros ng I. auto. }
  (* the sub-groups *)
  destruct (Hloop f fp PB w2 w2' A2) as [I R].
  pose proof (@proposeGroup_by_name x name g h p w d f fp w1 w2 E1 E2) as Run.
  pose proof (@proposeGroup_by_name x name g' h p w' d f fp w1' w2' E1' E2') as Run'.
  cbn [Groups g g'] in Run, Run'.
  pose proof (subRuns_ChildRuns x name f fp gs w2) as HC.
  destruct (snd (value (subRuns env x name f fp gs w2))) as [e|],
           (snd (value (subRuns env x name f fp gs' w2'))) as [e'|].
  - unfold grSim. rewrite Run, Run'. exact Logic.I.
  - destruct I as [_ I]. discriminate (I eq_refl).
  - destruct I as [I _]. discriminate (I eq_refl).
  - destruct (R eq_refl) as (Rl & Pl & A3). cbn zeta in Run, Run'.
    assert (Sc : scopedAt L rho
                   (mkConfigResult x (ValueHandler h) (PolicyHandler p)
                      (fst (value (subRuns env x name f fp gs w2))))).
    { assert (IH' : Forall (fun ng => forall x rho name h p w cr w' t,
                placeOf L (ValueHandler h) = rho -> placeOf L (PolicyHandler p) = rho ->
                proposeGroup env x name (snd ng) h p w = (Ok cr, w', t) -> scopedAt L rho cr) gs).
      { rewrite Forall_forall in *. intros ng Ing. intros.
        eapply (@proposeGroup_scoped (snd ng)); eauto. }
      pose proof (@ChildRuns_scoped rho x name gs _ _ _ _ _ _ _ IH' Fh Fp HC eq_refl) as F.
      destruct (@scoped_subs _ _ _ ND F) as [ND' F']. constructor; auto. }
    assert (Wd : within rho (placeOfDeserializer L d)) by (rewrite Pd; apply within_refl).
    pose proof (@proposeOwn_sim rho x g g' p d _ _ Wd Wp eq_refl eq_refl Sc (HRL _ _ Rl)
                  _ _ A3) as G.
    unfold grSim in *. rewrite Run, Run'. cbn [value world trace fst snd].
    destruct (value (proposeOwn env x g p d _ _)) as [cr|e],
             (value (proposeOwn env x g' p d _ _)) as [cr'|e']; try contradiction;
      [|exact Logic.I].
    destruct G as (SR & Pl' & A4). split; [exact SR|]. split; [|exact A4].
    rewrite !leafCalls_app, !leafCalls_begin. cbn [app]. apply Permutation_app; assumption.
Qed.

(** *** The whole tree *)

Lemma grSim_trans rho a b c : grSim L rho a b -> grSim L rho b c -> grSim L rho a c.
Proof.
  unfold grSim.
  destruct (value a) as [ra|ea], (value b) as [rb|eb], (value c) as [rc|ec];
    try contradiction; try (intros; exact Logic.I).
  intros (S1 & P1 & W1) (S2 & P2 & W2).
  split; [eapply sameResult_trans; eassumption|].
  split; [eapply perm_trans; eassumption | eapply agreeIn_trans; eassumption].
Qed.

Lemma sameTree_sim g g' :
  sameTree g g' -> distinctNames g ->
  distinctNames g' /\
  forall rho x name h p w w',
    placeOf L (ValueHandler h) = rho -> placeOf L (PolicyHandler p) = rho ->
    agreeIn L rho w w' ->
    grSim L rho (proposeGroup env x name g h p w) (proposeGroup env x name g' h p w').
Proof.
  induction 1 as [gs gs' vs ps P | pre n c c' post vs ps ST IH | g1 g2 g3 S12 IH12 S23 IH23];
    intros D.
  - inversion D as [gs0 vs0 ps0 ND Dc]; subst. split.
    + constructor.
      * eapply Permutation_NoDup; [|exact ND]. apply Permutation_map, P.
      * eapply Permutation_Forall; eassumption.
    + intros rho x name h p w w' Ph Pp A.
      apply node_sim with (RL := @Permutation configResult); auto.
      * apply Permutation_map, P.
      * intros rs rs' Pr. apply sameResult_perm, Pr.
      * intros f fp PB. apply subRuns_perm; assumption.
  - inversion D as [gs0 vs0 ps0 ND Dc]; subst.
    assert (Dc0 := Dc). apply Forall_app in Dc0 as [Dpre Dc0].
    apply Forall_cons_iff in Dc0 as [Dn Dpost]. cbn [snd] in Dn.
    destruct (IH Dn) as [Dn' Sim].
    assert (En : map fst (pre ++ (n, c') :: post) = map fst (pre ++ (n, c) :: post))
      by (rewrite !map_app; reflexivity).
    split.
    + constructor; [rewrite En; exact ND|].
      apply Forall_app. split; [exact Dpre | constructor; assumption].
    + intros rho x name h p w w' Ph Pp A.
      apply node_sim with
        (RL := fun rs rs' => exists rpre r r' rpost,
                   rs = rpre ++ r :: rpost /\ rs' = rpre ++ r' :: rpost /\ sameResult r r');
        auto.
      * rewrite En. apply Permutation_refl.
      * intros rs rs' (rpre & r & r' & rpost & -> & -> & SR). apply sameResult_child, SR.
      * intros f fp PB. apply subRuns_child; [exact PB|].
        unfold placedBelow in PB. apply Forall_app in PB as [_ PB].
        apply Forall_cons_iff in PB as [[Phn Ppn] _]. cbn [fst] in Phn, Ppn.
        intros v v' Av. apply Sim; assumption.
  - destruct (IH12 D) as [D2 Sim12]. destruct (IH23 D2) as [D3 Sim23].
    split; [exact D3|]. intros rho x name h p w w' Ph Pp A.
    eapply grSim_trans; [apply Sim12; eassumption | apply Sim23; auto using agreeIn_refl].
Qed.



End OrderIndependence.


(** * Further properties of the cascades and of proposeGroup *)

(** ** preCommit stops at the first failure *)

Lemma stoppedAt_after pre listing made e :
  stoppedAt listing made e -> stoppedAt (pre ++ listing) (pre ++ made) e.
Proof.
  intros (before & t & x & rest & -> & ->).
  exists (pre ++ before), t, x, rest. rewrite <- !app_assoc. split; reflexivity.
Qed.

Lemma stoppedAt_before listing made e post :
  stoppedAt listing made e -> stoppedAt (listing ++ post) made e.
Proof.
  intros (before & t & x & rest & -> & ->).
  exists before, t, x, (rest ++ post). rewrite <- app_assoc. split; reflexivity.
Qed.

Lemma preCommitSubResults_stops subs :
  Forall (fun s => forall w,
            match value (preCommit env s w) with
            | None => trace (preCommit env s w) = preCommitCalls s
            | Some e => stoppedAt (preCommitCalls s) (trace (preCommit env s w)) e
            end) subs ->
  forall w,
    match value (preCommitSubResults (preCommit env) subs w) with
    | None => trace (preCommitSubResults (preCommit env) subs w) = flat_map preCommitCalls subs
    | Some e => stoppedAt (flat_map preCommitCalls subs)
                  (trace (preCommitSubResults (preCommit env) subs w)) e
    end.
Proof.
  induction 1 as [|s subs Hs _ IH]; intros w.
  - reflexivity.
  - cbn [preCommitSubResults flat_map]. rewrite value_bind, trace_bind.
    specialize (Hs w). destruct (value (preCommit env s w)) as [e|].
    + cbn [ret value trace fst snd]. rewrite app_nil_r. apply stoppedAt_before, Hs.
    + specialize (IH (world (preCommit env s w))). rewrite Hs.
      destruct (value (preCommitSubResults (preCommit env) subs _)) as [e|].
      * apply stoppedAt_after, IH.
      * rewrite IH. reflexivity.
Qed.

Lemma preCommit_stops cr w :
  match value (preCommit env cr w) with
  | None => trace (preCommit env cr w) = preCommitCalls cr
  | Some e => stoppedAt (preCommitCalls cr) (trace (preCommit env cr w)) e
  end.
Proof.
  revert w. induction cr as [x h p subs IH] using configResult_tree_ind. intros w.
  unfold preCommitCalls at 1 2. rewrite postOrder_unfold.
  cbn [preCommit subResults handler tx ownPreCommitCall].
  rewrite value_bind, trace_bind.
  pose proof (preCommitSubResults_stops IH w) as S.
  destruct (value (preCommitSubResults (preCommit env) subs w)) as [e|].
  - cbn [ret value trace fst snd]. rewrite app_nil_r. apply stoppedAt_before, S.
  - rewrite S. unfold callPreCommit.
    destruct (PreCommit env h x _) as [[e|] w1]; cbn [value trace fst snd].
    + exists (flat_map preCommitCalls subs), h, x, []. split; reflexivity.
    + reflexivity.
Qed.

(** X1: [preCommit] goes through the post-order listing of the result tree
    and stops at the first PreCommit call that returns an error: when it
    returns nil it has made every call of the listing; when it returns an
    error the calls made are the listing up to the failing call, the error
    is the one that call returned, and no later call of the listing was
    made.  In both cases PreCommit is the only method called. *)
Theorem preCommit_stops_at_first_failure cr w :
  match value (preCommit env cr w) with
  | None => trace (preCommit env cr w) = preCommitCalls cr
  | Some e => stoppedAt (preCommitCalls cr) (trace (preCommit env cr w)) e
  end
  /\ Forall (fun ev => methodOf ev = MPreCommit) (trace (preCommit env cr w)).
Proof.
  pose proof (preCommit_stops cr w) as S. split; [exact S|].
  assert (L : Forall (fun ev => methodOf ev = MPreCommit) (preCommitCalls cr)).
  { apply postOrder_Forall with (P := fun ev => methodOf ev = MPreCommit).
    intros n. repeat constructor. }
  destruct (value (preCommit env cr w)) as [e|].
  - destruct S as (before & t & x & rest & EL & ->). rewrite EL in L.
    apply Forall_app in L as [Lb _]. apply Forall_app. split; [exact Lb|].
    repeat constructor.
  - rewrite S. exact L.
Qed.

(** ** A successful proposal *)

Lemma ChildRuns_Forall (P : Event -> Prop) x name gs hs ps w rs oe w' tc :
  Forall (fun ng => forall name h p w cr w' t,
            proposeGroup env x name (snd ng) h p w = (Ok cr, w', t) -> Forall P t) gs ->
  ChildRuns env x name gs hs ps w rs oe w' tc -> oe = None -> Forall P tc.
Proof.
  intros IH HC. induction HC as [hs ps w | n g gs h hs p ps w r w1 t1 rs oe w2 t2 E HC IHC
                                | n g gs h hs p ps w e w1 t1 E]; intros N.
  - constructor.
  - inversion IH as [|? ? Hg Hgs]; subst. apply Forall_app. split.
    + eapply Hg, E.
    + apply IHC; auto.
  - discriminate.
Qed.

(** X2: a successful [proposeGroup] is made of calls that went well: no
    call returned an error, and neither RollbackProposals nor
    CommitProposals was called. *)
Theorem proposeGroup_success_is_clean g :
  forall x name h p w cr w' t,
    proposeGroup env x name g h p w = (Ok cr, w', t) -> Forall wentWell t.
Proof.
  induction g as [gs vs pols IH] using ConfigGroup_tree_ind.
  intros x name h p w cr w' t H.
  apply proposeGroup_success in H as (d & hs & ps & w2 & w3 & tc & HC & _ & ->).
  cbn [Groups Values Policies] in *.
  apply ChildRuns_Forall with (P := wentWell) in HC;
    [|exact (Forall_impl _ (fun ng Hng => Hng x) IH)|reflexivity].
  cbn [app]. repeat (constructor; [repeat split|]).
  repeat (apply Forall_app; split); auto.
  - apply Forall_forall. intros ev I. apply in_map_iff in I as (kv & <- & _). repeat split.
  - apply Forall_forall. intros ev I. apply in_map_iff in I as (kv & <- & _). repeat split.
  - apply Forall_flat_map, Forall_forall. intros s _.
    apply postOrder_Forall with (P := wentWell). intros n. repeat constructor.
  - repeat constructor.
Qed.

Lemma callsOf_app m t1 t2 : callsOf m (t1 ++ t2) = callsOf m t1 + callsOf m t2.
Proof. unfold callsOf. rewrite filter_app, length_app. reflexivity. Qed.

Lemma callsOf_valueCalls m d values :
  callsOf m (valueCalls d values) = if Method_eqb MDeserialize m then len values else 0.
Proof.
  unfold callsOf.
  destruct (Method_eqb MDeserialize m) eqn:E; induction values as [|kv values IH];
    cbn [valueCalls map filter methodOf]; try reflexivity; rewrite E; cbn [List.length];
    [f_equal|]; exact IH.
Qed.

Lemma callsOf_policyCalls m p x policies :
  callsOf m (policyCalls p x policies) = if Method_eqb MProposePolicy m then len policies else 0.
Proof.
  unfold callsOf.
  destruct (Method_eqb MProposePolicy m) eqn:E; induction policies as [|kp policies IH];
    cbn [policyCalls map filter methodOf]; try reflexivity; rewrite E; cbn [List.length];
    [f_equal|]; exact IH.
Qed.

Lemma callsOf_preCommitCalls m cr : m <> MPreCommit -> callsOf m (preCommitCalls cr) = 0.
Proof.
  intros N. unfold callsOf. apply length_zero_iff_nil.
  assert (F : Forall (fun ev => Method_eqb (methodOf ev) m = false) (preCommitCalls cr)).
  { apply postOrder_Forall with (P := fun ev => Method_eqb (methodOf ev) m = false).
    intros n. constructor; [|constructor].
    destruct m; try reflexivity. congruence. }
  induction F as [|ev l Hev _ IHl]; [reflexivity|]. cbn [filter]. rewrite Hev. exact IHl.
Qed.

Lemma ChildRuns_callsOf m x name gs hs ps w rs oe w' tc :
  Forall (fun ng => forall name h p w cr w' t,
            proposeGroup env x name (snd ng) h p w = (Ok cr, w', t) ->
            callsOf m t = overGroups (ownCalls m) (snd ng)) gs ->
  ChildRuns env x name gs hs ps w rs oe w' tc -> oe = None ->
  callsOf m tc = list_sum (map (fun ng => overGroups (ownCalls m) (snd ng)) gs).
Proof.
  intros IH HC. induction HC as [hs ps w | n g gs h hs p ps w r w1 t1 rs oe w2 t2 E HC IHC
                                | n g gs h hs p ps w e w1 t1 E]; intros N.
  - reflexivity.
  - inversion IH as [|? ? Hg Hgs]; subst. cbn [map snd].
    rewrite callsOf_app, (Hg _ _ _ _ _ _ _ E), (IHC Hgs eq_refl). reflexivity.
  - discriminate.
Qed.

Lemma callsOf_flat_map_zero (A : Type) m (f : A -> list Event) l :
  (forall a, callsOf m (f a) = 0) -> callsOf m (flat_map f l) = 0.
Proof.
  intros Z. induction l as [|a l IH]; [reflexivity|].
  cbn [flat_map]. rewrite callsOf_app, Z, IH. reflexivity.
Qed.

(** The number of calls of a method other than PreCommit in a successful
    [proposeGroup] is the sum over the nodes of the tree of the calls a node
    makes for itself. *)
Lemma proposeGroup_success_counts m g :
  m <> MPreCommit ->
  forall x name h p w cr w' t,
    proposeGroup env x name g h p w = (Ok cr, w', t) ->
    callsOf m t = overGroups (ownCalls m) g.
Proof.
  intros N. induction g as [gs vs pols IH] using ConfigGroup_tree_ind.
  intros x name h p w cr w' t H.
  apply proposeGroup_success in H as (d & hs & ps & w2 & w3 & tc & HC & _ & ->).
  cbn [Groups Values Policies overGroups] in *.
  apply ChildRuns_callsOf with (m := m) in HC;
    [|exact (Forall_impl _ (fun ng Hng => Hng x) IH)|reflexivity].
  rewrite !callsOf_app, HC, callsOf_valueCalls, callsOf_policyCalls.
  rewrite (callsOf_flat_map_zero m preCommitCalls (subResults cr)
             (fun s => callsOf_preCommitCalls s N)).
  unfold callsOf at 1 2. cbn [filter methodOf].
  destruct m; cbn [Method_eqb ownCalls Values Policies len]; try lia. congruence.
Qed.

Lemma proposalsOf_app t1 t2 : proposalsOf (t1 ++ t2) = proposalsOf t1 ++ proposalsOf t2.
Proof. apply flat_map_app. Qed.

Lemma proposalsOf_valueCalls d values :
  proposalsOf (valueCalls d values) = map (fun kv => ValueOf (fst kv) (Value (snd kv))) values.
Proof. induction values as [|kv values IH]; [reflexivity|]. simpl. f_equal. exact IH. Qed.

Lemma proposalsOf_policyCalls p x policies :
  proposalsOf (policyCalls p x policies) =
  map (fun kp => PolicyOn (PolicyHandler p) x (fst kp) (snd kp)) policies.
Proof. induction policies as [|kp policies IH]; [reflexivity|]. simpl. f_equal. exact IH. Qed.

Lemma proposalsOf_none t : Forall (fun ev => proposalOf ev = []) t -> proposalsOf t = [].
Proof. induction 1 as [|ev t E _ IH]; [reflexivity|]. simpl. rewrite E. exact IH. Qed.

Lemma proposalsOf_preCommitCalls subs : proposalsOf (flat_map preCommitCalls subs) = [].
Proof.
  apply proposalsOf_none, Forall_flat_map, Forall_forall. intros s _.
  apply postOrder_Forall with (P := fun ev => proposalOf ev = []). intros n. repeat constructor.
Qed.

Lemma ChildRuns_proposals x name gs hs ps w rs oe w' tc :
  Forall (fun ng => forall name h p w cr w' t,
            proposeGroup env x name (snd ng) h p w = (Ok cr, w', t) ->
            proposalsOf t = proposals (snd ng) cr) gs ->
  ChildRuns env x name gs hs ps w rs oe w' tc -> oe = None ->
  proposalsOf tc = overSubGroups proposals gs rs.
Proof.
  intros IH HC. induction HC as [hs ps w | n g gs h hs p ps w r w1 t1 rs oe w2 t2 E HC IHC
                                | n g gs h hs p ps w e w1 t1 E]; intros N.
  - reflexivity.
  - inversion IH as [|? ? Hg Hgs]; subst. cbn [overSubGroups].
    rewrite proposalsOf_app, (Hg _ _ _ _ _ _ _ E), (IHC Hgs eq_refl). reflexivity.
  - discriminate.
Qed.

Lemma proposals_unfold g cr :
  proposals g cr =
  [BeginValuesOn (handler cr) (tx cr) (map fst (Groups g));
   BeginPoliciesOn (policyHandler cr) (tx cr) (map fst (Groups g))]
    ++ overSubGroups proposals (Groups g) (subResults cr)
    ++ map (fun kv => ValueOf (fst kv) (Value (snd kv))) (Values g)
    ++ map (fun kp => PolicyOn (policyHandler cr) (tx cr) (fst kp) (snd kp)) (Policies g).
Proof. destruct g. reflexivity. Qed.

(** X3: the proposal calls of a successful [proposeGroup], in order, are
    the listing [proposals] of the tree paired with the result: for every
    node, one BeginValueProposals call on the value handler and one
    BeginPolicyProposals call on the policy handler that the result records
    for the node, both with the names of the node's sub-groups; then the
    proposals of its sub-groups; then one Deserialize call for each value of
    the node, with its key and payload, and one ProposePolicy call for each
    policy of the node, with its key and policy, on the node's policy
    handler.  The result has the nesting of the tree, so every node is
    paired with a result. *)
Theorem proposeGroup_success_proposals g :
  forall x name h p w cr w' t,
    proposeGroup env x name g h p w = (Ok cr, w', t) ->
    proposalsOf t = proposals g cr /\ resultShape cr = groupShape g.
Proof.
  intros x name h p w cr w' t H. split; [|eapply proposeGroup_shape; eassumption].
  revert x name h p w cr w' t H.
  induction g as [gs vs pols IH] using ConfigGroup_tree_ind.
  intros x name h p w cr w' t H.
  apply proposeGroup_success in H as (d & hs & ps & w2 & w3 & tc & HC & Ecr & ->).
  destruct cr as [y hh pp subs].
  cbn [Groups Values Policies subResults] in *. inversion Ecr; subst y hh pp; clear Ecr.
  rewrite proposals_unfold. cbn [Groups Values Policies handler policyHandler tx subResults].
  apply ChildRuns_proposals in HC;
    [|exact (Forall_impl _ (fun ng Hng => Hng x) IH)|reflexivity].
  rewrite !proposalsOf_app, HC, proposalsOf_valueCalls, proposalsOf_policyCalls,
    proposalsOf_preCommitCalls.
  cbn [proposalsOf flat_map proposalOf app]. rewrite app_nil_r. reflexivity.
Qed.

Lemma ChildRuns_handlers x name gs hs ps w rs oe w' tc :
  ChildRuns env x name gs hs ps w rs oe w' tc -> oe = None ->
  len hs = len gs -> len ps = len gs ->
  map handler rs = map ValueHandler hs /\
  map policyHandler rs = map PolicyHandler ps /\
  Forall (fun r => tx r = x) rs.
Proof.
  intros HC. induction HC as [hs ps w | n g gs h hs p ps w r w1 t1 rs oe w2 t2 E HC IHC
                             | n g gs h hs p ps w e w1 t1 E]; intros N Lh Lp.
  - destruct hs; [|discriminate]. destruct ps; [|discriminate]. repeat split; constructor.
  - cbn [List.length] in Lh, Lp.
    destruct (IHC N) as (Hh & Hp & Hx); [lia | lia |].
    apply proposeGroup_success in E as (_ & _ & _ & _ & _ & _ & _ & -> & _).
    cbn [map handler policyHandler]. rewrite Hh, Hp. repeat split.
    constructor; [reflexivity | exact Hx].
  - discriminate.
Qed.

(** X4: what a successful [proposeGroup] returns.  The result holds the
    context and the two handlers that were passed in, and one sub-result per
    sub-group, in the order of enumeration; the sub-result at index [i]
    holds the handlers that the Begin calls returned at index [i], and the
    same context. *)
Theorem proposeGroup_result_handlers x name g h p w d hs w1 ps w2 cr w' t :
  BeginValueProposals env h x (map fst (Groups g)) w = (Ok (d, hs), w1) ->
  BeginPolicyProposals env p x (map fst (Groups g)) w1 = (Ok ps, w2) ->
  proposeGroup env x name g h p w = (Ok cr, w', t) ->
  tx cr = x /\ handler cr = ValueHandler h /\ policyHandler cr = PolicyHandler p /\
  len (subResults cr) = len (Groups g) /\
  map handler (subResults cr) = map ValueHandler hs /\
  map policyHandler (subResults cr) = map PolicyHandler ps /\
  Forall (fun r => tx r = x) (subResults cr).
Proof.
  intros BV BP H. apply proposeGroup_case in H. inversion H; subst; clear H.
  repeat match goal with
         | H1 : ?a = _, H2 : ?a = _ |- _ => rewrite H1 in H2; inversion H2; subst; clear H2
         end.
  match goal with HO' : proposeOwn _ _ _ _ _ _ _ = _ |- _ =>
    destruct (proposeOwn_spec _ _ _ _ _ _ HO') as [Hres _] end.
  rewrite (Hres cr eq_refl). cbn [tx handler policyHandler subResults].
  match goal with HC : ChildRuns _ _ _ _ _ _ _ _ _ _ _ |- _ =>
    destruct (ChildRuns_handlers HC eq_refl) as (Hh & Hp & Hx); [assumption | assumption |] end.
  repeat split; auto.
  rewrite <- (length_map handler), Hh, length_map. assumption.
Qed.

(** X5: the node's own values and policies in a successful [proposeGroup].
    The values are deserialized in the order of enumeration with the
    deserializer that the node's own BeginValueProposals returned, then the
    policies are proposed in the order of enumeration on the node's own
    policy handler, each call succeeding; these calls come after the
    recursive proposals of the sub-groups, made with the handlers that the
    same BeginValueProposals returned, and are followed only by the
    preCommit cascade. *)
Theorem proposeGroup_own_values_and_policies x name g h p w d hs w1 cr w' t :
  BeginValueProposals env h x (map fst (Groups g)) w = (Ok (d, hs), w1) ->
  proposeGroup env x name g h p w = (Ok cr, w', t) ->
  exists ps w2 w3 tc,
    ChildRuns env x name (Groups g) hs ps w2 (subResults cr) None w3 tc /\
    t = [EvBeginValueProposals h x (map fst (Groups g)) None;
         EvBeginPolicyProposals p x (map fst (Groups g)) None]
          ++ tc
          ++ map (fun kv => EvDeserialize d (fst kv) (Value (snd kv)) None) (Values g)
          ++ map (fun kp => EvProposePolicy p x (fst kp) (snd kp) None) (Policies g)
          ++ preCommitCalls cr.
Proof.
  intros BV H. apply proposeGroup_case in H. inversion H; subst; clear H.
  repeat match goal with
         | H1 : ?a = _, H2 : ?a = _ |- _ => rewrite H1 in H2; inversion H2; subst; clear H2
         end.
  match goal with HO' : proposeOwn _ _ _ _ _ _ _ = _ |- _ =>
    destruct (proposeOwn_spec _ _ _ _ _ _ HO') as [Hres HO] end.
  rewrite (Hres cr eq_refl) in *. cbn [errOf ownFacts subResults] in *. subst town.
  eexists _, _, _, _. split; [eassumption | reflexivity].
Qed.

(** ** Committing or rolling back a result *)

Lemma length_flat_map_sum (A B : Type) (f : A -> list B) l :
  len (flat_map f l) = list_sum (map (fun a => len (f a)) l).
Proof.
  induction l as [|a l IH]; [reflexivity|].
  cbn [flat_map map]. rewrite length_app, IH. reflexivity.
Qed.

Lemma postOrder_length own cr :
  (forall n, len (own n) = 2) ->
  len (postOrder own cr) = 2 * shapeNodes (resultShape cr).
Proof.
  intros Hown. induction cr as [x h p subs IH] using configResult_tree_ind.
  rewrite postOrder_unfold, length_app, Hown, length_flat_map_sum.
  cbn [subResults resultShape shapeNodes]. rewrite map_map.
  rewrite (list_sum_map_ext (fun s => len (postOrder own s))
             (fun s => 2 * shapeNodes (resultShape s)) IH).
  clear IH. induction subs as [|s subs IHs]; [reflexivity|].
  cbn [map] in *. unfold list_sum in *. cbn [fold_right] in *. lia.
Qed.

(** X6: committing, or rolling back, the result of a successful
    [processConfig].  The cascade makes two calls per node of the result,
    that is, two for each node of the channel group's tree and two for the
    synthetic root; all of them are CommitProposals calls (resp.
    RollbackProposals calls), and all are given the channel group as
    context. *)
Theorem cascade_after_processConfig cm g w cr w' t :
  processConfig env RootGroupKey cm g w = (Ok cr, w', t) ->
  forall w2,
    len (trace (commit env cr w2)) = 2 * S (shapeNodes (groupShape g)) /\
    Forall (fun ev => methodOf ev = MCommitProposals /\ givenTx g ev) (trace (commit env cr w2)) /\
    len (trace (rollback env cr w2)) = 2 * S (shapeNodes (groupShape g)) /\
    Forall (fun ev => methodOf ev = MRollbackProposals /\ givenTx g ev)
      (trace (rollback env cr w2)).
Proof.
  intros H w2. rewrite processConfig_run in H.
  assert (N : shapeNodes (resultShape cr) = S (shapeNodes (groupShape g))).
  { rewrite (proposeGroup_shape _ _ _ _ _ _ H). cbn [helperGroup groupShape Groups map snd].
    cbn [shapeNodes map]. unfold list_sum. cbn [fold_right]. rewrite Nat.add_0_r. reflexivity. }
  apply proposeGroup_facts in H as (_ & _ & A & _). specialize (A cr eq_refl).
  rewrite commit_trace, rollback_trace. unfold commitCalls, rollbackCalls.
  rewrite !postOrder_length, N by reflexivity.
  repeat split; try reflexivity.
  - apply Forall_and.
    + apply postOrder_Forall with (P := fun ev => methodOf ev = MCommitProposals).
      intros n. repeat constructor.
    + apply postOrder_givenTx; [|exact A]. intros n <-. repeat constructor.
  - apply Forall_and.
    + apply postOrder_Forall with (P := fun ev => methodOf ev = MRollbackProposals).
      intros n. repeat constructor.
    + apply postOrder_givenTx; [|exact A]. intros n <-. repeat constructor.
Qed.

Lemma map_flat_map_ext (A B C : Type) (g : B -> C) (f1 f2 : A -> list B) l :
  Forall (fun a => map g (f1 a) = map g (f2 a)) l ->
  map g (flat_map f1 l) = map g (flat_map f2 l).
Proof.
  induction 1 as [|a l E _ IH]; [reflexivity|].
  cbn [flat_map]. rewrite !map_app, E, IH. reflexivity.
Qed.

(** X7: [rollback] undoes what [commit] would have committed: on any result
    tree the two cascades call the same handlers with the same contexts in
    the same order. *)
Theorem commit_and_rollback_same_targets cr w w' :
  map callTarget (trace (commit env cr w)) = map callTarget (trace (rollback env cr w')).
Proof.
  rewrite commit_trace, rollback_trace. unfold commitCalls, rollbackCalls.
  induction cr as [x h p subs IH] using configResult_tree_ind.
  rewrite !postOrder_unfold, !map_app. cbn [subResults]. f_equal.
  apply map_flat_map_ext. exact IH.
Qed.

(** ** PreCommit is called on value handlers only *)

Lemma notPreCommit_ok ev : methodOf ev <> MPreCommit -> notPolicyPreCommit ev.
Proof. destruct ev; intros N; try exact Logic.I. exfalso. apply N. reflexivity. Qed.

Lemma rollbackCalls_notPreCommit cr :
  Forall (fun ev => methodOf ev <> MPreCommit) (rollbackCalls cr).
Proof.
  apply postOrder_Forall with (P := fun ev => methodOf ev <> MPreCommit).
  intros n. repeat constructor; discriminate.
Qed.

Lemma proposeValues_notPreCommit d result values :
  forall gw w,
    Forall (fun ev => methodOf ev <> MPreCommit) (trace (proposeValues env d result gw values w)).
Proof.
  induction values as [|[k v] values IH]; intros gw w; [constructor|].
  cbn [proposeValues]. rewrite trace_bind. apply Forall_app. split.
  - unfold callDeserialize. destruct (Deserialize env d k (Value v) w).
    repeat constructor. discriminate.
  - destruct (value (callDeserialize env d k (Value v) w)) as [msg|e]; [apply IH|].
    rewrite trace_bind, rollback_trace. cbn [ret trace snd]. rewrite app_nil_r.
    apply rollbackCalls_notPreCommit.
Qed.

Lemma proposePolicies_notPreCommit p x result policies :
  forall w,
    Forall (fun ev => methodOf ev <> MPreCommit)
      (trace (proposePolicies env p x result policies w)).
Proof.
  induction policies as [|[k pol] policies IH]; intros w; [constructor|].
  cbn [proposePolicies]. rewrite trace_bind. apply Forall_app. split.
  - unfold callProposePolicy. destruct (ProposePolicy env p x k pol w).
    repeat constructor. discriminate.
  - destruct (value (callProposePolicy env p x k pol w)) as [e|]; [|apply IH].
    rewrite trace_bind, rollback_trace. cbn [ret trace snd]. rewrite app_nil_r.
    apply rollbackCalls_notPreCommit.
Qed.

Lemma preCommitCalls_onValueHandlers cr :
  valueHandled cr -> Forall notPolicyPreCommit (preCommitCalls cr).
Proof.
  induction cr as [x h p subs IH] using configResult_tree_ind. intros V.
  inversion V as [x' h' p' subs' Vs]; subst.
  unfold preCommitCalls. rewrite postOrder_unfold. apply Forall_app. split.
  - apply Forall_flat_map. cbn [subResults]. rewrite Forall_forall in *.
    intros s I. apply IH; auto.
  - repeat constructor.
Qed.

Lemma preCommit_onValueHandlers cr w :
  valueHandled cr -> Forall notPolicyPreCommit (trace (preCommit env cr w)).
Proof.
  intros V. pose proof (preCommitCalls_onValueHandlers V) as L.
  pose proof (preCommit_stops cr w) as S.
  destruct (value (preCommit env cr w)) as [e|].
  - destruct S as (before & t & x & rest & EL & ->). rewrite EL in L.
    apply Forall_app in L as [Lb Lr]. apply Forall_app. split; [exact Lb|].
    inversion Lr as [|? ? Lt _]; subst. constructor; [|constructor].
    destruct t; [exact Logic.I | exact Lt].
  - rewrite S. exact L.
Qed.

Lemma proposeOwn_onValueHandlers x g p d result w :
  valueHandled result ->
  Forall notPolicyPreCommit (trace (proposeOwn env x g p d result w)).
Proof.
  intros V. unfold proposeOwn. rewrite trace_bind. apply Forall_app. split.
  { eapply Forall_impl; [apply notPreCommit_ok | apply proposeValues_notPreCommit]. }
  destruct (value (proposeValues env d result _ (Values g) w)) as [e|]; [constructor|].
  rewrite trace_bind. apply Forall_app. split.
  { eapply Forall_impl; [apply notPreCommit_ok | apply proposePolicies_notPreCommit]. }
  destruct (value (proposePolicies env p x result (Policies g) _)) as [e|]; [constructor|].
  rewrite trace_bind. apply Forall_app. split; [apply preCommit_onValueHandlers, V|].
  destruct (value (preCommit env result _)) as [e|]; [|constructor].
  rewrite trace_bind, rollback_trace. cbn [ret trace snd]. rewrite app_nil_r.
  eapply Forall_impl; [apply notPreCommit_ok | apply rollbackCalls_notPreCommit].
Qed.

Lemma ChildRuns_onValueHandlers x name gs hs ps w rs oe w' tc :
  Forall (fun ng => forall name h p w r w' t,
            proposeGroup env x name (snd ng) h p w = (r, w', t) ->
            Forall notPolicyPreCommit t /\ (forall cr, r = Ok cr -> valueHandled cr)) gs ->
  ChildRuns env x name gs hs ps w rs oe w' tc ->
  Forall notPolicyPreCommit tc /\ Forall valueHandled rs.
Proof.
  intros IH HC. induction HC as [hs ps w | n g gs h hs p ps w r w1 t1 rs oe w2 t2 E HC IHC
                                | n g gs h hs p ps w e w1 t1 E].
  - split; constructor.
  - inversion IH as [|? ? Hg Hgs]; subst.
    destruct (Hg _ _ _ _ _ _ _ E) as [T V]. destruct (IHC Hgs) as [T' V'].
    split; [apply Forall_app; auto | constructor; auto].
  - inversion IH as [|? ? Hg Hgs]; subst.
    destruct (Hg _ _ _ _ _ _ _ E) as [T _]. split; [exact T | constructor].
Qed.

Lemma proposeGroup_onValueHandlers g :
  forall x name h p w r w' t,
    proposeGroup env x name g h p w = (r, w', t) ->
    Forall notPolicyPreCommit t /\ (forall cr, r = Ok cr -> valueHandled cr).
Proof.
  induction g as [gs vs pols IH] using ConfigGroup_tree_ind.
  intros x name h p w r w' t H. apply proposeGroup_case in H.
  inversion H; subst; clear H; cbn [Groups] in *.
  - split; [repeat constructor | discriminate].
  - split; [repeat constructor | discriminate].
  - split; [repeat constructor | discriminate].
  - match goal with HC : ChildRuns _ _ _ _ _ _ _ _ _ _ _ |- _ =>
      destruct (ChildRuns_onValueHandlers (Forall_impl _ (fun ng Hng => Hng x) IH) HC)
        as [T V] end.
    split; [|discriminate]. cbn [app]. repeat (constructor; [exact Logic.I|]).
    apply Forall_app. split; [exact T|].
    eapply Forall_impl; [apply notPreCommit_ok | apply rollbackCalls_notPreCommit].
  - match goal with HC : ChildRuns _ _ _ _ _ _ _ _ _ _ _ |- _ =>
      destruct (ChildRuns_onValueHandlers (Forall_impl _ (fun ng Hng => Hng x) IH) HC)
        as [T V] end.
    assert (VR : valueHandled (mkConfigResult x (ValueHandler h) (PolicyHandler p) rs))
      by (constructor; exact V).
    match goal with HO' : proposeOwn _ _ _ _ _ _ _ = _ |- _ =>
      pose proof (proposeOwn_onValueHandlers x (mkConfigGroup gs vs pols) p d w3 VR) as TO;
      destruct (proposeOwn_spec _ _ _ _ _ _ HO') as [Hres _];
      rewrite HO' in TO end.
    cbn [trace snd] in TO. split.
    + cbn [app]. repeat (constructor; [exact Logic.I|]). apply Forall_app. auto.
    + intros cr ->. rewrite (Hres cr eq_refl). exact VR.
Qed.

(** X8: [proposeGroup] calls PreCommit on value handlers only; the PreCommit
    method of a policy handler is never called, whatever the outcome. *)
Theorem proposeGroup_never_preCommits_policy_handlers x name g h p w r w' t :
  proposeGroup env x name g h p w = (r, w', t) ->
  forall q y err, ~ In (EvPreCommit (PolicyHandler q) y err) t.
Proof.
  intros H q y err I. apply proposeGroup_onValueHandlers in H as [T _].
  rewrite Forall_forall in T. exact (T _ I).
Qed.

(** ** Failure of a Begin call *)

(** X9: when a Begin call of a node fails, [proposeGroup] returns that
    error at once.  If BeginValueProposals fails it is the only call made;
    if BeginPolicyProposals fails after BeginValueProposals succeeded, the
    two Begin calls are the only calls made: no sub-group is proposed and
    RollbackProposals is not called on the value handler that has begun. *)
Theorem proposeGroup_begin_failure x name g h p w :
  (forall e w1,
      BeginValueProposals env h x (map fst (Groups g)) w = (Err e, w1) ->
      proposeGroup env x name g h p w
      = (Err e, w1, [EvBeginValueProposals h x (map fst (Groups g)) (Some e)])) /\
  (forall d hs w1 e w2,
      BeginValueProposals env h x (map fst (Groups g)) w = (Ok (d, hs), w1) ->
      BeginPolicyProposals env p x (map fst (Groups g)) w1 = (Err e, w2) ->
      proposeGroup env x name g h p w
      = (Err e, w2, [EvBeginValueProposals h x (map fst (Groups g)) None;
                     EvBeginPolicyProposals p x (map fst (Groups g)) (Some e)])).
Proof.
  split.
  - intros e w1 BV. rewrite proposeGroup_unfold.
    rewrite (bind_run _ _ _ (callBeginValueProposals_run h x _ w)), BV. reflexivity.
  - intros d hs w1 e w2 BV BP. rewrite proposeGroup_unfold.
    rewrite (bind_run _ _ _ (callBeginValueProposals_run h x _ w)), BV. cbn [fst snd errOf].
    rewrite (bind_run _ _ _ (callBeginPolicyProposals_run p x _ w1)), BP. reflexivity.
Qed.

(** ** The context is threaded unchanged *)

(** X10: [proposeGroup] hands the context it was given to every call that
    takes one, in the recursive proposals and in the rollbacks as well, and
    stores it in every node of the result it returns. *)
Theorem proposeGroup_threads_context x name g h p w r w' t :
  proposeGroup env x name g h p w = (r, w', t) ->
  Forall (fun ev => eventTx ev = None \/ eventTx ev = Some x) t /\
  (forall cr, r = Ok cr -> allTx x cr).
Proof.
  intros H. apply proposeGroup_facts in H as (_ & G & A & _). split; [|exact A].
  eapply Forall_impl; [|exact G]. intros ev. unfold givenTx.
  destruct (eventTx ev) as [y|]; [intros ->; right; reflexivity | left; reflexivity].
Qed.

End Properties.

(** * The statements at sample inputs *)

Lemma processConfig_error_commits_nothing_witness :
  ~ In (EvCommitProposals (ValueHandler 10) threeSiblings)
       (trace (processConfig (scripted (preCommitFailsOn 103)) "Channel"%string
                 sampleManager threeSiblings 0)).
Proof.
  apply (@processConfig_error_commits_nothing nat bytes (scripted (preCommitFailsOn 103))
           "Channel"%string sampleManager threeSiblings 0 "inconsistent"%string
           (world (processConfig (scripted (preCommitFailsOn 103)) "Channel"%string
                     sampleManager threeSiblings 0))).
  vm_compute. reflexivity.
Defined.

Lemma proposeGroup_length_mismatch_witness :
  value (proposeGroup (scripted (dropsOneOn 7)) leaf ""%string threeSiblings 7 7 0)
  = Err "Programming error, did not return as many handlers as groups 2 vs 3 vs 3"%string.
Proof.
  destruct (@proposeGroup_length_mismatch nat bytes (scripted (dropsOneOn 7))
              leaf ""%string threeSiblings 7 7 0 7 [72; 73] 1 [71; 72; 73] 2) as [H _].
  - reflexivity.
  - reflexivity.
  - left. simpl. lia.
  - rewrite H. reflexivity.
Defined.

Lemma proposeGroup_failed_sibling_witness :
  value (proposeGroup (scripted (preCommitFailsOn 73)) leaf ""%string threeSiblings 7 7 0)
  = Err "inconsistent"%string.
Proof.
  destruct (@proposeGroup_failed_sibling nat bytes (scripted (preCommitFailsOn 73))
              leaf ""%string threeSiblings 7 7 0
              "A"%string leaf "B"%string leaf "C"%string leaf []
              7 71 72 73 [] 1 71 72 73 [] 2
              (mkConfigResult leaf (ValueHandler 71) (PolicyHandler 71) []) 5
              [EvBeginValueProposals 71 leaf [] None; EvBeginPolicyProposals 71 leaf [] None;
               EvPreCommit (ValueHandler 71) leaf None]
              (mkConfigResult leaf (ValueHandler 72) (PolicyHandler 72) []) 8
              [EvBeginValueProposals 72 leaf [] None; EvBeginPolicyProposals 72 leaf [] None;
               EvPreCommit (ValueHandler 72) leaf None]
              "inconsistent"%string 13
              [EvBeginValueProposals 73 leaf [] None; EvBeginPolicyProposals 73 leaf [] None;
               EvPreCommit (ValueHandler 73) leaf (Some "inconsistent"%string);
               EvRollbackProposals (ValueHandler 73) leaf;
               EvRollbackProposals (PolicyHandler 73) leaf])
    as (w6 & t & R & _ & _).
  - reflexivity.
  - reflexivity.
  - reflexivity.
  - reflexivity.
  - reflexivity.
  - vm_compute. reflexivity.
  - vm_compute. reflexivity.
  - vm_compute. reflexivity.
  - rewrite R. reflexivity.
Defined.

Lemma proposeGroup_failure_rolls_back_self_witness :
  proposeGroup (scripted (deserializeFailsOn "v")) leaf ""%string sampleNode 7 7 0 =
    (Err "unreadable"%string,
     world (rollback (scripted (deserializeFailsOn "v"))
              (mkConfigResult leaf (ValueHandler 7) (PolicyHandler 7) [resultA]) 7),
     [EvBeginValueProposals 7 leaf (map fst (Groups sampleNode)) None;
      EvBeginPolicyProposals 7 leaf (map fst (Groups sampleNode)) None]
       ++ (callsA ++ [])
       ++ (valueCalls 7 [("u"%string, sampleValue)]
             ++ [EvDeserialize 7 "v" (Value sampleValue) (Some "unreadable"%string)])
       ++ flat_map rollbackCalls [resultA]
       ++ [EvRollbackProposals (ValueHandler 7) leaf; EvRollbackProposals (PolicyHandler 7) leaf])
  /\ Forall (fun ev => isValidation ev = true)
       (valueCalls 7 [("u"%string, sampleValue)]
          ++ [EvDeserialize 7 "v" (Value sampleValue) (Some "unreadable"%string)])
  /\ filter isRollback
       (valueCalls 7 [("u"%string, sampleValue)]
          ++ [EvDeserialize 7 "v" (Value sampleValue) (Some "unreadable"%string)]) = [].
Proof.
  apply (@proposeGroup_failure_rolls_back_self nat bytes (scripted (deserializeFailsOn "v"))
           leaf ""%string sampleNode 7 7 0 7 [71] 1 [71] 2).
  - reflexivity.
  - reflexivity.
  - reflexivity.
  - reflexivity.
  - apply Fails_value with (w3 := 5) (rest := []) (w4 := 6).
    + apply ChildRuns_ok with (w1 := 5); [vm_compute; reflexivity | apply ChildRuns_done].
    + reflexivity.
    + reflexivity.
    + reflexivity.
Defined.

Lemma processConfig_wraps_root_witness :
  exists rest,
    trace (processConfig (scripted quiet) "Channel"%string sampleManager threeSiblings 0) =
      [EvBeginValueProposals 1 threeSiblings ["Channel"%string] None;
       EvBeginPolicyProposals 1 threeSiblings ["Channel"%string] None]
        ++ trace (proposeGroup (scripted quiet) threeSiblings "/Channel"%string threeSiblings 10 10 2)
        ++ rest.
Proof.
  apply (proj2 (proj2 (@processConfig_wraps_root nat bytes (scripted quiet) "Channel"%string
                         sampleManager threeSiblings 0)) 1 10 1 10 2).
  - reflexivity.
  - reflexivity.
Defined.

Lemma proposeGroup_error_unwrapped_witness :
  proposeGroup (scripted (beginValueFailsOn 71)) leaf ""%string sampleNode 7 7 0 =
    (Err "boom"%string,
     world (rollback (scripted (beginValueFailsOn 71))
              (mkConfigResult leaf (ValueHandler 7) (PolicyHandler 7) []) 3),
     [EvBeginValueProposals 7 leaf (map fst (Groups sampleNode)) None;
      EvBeginPolicyProposals 7 leaf (map fst (Groups sampleNode)) None]
       ++ [EvBeginValueProposals 71 leaf [] (Some "boom"%string)] ++ []
       ++ rollbackCalls (mkConfigResult leaf (ValueHandler 7) (PolicyHandler 7) [])).
Proof.
  destruct (@proposeGroup_error_unwrapped nat bytes (scripted (beginValueFailsOn 71))
              leaf ""%string sampleNode 7 7 0) as (_ & _ & H & _).
  destruct (H 7 [71] 1) as [_ H1]; [reflexivity|].
  destruct (H1 [71] 2) as [_ H2]; [reflexivity|].
  apply H2; [reflexivity | reflexivity |].
  apply Fails_subGroup.
  apply ChildRuns_fail. vm_compute. reflexivity.
Defined.

(** Two different sub-groups fail, and [processConfig] returns the same
    error, the one the failing call returned. *)
Lemma processConfig_error_has_no_path :
  value (processConfig (scripted (beginValueFailsOn 101)) "Channel"%string sampleManager
           threeSiblings 0) = Err "boom"%string /\
  value (processConfig (scripted (beginValueFailsOn 102)) "Channel"%string sampleManager
           threeSiblings 0) = Err "boom"%string /\
  In (EvBeginValueProposals 101 threeSiblings [] (Some "boom"%string))
     (trace (processConfig (scripted (beginValueFailsOn 101)) "Channel"%string sampleManager
               threeSiblings 0)) /\
  In (EvBeginValueProposals 102 threeSiblings [] (Some "boom"%string))
     (trace (processConfig (scripted (beginValueFailsOn 102)) "Channel"%string sampleManager
               threeSiblings 0)).
Proof.
  split; [vm_compute; reflexivity|]. split; [vm_compute; reflexivity|].
  split; vm_compute; tauto.
Qed.

Lemma processConfig_result_shape_witness :
  resultShape
    (mkConfigResult leaf (ValueHandler 1) (PolicyHandler 1)
       [mkConfigResult leaf (ValueHandler 10) (PolicyHandler 10) []])
  = Node [groupShape leaf]
  /\ shapeNodes
       (resultShape
          (mkConfigResult leaf (ValueHandler 1) (PolicyHandler 1)
             [mkConfigResult leaf (ValueHandler 10) (PolicyHandler 10) []]))
     = S (shapeNodes (groupShape leaf)).
Proof.
  apply (@processConfig_result_shape nat bytes (scripted quiet) "Channel"%string
           sampleManager leaf 0 _
           (world (processConfig (scripted quiet) "Channel"%string sampleManager leaf 0))
           (trace (processConfig (scripted quiet) "Channel"%string sampleManager leaf 0))).
  vm_compute. reflexivity.
Defined.

(** The result for a one-node tree has two nodes. *)
Lemma processConfig_result_has_extra_node :
  exists cr w' t,
    processConfig (scripted quiet) "Channel"%string sampleManager leaf 0 = (Ok cr, w', t) /\
    shapeNodes (resultShape cr) = 2 /\ shapeNodes (groupShape leaf) = 1 /\
    resultShape cr <> groupShape leaf.
Proof.
  eexists _, _, _. split; [vm_compute; reflexivity|].
  split; [reflexivity|]. split; [reflexivity|]. vm_compute. discriminate.
Qed.

Lemma preCommit_calls_of_success_witness :
  preCommitsOn (ValueHandler 10)
    (trace (processConfig (scripted quiet) "Channel"%string sampleManager leaf 0)) = 2.
Proof.
  rewrite (proj1 (@preCommit_calls_of_success nat bytes (scripted quiet) "Channel"%string)
             sampleManager leaf 0
             (mkConfigResult leaf (ValueHandler 1) (PolicyHandler 1)
                [mkConfigResult leaf (ValueHandler 10) (PolicyHandler 10) []])
             (world (processConfig (scripted quiet) "Channel"%string sampleManager leaf 0))
             (trace (processConfig (scripted quiet) "Channel"%string sampleManager leaf 0))).
  - reflexivity.
  - vm_compute. reflexivity.
Defined.

(** A successful [processConfig] on a one-node tree calls PreCommit twice on
    that node's value handler, which is the handler of no other node. *)
Lemma preCommit_called_twice :
  exists cr w' t,
    processConfig (scripted quiet) "Channel"%string sampleManager leaf 0 = (Ok cr, w', t) /\
    nodesWith (ValueHandler 10) cr = 1 /\
    preCommitsOn (ValueHandler 10) t = 2.
Proof.
  eexists _, _, _. split; [vm_compute; reflexivity|]. split; reflexivity.
Qed.


Lemma forallb_Permutation (A : Type) (f : A -> bool) l l' :
  Permutation l l' -> forallb f l = forallb f l'.
Proof.
  induction 1 as [|a l l' _ IH|a b l|l1 l2 l3 _ IH1 _ IH2]; cbn [forallb].
  - reflexivity.
  - rewrite IH. reflexivity.
  - destruct (f a), (f b); reflexivity.
  - rewrite IH1. exact IH2.
Qed.

Lemma known_place h n :
  In n (knownSubGroups h) -> placeOfId (handlerFor h n) = placeOfId h ++ [n].
Proof.
  unfold knownSubGroups.
  destruct (h =? 1) eqn:E1.
  { apply Nat.eqb_eq in E1. subst h. intros [<-|[]]. reflexivity. }
  destruct (h =? 10) eqn:E2.
  { apply Nat.eqb_eq in E2. subst h. intros [<-|[<-|[<-|[]]]]; reflexivity. }
  intros [].
Qed.

Lemma known_places h names :
  knownNames h names = true ->
  Forall2 (fun n h' => placeOfId h' = placeOfId h ++ [n]) names (map (handlerFor h) names).
Proof.
  unfold knownNames. induction names as [|n names IH]; cbn [forallb map]; intros K.
  - constructor.
  - apply andb_true_iff in K as [Kn K]. constructor; [|apply IH, K].
    apply existsb_exists in Kn as (m & I & E). apply String.eqb_eq in E. subst m.
    apply known_place, I.
Qed.

Lemma perNode_state : PerNodeState perNode perNodeLayout.
Proof.
  unfold PerNodeState, onlyAt. cbn [perNode perNodeLayout BeginValueProposals
    BeginPolicyProposals Deserialize ProposePolicy PreCommit RollbackProposals
    stateAt placeOf placeOfDeserializer fst snd].
  repeat split; intros; auto; unfold bump, reset;
    try (destruct (list_eq_dec string_dec _ _); congruence).
  match goal with H : _ = _ |- _ => rewrite H end. reflexivity.
Qed.

Lemma perNode_byName : ByName perNode perNodeLayout.
Proof.
  unfold ByName. cbn [perNode perNodeLayout BeginValueProposals BeginPolicyProposals
    stateAt placeOf placeOfDeserializer handleOf fst snd].
  split; [|split; [|split]].
  - intros h x ns ns' w w' P S. split; [|exact S].
    unfold knownNames. rewrite (forallb_Permutation _ P).
    destruct (forallb _ ns'); cbn [beginValueAgree]; [|exact I].
    split; [reflexivity|]. exists (handlerFor h). auto.
  - intros p x ns ns' w w' P S. split; [|exact S].
    unfold knownNames. rewrite (forallb_Permutation _ P).
    destruct (forallb _ ns'); cbn [beginPolicyAgree]; [|exact I].
    exists (handlerFor p). auto.
  - intros h x ns w d hs. destruct (knownNames h ns) eqn:K; [|discriminate].
    intros [= <- <-]. split; [reflexivity | apply known_places, K].
  - intros p x ns w ps. destruct (knownNames p ns) eqn:K; [|discriminate].
    intros [= <-]. apply known_places, K.
Qed.

Lemma channelAB_distinct : distinctNames channelAB.
Proof.
  constructor.
  - repeat constructor; cbn; intuition discriminate.
  - repeat constructor; intros [].
Qed.



Lemma proposeGroup_success_is_clean_witness :
  Forall wentWell (trace (proposeGroup (scripted quiet) leaf ""%string threeSiblings 7 7 0)).
Proof.
  apply (@proposeGroup_success_is_clean nat bytes (scripted quiet) threeSiblings
           leaf ""%string 7 7 0 threeSiblingsResult
           (world (proposeGroup (scripted quiet) leaf ""%string threeSiblings 7 7 0))).
  vm_compute. reflexivity.
Defined.

Lemma proposeGroup_success_proposals_witness :
  proposalsOf (trace (proposeGroup (scripted quiet) leaf ""%string threeSiblings 7 7 0))
  = proposals threeSiblings threeSiblingsResult
  /\ resultShape threeSiblingsResult = groupShape threeSiblings.
Proof.
  apply (@proposeGroup_success_proposals nat bytes (scripted quiet) threeSiblings
           leaf ""%string 7 7 0 threeSiblingsResult
           (world (proposeGroup (scripted quiet) leaf ""%string threeSiblings 7 7 0))).
  vm_compute. reflexivity.
Defined.

Lemma proposeGroup_result_handlers_witness :
  tx threeSiblingsResult = leaf /\
  handler threeSiblingsResult = ValueHandler 7 /\
  policyHandler threeSiblingsResult = PolicyHandler 7 /\
  len (subResults threeSiblingsResult) = len (Groups threeSiblings) /\
  map handler (subResults threeSiblingsResult) = map ValueHandler [71; 72; 73] /\
  map policyHandler (subResults threeSiblingsResult) = map PolicyHandler [71; 72; 73] /\
  Forall (fun r => tx r = leaf) (subResults threeSiblingsResult).
Proof.
  apply (@proposeGroup_result_handlers nat bytes (scripted quiet) leaf ""%string
           threeSiblings 7 7 0 7 [71; 72; 73] 1 [71; 72; 73] 2 threeSiblingsResult
           (world (proposeGroup (scripted quiet) leaf ""%string threeSiblings 7 7 0))
           (trace (proposeGroup (scripted quiet) leaf ""%string threeSiblings 7 7 0))).
  - reflexivity.
  - reflexivity.
  - vm_compute. reflexivity.
Defined.

Lemma proposeGroup_own_values_and_policies_witness :
  exists ps w2 w3 tc,
    ChildRuns (scripted quiet) leaf ""%string (Groups threeSiblings) [71; 72; 73] ps w2
      (subResults threeSiblingsResult) None w3 tc /\
    trace (proposeGroup (scripted quiet) leaf ""%string threeSiblings 7 7 0) =
      [EvBeginValueProposals 7 leaf (map fst (Groups threeSiblings)) None;
       EvBeginPolicyProposals 7 leaf (map fst (Groups threeSiblings)) None]
        ++ tc
        ++ map (fun kv => EvDeserialize 7 (fst kv) (Value (snd kv)) None) (Values threeSiblings)
        ++ map (fun kp => EvProposePolicy 7 leaf (fst kp) (snd kp) None)
             (Policies threeSiblings)
        ++ preCommitCalls threeSiblingsResult.
Proof.
  apply (@proposeGroup_own_values_and_policies nat bytes (scripted quiet) leaf ""%string
           threeSiblings 7 7 0 7 [71; 72; 73] 1 threeSiblingsResult
           (world (proposeGroup (scripted quiet) leaf ""%string threeSiblings 7 7 0))).
  - reflexivity.
  - vm_compute. reflexivity.
Defined.

Lemma cascade_after_processConfig_witness :
  len (trace (commit (scripted quiet) leafResult 0)) = 2 * S (shapeNodes (groupShape leaf)) /\
  Forall (fun ev => methodOf ev = MCommitProposals /\ givenTx leaf ev)
    (trace (commit (scripted quiet) leafResult 0)) /\
  len (trace (rollback (scripted quiet) leafResult 0)) = 2 * S (shapeNodes (groupShape leaf)) /\
  Forall (fun ev => methodOf ev = MRollbackProposals /\ givenTx leaf ev)
    (trace (rollback (scripted quiet) leafResult 0)).
Proof.
  apply (@cascade_after_processConfig nat bytes (scripted quiet) "Channel"%string
           sampleManager leaf 0 leafResult
           (world (processConfig (scripted quiet) "Channel"%string sampleManager leaf 0))
           (trace (processConfig (scripted quiet) "Channel"%string sampleManager leaf 0))).
  vm_compute. reflexivity.
Defined.

Lemma proposeGroup_never_preCommits_policy_handlers_witness :
  ~ In (EvPreCommit (PolicyHandler 73) leaf None)
       (trace (proposeGroup (scripted (preCommitFailsOn 73)) leaf ""%string threeSiblings 7 7 0)).
Proof.
  apply (@proposeGroup_never_preCommits_policy_handlers nat bytes
           (scripted (preCommitFailsOn 73)) leaf ""%string threeSiblings 7 7 0
           (value (proposeGroup (scripted (preCommitFailsOn 73)) leaf ""%string
                     threeSiblings 7 7 0))
           (world (proposeGroup (scripted (preCommitFailsOn 73)) leaf ""%string
                     threeSiblings 7 7 0))).
  vm_compute. reflexivity.
Defined.

Lemma proposeGroup_begin_failure_witness :
  proposeGroup (scripted (beginPolicyFailsOn 7)) leaf ""%string threeSiblings 7 7 0
  = (Err "no policy"%string, 2,
     [EvBeginValueProposals 7 leaf (map fst (Groups threeSiblings)) None;
      EvBeginPolicyProposals 7 leaf (map fst (Groups threeSiblings))
        (Some "no policy"%string)]).
Proof.
  apply (proj2 (@proposeGroup_begin_failure nat bytes (scripted (beginPolicyFailsOn 7))
                  leaf ""%string threeSiblings 7 7 0) 7 [71; 72; 73] 1).
  - reflexivity.
  - reflexivity.
Defined.

Lemma proposeGroup_threads_context_witness :
  Forall (fun ev => eventTx ev = None \/ eventTx ev = Some leaf)
    (trace (proposeGroup (scripted (preCommitFailsOn 73)) leaf ""%string threeSiblings 7 7 0))
  /\ (forall cr,
        value (proposeGroup (scripted (preCommitFailsOn 73)) leaf ""%string
                 threeSiblings 7 7 0) = Ok cr -> allTx leaf cr).
Proof.
  apply (@proposeGroup_threads_context nat bytes (scripted (preCommitFailsOn 73))
           leaf ""%string threeSiblings 7 7 0 _
           (world (proposeGroup (scripted (preCommitFailsOn 73)) leaf ""%string
                     threeSiblings 7 7 0))).
  vm_compute. reflexivity.
Defined.
